(** * Asset manager and forward renderer of the [delta] engine

    A shallow embedding of [src/asset_manager.rs], [src/asset_manager/*.rs]
    and [src/render.rs].

    - Rust [u32] values are [Z] with their wrap-around written out
      ([u32_wrap]); [usize -> u32] casts truncate the same way, and the
      [u32 as i32] cast is two's complement ([as_i32]).
    - [f32] values are Rocq primitive floats (IEEE binary64 stands in for
      binary32: only comparisons and infinities are used by the modelled code).
    - [HashMap]s are stdpp [gmap]s; [SlotMap]s are lists whose keys are the
      positions (no element is ever removed, so the key of an insert is the
      length before it); [Vec::pop] takes the last element.
    - The [wgpu] device and queue are shared by the asset manager and the
      renderer (two [Arc]s of one object): every call on them is appended, in
      program order, to one log [gpu_log] kept in the asset manager.
    - A Rust panic ([expect], [unwrap], [assert!], indexing) is the outcome
      [Panic st], carrying the state reached when it happened;
      [std::process::exit] is [Exit st]. *)

From Stdlib Require Import ZArith Lia Floats Ascii String.
From stdpp Require Import base list gmap strings pretty.

Open Scope Z_scope.

(** ** Machine integers *)

Definition u32_wrap (x : Z) : Z := x mod 2 ^ 32.

(** [x as i32] for a [u32] value [x]. *)
Definition as_i32 (x : Z) : Z := if x <? 2 ^ 31 then x else x - 2 ^ 32.

(** [x as u16] for a [u32] value [x]. *)
Definition as_u16 (x : Z) : Z := x mod 2 ^ 16.

Definition usize_len {A} (l : list A) : Z := Z.of_nat (length l).

(** ** Data model (mesh.rs, material.rs, texture.rs, light.rs) *)

Definition f32 := float.
Definition arr3 : Type := (f32 * f32 * f32)%type.

Record Vertex := {
  position : arr3;
  uv : f32 * f32;
  normal : arr3;
  tangent : f32 * f32 * f32 * f32;
}.

(** [Index { idx: [u32; 3] }] *)
Record Index := { idx : Z * Z * Z }.

Record Primitive := {
  vertex : list Vertex;
  index : list Index;
  material : option nat;
}.

(** [MaterialId(usize)] *)
Definition MaterialId := nat.

Record PrimitiveRange := {
  first_index : Z;
  index_count : Z;
  base_vertex : Z;
  aabb_min : arr3;
  aabb_max : arr3;
  range_material : MaterialId;
}.

Inductive IndexFormat := Uint16 | Uint32.

Definition IndexFormat_eqb (a b : IndexFormat) : bool :=
  match a, b with Uint16, Uint16 | Uint32, Uint32 => true | _, _ => false end.

(** A GPU buffer is known by the id of the device object. *)
Definition BufferId := nat.

Record Mesh := {
  name : option string;
  primitives : list PrimitiveRange;
  vertex_buf : BufferId;
  index_buf : option BufferId;
  index_format : option IndexFormat;
  vertex_count : Z;
  mesh_index_count : Z;
}.

Record Material := {
  base_color_factor : f32 * f32 * f32 * f32;
  metallic_factor : f32;
  roughness_factor : f32;
  emissive_factor : arr3;
  alpha_cutoff : f32;
  double_sided : bool;
  base_color_texture : option nat;
  metallic_roughness_texture : option nat;
  normal_texture : option nat;
  emissive_texture : option nat;
}.

Record MaterialUniform := {
  mu_base_color_factor : f32 * f32 * f32 * f32;
  mu_emissive_factor : arr3;
  mu_emissive_padding : f32;
  mu_metallic_factor : f32;
  mu_roughness_factor : f32;
  mu_alpha_cutoff : f32;
  mu_double_sided : Z;
}.

(** [impl Default for MaterialUniform] *)
Definition MaterialUniform_default : MaterialUniform := {|
  mu_base_color_factor := (0.0, 1.0, 0.5, 1.0)%float;
  mu_emissive_factor := (0.0, 5.0, 2.5)%float;
  mu_emissive_padding := 0.0%float;
  mu_metallic_factor := (-1.0)%float;
  mu_roughness_factor := (-1.0)%float;
  mu_alpha_cutoff := (-1.0)%float;
  mu_double_sided := 12345;
|}.

(** [size_of::<MaterialUniform>()]: 16 + 12 + 4 + 4 + 4 + 4 + 4 bytes. *)
Definition size_of_MaterialUniform : Z := 48.

(** [size_of::<MatId>()]: [u32] + [[u32; 63]], aligned to 16. *)
Definition size_of_MatId : Z := 256.

Definition MAX_MAT : nat := 1024.

Inductive TextureFormat := Rgba8UnormSrgb | Rgba8Unorm | Depth32Float.

#[global] Instance TextureFormat_eq_dec : EqDecision TextureFormat.
Proof. solve_decision. Defined.

#[global] Instance TextureFormat_countable : Countable TextureFormat.
Proof.
  refine (inj_countable'
    (fun f => match f with Rgba8UnormSrgb => 0%nat | Rgba8Unorm => 1%nat
                           | Depth32Float => 2%nat end)
    (fun n => match n with 0%nat => Rgba8UnormSrgb | 1%nat => Rgba8Unorm
                           | _ => Depth32Float end) _).
  by intros [].
Defined.

(** [TextureKey { key, format }] *)
Definition TextureKey : Type := (string * TextureFormat)%type.

Inductive AddressMode := ClampToEdge | MirrorRepeat | Repeat.
Inductive FilterMode := Nearest | Linear.

(** The importer's [Sampler] (texture.rs). *)
Record Sampler := {
  address_mode_u : AddressMode;
  address_mode_v : AddressMode;
  address_mode_w : AddressMode;
  mag_filter : FilterMode;
  min_filter : FilterMode;
  mipmap_filter : FilterMode;
}.

(** The importer's decoded [Texture] (texture.rs). *)
Record Texture := {
  pixels : list Z;
  width : Z;
  height : Z;
  tex_sampler : option nat;
}.

Definition TextureId := nat.
Definition SamplerId := nat.

Record GpuTexture := {
  tex : nat;
  tex_view : nat;
  gpu_sampler : SamplerId;
}.

Record TextureGroup := {
  tg_base_color : TextureId;
  tg_metallic_roughness : TextureId;
  tg_normal : TextureId;
  tg_emissive : TextureId;
  tg_occlusion : TextureId;
}.

(** [wgpu::SamplerDescriptor] fields set by [get_sampler]; [wgpu]'s address
    and filter modes are the importer's enumerations one to one. *)
Record SamplerDescriptor := {
  sd_label : option string;
  sd_address_mode_u : AddressMode;
  sd_address_mode_v : AddressMode;
  sd_address_mode_w : AddressMode;
  sd_mag_filter : FilterMode;
  sd_min_filter : FilterMode;
  sd_mipmap_filter : FilterMode;
}.

(** [SamplerDescriptor::default()] *)
Definition SamplerDescriptor_default : SamplerDescriptor := {|
  sd_label := None;
  sd_address_mode_u := ClampToEdge; sd_address_mode_v := ClampToEdge;
  sd_address_mode_w := ClampToEdge;
  sd_mag_filter := Nearest; sd_min_filter := Nearest; sd_mipmap_filter := Nearest;
|}.

(** [LightKind] and [Light] (light.rs). *)
Inductive LightKind := Point | Directional | Spot.

Record Light := {
  kind : LightKind;
  light_position : arr3;
  direction : arr3;
  color : arr3;
  range : f32;
  inner_angle : f32;
  outer_angle : f32;
}.

Record LightUniform := {
  lu_position : arr3;
  lu_pad0 : f32;
  lu_color : arr3;
  lu_pad1 : f32;
  lu_direction : arr3;
  light_type : Z;
  lu_range : f32;
  inner_cos : f32;
  outer_cos : f32;
  lu_pad2 : f32;
}.

Definition MAX_LIGHTS : nat := 16.

(** [glam::Vec3] fields and the [Camera] of render.rs. *)
Record Camera := {
  eye : arr3;
  target : arr3;
  up : arr3;
  fov_y_radians : f32;
  z_near : f32;
  z_far : f32;
  aspect : f32;
}.

(** [[[f32; 4]; 4]], column major. *)
Definition Mat4 : Type := list (list f32).

Record CameraUniform := {
  view_proj_m : Mat4;
  camera_pos : arr3;
  cu_pad0 : f32;
}.

(** ** The GPU log *)

(** Contents handed to [create_buffer_init] / [write_buffer]. *)
Inductive Payload :=
| PVertices (vs : list Vertex)
| PIndexU16 (is : list Z)
| PIndexU32 (is : list Z)
| PMaterial (m : MaterialUniform)
| PZeroed (size : Z)
| PBytes (tag : string) (data : list Z)
| PCamera (c : CameraUniform)
| PLights (ls : list LightUniform)
| PLightParams (count : Z).

Inductive Effect :=
| ECreateBuffer (b : BufferId) (label : string) (p : Payload)
| EWriteBuffer (b : BufferId) (offset : Z) (p : Payload)
| ECreateTexture (t : nat) (label : string) (fmt : TextureFormat) (w h : Z)
    (mip_level_count : Z)
| ECreateView (v : nat) (t : nat)
| ECreateSampler (s : nat) (d : SamplerDescriptor)
| ECreateBindGroup (g : nat) (label : string)
(* importer calls (file reads) *)
| EImportMesh (path : string) (selector : option string)
| EImportMaterial (path : string) (selector : option string)
| EImportTexture (path : string) (selector : nat)
| EImportSampler (path : string) (selector : nat)
(* surface and render-pass calls of [render] *)
| EConfigureSurface
| ELog (msg : string)
| ECreateEncoder (e : nat)
| EBeginRenderPass
| ESetPipeline (p : nat)
| ESetBindGroup (slot : nat) (g : nat) (offsets : list Z)
| ESetVertexBuffer (b : BufferId)
| ESetIndexBuffer (b : BufferId) (fmt : IndexFormat)
| EDrawIndexed (lo hi : Z) (base_vertex : Z) (instances : Z * Z)
| ESubmit
| EPresent.

(** ** The asset manager state (asset_manager.rs) *)

(** [GltfImporter] is a unit struct whose [load_*] methods read glTF files:
    the model is what each call decodes from the file system, [None] where
    the importer panics (missing file, entity not found, unsupported
    topology, ...). *)
Record GltfImporter := {
  load_mesh : string -> option string -> option (list Primitive);
  load_material : string -> option string -> option Material;
  load_texture : string -> nat -> option Texture;
  load_sampler : string -> nat -> option Sampler;
}.

Record AssetManager := {
  importer : GltfImporter;
  meshes_by_name : gmap string nat;
  meshes : list Mesh;
  mat_buffer : BufferId;
  mat_free : list nat;
  mat_by_name : gmap string MaterialId;
  tex_by_mat : gmap nat TextureGroup;
  tex_by_key : gmap (string * TextureFormat) TextureId;
  textures : list GpuTexture;
  sampler_by_name : gmap string SamplerId;
  samplers : list nat;
  sampler_default : SamplerId;
  (* id of the next object the device creates, and the device/queue log *)
  next_object : nat;
  gpu_log : list Effect;
}.

Definition set_meshes_by_name (m : gmap string nat) (s : AssetManager) :=
  Build_AssetManager s.(importer) m s.(meshes) s.(mat_buffer) s.(mat_free)
    s.(mat_by_name) s.(tex_by_mat) s.(tex_by_key) s.(textures)
    s.(sampler_by_name) s.(samplers) s.(sampler_default) s.(next_object)
    s.(gpu_log).
Definition set_meshes (l : list Mesh) (s : AssetManager) :=
  Build_AssetManager s.(importer) s.(meshes_by_name) l s.(mat_buffer) s.(mat_free)
    s.(mat_by_name) s.(tex_by_mat) s.(tex_by_key) s.(textures)
    s.(sampler_by_name) s.(samplers) s.(sampler_default) s.(next_object)
    s.(gpu_log).
Definition set_mat_free (l : list nat) (s : AssetManager) :=
  Build_AssetManager s.(importer) s.(meshes_by_name) s.(meshes) s.(mat_buffer) l
    s.(mat_by_name) s.(tex_by_mat) s.(tex_by_key) s.(textures)
    s.(sampler_by_name) s.(samplers) s.(sampler_default) s.(next_object)
    s.(gpu_log).
Definition set_mat_by_name (m : gmap string MaterialId) (s : AssetManager) :=
  Build_AssetManager s.(importer) s.(meshes_by_name) s.(meshes) s.(mat_buffer)
    s.(mat_free) m s.(tex_by_mat) s.(tex_by_key) s.(textures)
    s.(sampler_by_name) s.(samplers) s.(sampler_default) s.(next_object)
    s.(gpu_log).
Definition set_tex_by_mat (m : gmap nat TextureGroup) (s : AssetManager) :=
  Build_AssetManager s.(importer) s.(meshes_by_name) s.(meshes) s.(mat_buffer)
    s.(mat_free) s.(mat_by_name) m s.(tex_by_key) s.(textures)
    s.(sampler_by_name) s.(samplers) s.(sampler_default) s.(next_object)
    s.(gpu_log).
Definition set_tex_by_key (m : gmap (string * TextureFormat) TextureId)
    (s : AssetManager) :=
  Build_AssetManager s.(importer) s.(meshes_by_name) s.(meshes) s.(mat_buffer)
    s.(mat_free) s.(mat_by_name) s.(tex_by_mat) m s.(textures)
    s.(sampler_by_name) s.(samplers) s.(sampler_default) s.(next_object)
    s.(gpu_log).
Definition set_textures (l : list GpuTexture) (s : AssetManager) :=
  Build_AssetManager s.(importer) s.(meshes_by_name) s.(meshes) s.(mat_buffer)
    s.(mat_free) s.(mat_by_name) s.(tex_by_mat) s.(tex_by_key) l
    s.(sampler_by_name) s.(samplers) s.(sampler_default) s.(next_object)
    s.(gpu_log).
Definition set_sampler_by_name (m : gmap string SamplerId) (s : AssetManager) :=
  Build_AssetManager s.(importer) s.(meshes_by_name) s.(meshes) s.(mat_buffer)
    s.(mat_free) s.(mat_by_name) s.(tex_by_mat) s.(tex_by_key) s.(textures)
    m s.(samplers) s.(sampler_default) s.(next_object) s.(gpu_log).
Definition set_samplers (l : list nat) (s : AssetManager) :=
  Build_AssetManager s.(importer) s.(meshes_by_name) s.(meshes) s.(mat_buffer)
    s.(mat_free) s.(mat_by_name) s.(tex_by_mat) s.(tex_by_key) s.(textures)
    s.(sampler_by_name) l s.(sampler_default) s.(next_object) s.(gpu_log).
Definition set_gpu (n : nat) (log : list Effect) (s : AssetManager) :=
  Build_AssetManager s.(importer) s.(meshes_by_name) s.(meshes) s.(mat_buffer)
    s.(mat_free) s.(mat_by_name) s.(tex_by_mat) s.(tex_by_key) s.(textures)
    s.(sampler_by_name) s.(samplers) s.(sampler_default) n log.

(** ** A state and panic monad *)

Inductive Outcome (S A : Type) :=
| Done (a : A) (st : S)
| Panic (msg : string) (st : S)
| Exit (code : Z) (st : S).
Arguments Done {S A} a st.
Arguments Panic {S A} msg st.
Arguments Exit {S A} code st.

Definition M (S A : Type) := S -> Outcome S A.

Definition mret {S A} (a : A) : M S A := fun s => Done a s.
Definition mbind {S A B} (m : M S A) (k : A -> M S B) : M S B := fun s =>
  match m s with
  | Done a s' => k a s'
  | Panic msg s' => Panic msg s'
  | Exit c s' => Exit c s'
  end.

Notation "'let!' x ':=' m 'in' k" := (mbind m (fun x => k))
  (at level 200, x name, m at level 100, k at level 200).
Notation "m ';;;' k" := (mbind m (fun _ => k)) (at level 100, right associativity).

Definition mget {S} : M S S := fun s => Done s s.
Definition mmodify {S} (f : S -> S) : M S unit := fun s => Done tt (f s).
Definition mpanic {S A} (msg : string) : M S A := fun s => Panic msg s.

(** [Option::expect] *)
Definition expect {S A} (o : option A) (msg : string) : M S A :=
  match o with Some a => mret a | None => mpanic msg end.

Abbreviation AM := (M AssetManager).

(** A device call that creates an object. *)
Definition device_create (mk : nat -> Effect) : AM nat := fun s =>
  Done s.(next_object) (set_gpu (S s.(next_object)) (s.(gpu_log) ++ [mk s.(next_object)]) s).

(** A queue call (or any call that creates nothing). *)
Definition gpu_call (e : Effect) : AM unit := fun s =>
  Done tt (set_gpu s.(next_object) (s.(gpu_log) ++ [e]) s).

Definition create_buffer_init (label : string) (p : Payload) : AM BufferId :=
  device_create (fun b => ECreateBuffer b label p).

Definition write_buffer (b : BufferId) (offset : Z) (p : Payload) : AM unit :=
  gpu_call (EWriteBuffer b offset p).

(** ** Keys *)

(** [split_key]: [key.splitn(2, '#')]. *)
Fixpoint split_key (key : string) : string * option string :=
  match key with
  | EmptyString => (EmptyString, None)
  | String c rest =>
      if Ascii.eqb c "#"%char then (EmptyString, Some rest)
      else let '(path, sel) := split_key rest in (String c path, sel)
  end.

Fixpoint parse_digits (s : string) (acc : nat) : option nat :=
  match s with
  | EmptyString => Some acc
  | String c rest =>
      let d := Ascii.nat_of_ascii c in
      if (48 <=? d)%nat && (d <=? 57)%nat
      then parse_digits rest (acc * 10 + (d - 48))%nat else None
  end.

(** Modelled from the spec: [AssetManager::split_path], called by
    [get_texture] and [get_sampler] but not part of the sources. The spec
    says texture and sampler keys have the form [path#index] with the index
    always numeric, and the callers' messages say "expected in form path#0":
    [Some (path, index)] for such a key, [None] otherwise. *)
Definition split_path (key : string) : option (string * nat) :=
  match split_key key with
  | (path, Some (String _ _ as sel)) =>
      match parse_digits sel 0 with Some n => Some (path, n) | None => None end
  | _ => None
  end.

(** [format!("{}#{}", path, i)] *)
Definition key_of (path : string) (i : nat) : string :=
  String.append path (String.append "#" (pretty i)).

(** ** Mesh builder (mesh.rs) *)

(** One vertex of the AABB loop: [if p[k] < min[k] { min[k] = p[k] }] and
    [if p[k] > max[k] { max[k] = p[k] }] for [k] in [0..3]. *)
Definition aabb_coord (mn mx p : f32) : f32 * f32 :=
  (if PrimFloat.ltb p mn then p else mn, if PrimFloat.ltb mx p then p else mx).

Definition aabb_update (acc : arr3 * arr3) (v : Vertex) : arr3 * arr3 :=
  let '((mn0, mn1, mn2), (mx0, mx1, mx2)) := acc in
  let '(p0, p1, p2) := position v in
  let '(a0, b0) := aabb_coord mn0 mx0 p0 in
  let '(a1, b1) := aabb_coord mn1 mx1 p1 in
  let '(a2, b2) := aabb_coord mn2 mx2 p2 in
  ((a0, a1, a2), (b0, b1, b2)).

(** [min = [f32::INFINITY; 3]], [max = [f32::NEG_INFINITY; 3]], then the loop. *)
Definition aabb_of (vs : list Vertex) : arr3 * arr3 :=
  fold_left aabb_update vs
    ((PrimFloat.infinity, PrimFloat.infinity, PrimFloat.infinity),
     (PrimFloat.neg_infinity, PrimFloat.neg_infinity, PrimFloat.neg_infinity)).

(** The pushes [base_vertex + a], [base_vertex + b], [base_vertex + c] of one
    primitive's triangles ([u32] additions). *)
Definition offset_indices (bv : Z) (ix : list Index) : list Z :=
  flat_map (fun i => let '(a, b, c) := idx i in
                     [u32_wrap (bv + a); u32_wrap (bv + b); u32_wrap (bv + c)]) ix.

(** The local variables of [set_mesh]'s loop. *)
Record SetMeshAcc := {
  flat_vertices : list Vertex;
  flat_indices_u32 : list Z;
  prim_ranges : list PrimitiveRange;
  acc_base_vertex : Z;
}.

Definition set_mesh_init : SetMeshAcc := {|
  flat_vertices := []; flat_indices_u32 := []; prim_ranges := []; acc_base_vertex := 0;
|}.

(** One iteration of [for prim in primitives] in [set_mesh]. *)
Definition set_mesh_step (acc : SetMeshAcc) (prim : Primitive) : SetMeshAcc :=
  let bv := acc_base_vertex acc in
  let vcount := u32_wrap (usize_len (vertex prim)) in
  let '(mn, mx) := aabb_of (vertex prim) in
  let first := u32_wrap (usize_len (flat_indices_u32 acc)) in
  let '(flat, ic) :=
    match index prim with
    | [] => (flat_indices_u32 acc, 0)
    | _ => (flat_indices_u32 acc ++ offset_indices bv (index prim),
            u32_wrap (usize_len (index prim) * 3))
    end in
  {| flat_vertices := flat_vertices acc ++ vertex prim;
     flat_indices_u32 := flat;
     prim_ranges := prim_ranges acc ++
       [{| first_index := first; index_count := ic; base_vertex := as_i32 bv;
           aabb_min := mn; aabb_max := mx; range_material := 0%nat |}];
     acc_base_vertex := u32_wrap (bv + vcount) |}.

Definition set_mesh_loop (prims : list Primitive) : SetMeshAcc :=
  fold_left set_mesh_step prims set_mesh_init.

(** [can_u16]: [base_vertex <= 0x10000 && flat_indices_u32.iter().all(|&i| i < 0x10000)]. *)
Definition can_u16 (bv : Z) (flat : list Z) : bool :=
  (bv <=? 65536) && forallb (fun i => i <? 65536) flat.

(** [self.meshes.insert(mesh)] *)
Definition meshes_insert (m : Mesh) : AM nat := fun s =>
  Done (length s.(meshes)) (set_meshes (s.(meshes) ++ [m]) s).

Definition set_mesh (prims : list Primitive) (nm : string) : AM nat :=
  let acc := set_mesh_loop prims in
  let flat := flat_indices_u32 acc in
  let bv := acc_base_vertex acc in
  let! vb := create_buffer_init ("mesh:" +:+ nm +:+ ":vertex")
               (PVertices (flat_vertices acc)) in
  let! ib_fmt :=
    match flat with
    | [] => mret (None, None)
    | _ =>
        if can_u16 bv flat then
          let! ib := create_buffer_init ("mesh:" +:+ nm +:+ ":index(u16)")
                       (PIndexU16 (map as_u16 flat)) in
          mret (Some ib, Some Uint16)
        else
          let! ib := create_buffer_init ("mesh:" +:+ nm +:+ ":index(u32)")
                       (PIndexU32 flat) in
          mret (Some ib, Some Uint32)
    end in
  let mesh := {| name := Some nm; primitives := prim_ranges acc; vertex_buf := vb;
                 index_buf := fst ib_fmt; index_format := snd ib_fmt;
                 vertex_count := bv; mesh_index_count := u32_wrap (usize_len flat) |} in
  let! id := meshes_insert mesh in
  mmodify (fun s => set_meshes_by_name (<[nm := id]> s.(meshes_by_name)) s) ;;;
  mret id.

(** [self.meshes.get_mut(mesh_id)] followed by an update of that mesh. *)
Definition update_mesh (id : nat) (m : Mesh) : AM unit :=
  mmodify (fun s => set_meshes (<[id := m]> s.(meshes)) s).

(** [set_mat] *)
Definition set_mat (mesh_id : nat) (i : nat) (mat_id : MaterialId) : AM unit :=
  let! s := mget in
  match s.(meshes) !! mesh_id with
  | Some mesh =>
      if (i <? length (primitives mesh))%nat then
        update_mesh mesh_id
          {| name := name mesh;
             primitives := alter (fun p =>
               {| first_index := first_index p; index_count := index_count p;
                  base_vertex := base_vertex p; aabb_min := aabb_min p;
                  aabb_max := aabb_max p; range_material := mat_id |}) i (primitives mesh);
             vertex_buf := vertex_buf mesh; index_buf := index_buf mesh;
             index_format := index_format mesh; vertex_count := vertex_count mesh;
             mesh_index_count := mesh_index_count mesh |}
      else mpanic "set_mat: primitive index out of range"
  | None => mpanic "set_mat: mesh_id not found"
  end.

(** [x as i32] for an [i32] sum (release-build wrapping). *)
Definition i32_wrap (x : Z) : Z := as_i32 (x mod 2 ^ 32).

(** The first loop of [rewrite_mesh]: [(flat_vertices, flat_indices_u32, base_vertex)]. *)
Definition rewrite_flat_step (acc : list Vertex * list Z * Z) (prim : Primitive)
    : list Vertex * list Z * Z :=
  let '(fv, flat, bv) := acc in
  let vcount := u32_wrap (usize_len (vertex prim)) in
  let flat' := match index prim with
               | [] => flat
               | _ => flat ++ offset_indices bv (index prim)
               end in
  (fv ++ vertex prim, flat', u32_wrap (bv + vcount)).

(** The second loop of [rewrite_mesh]: the new ranges, with [cur_first_index]
    a [u32] and [cur_base] an [i32]; every material is [0.into()]. *)
Fixpoint rewrite_ranges (cur_first_index cur_base : Z) (prims : list Primitive)
    : list PrimitiveRange :=
  match prims with
  | [] => []
  | prim :: rest =>
      let '(mn, mx) := aabb_of (vertex prim) in
      let ic := u32_wrap (usize_len (index prim) * 3) in
      {| first_index := cur_first_index; index_count := ic; base_vertex := cur_base;
         aabb_min := mn; aabb_max := mx; range_material := 0%nat |}
      :: rewrite_ranges (u32_wrap (cur_first_index + ic))
           (i32_wrap (cur_base + i32_wrap (usize_len (vertex prim)))) rest
  end.

Definition rewrite_mesh (mesh_id : nat) (prims : list Primitive) : AM unit :=
  let! s := mget in
  let! mesh := expect (s.(meshes) !! mesh_id) "invalid mesh_id" in
  let '(fv, flat, bv) := fold_left rewrite_flat_step prims ([], [], 0) in
  if negb (bv =? vertex_count mesh) then mpanic "vertex count mismatch on rewrite"
  else if negb (u32_wrap (usize_len flat) =? mesh_index_count mesh)
  then mpanic "index count mismatch on rewrite"
  else
    write_buffer (vertex_buf mesh) 0 (PVertices fv) ;;;
    match index_buf mesh with
    | Some ib =>
        match index_format mesh with
        | Some Uint16 => write_buffer ib 0 (PIndexU16 (map as_u16 flat))
        | Some Uint32 => write_buffer ib 0 (PIndexU32 flat)
        | None => mret tt
        end
    | None => mret tt
    end ;;;
    update_mesh mesh_id
      {| name := name mesh; primitives := rewrite_ranges 0 0 prims;
         vertex_buf := vertex_buf mesh; index_buf := index_buf mesh;
         index_format := index_format mesh; vertex_count := vertex_count mesh;
         mesh_index_count := mesh_index_count mesh |}.

(** ** Samplers and textures (texture.rs) *)

Definition importer_call {A} (e : Effect) (f : GltfImporter -> option A)
    (msg : string) : AM A :=
  gpu_call e ;;;
  let! s := mget in
  expect (f s.(importer)) msg.

(** The closures [wrap] and [filter] of [get_sampler]. *)
Definition wrap (m : AddressMode) : AddressMode :=
  match m with
  | ClampToEdge => ClampToEdge
  | MirrorRepeat => MirrorRepeat
  | Repeat => Repeat
  end.

Definition filter (f : FilterMode) : FilterMode :=
  match f with Nearest => Nearest | Linear => Linear end.

Definition get_sampler (key : string) : AM SamplerId :=
  let! ps := expect (split_path key) "get_sampler: not a valid key! Expected format is path#0" in
  let '(path, selector) := ps in
  let! s := mget in
  match s.(sampler_by_name) !! key with
  | Some id => mret id
  | None =>
      let! info := importer_call (EImportSampler path selector)
                     (fun imp => load_sampler imp path selector)
                     "Sampler index out of range" in
      let! smp := device_create (fun o => ECreateSampler o
         {| sd_label := Some key;
            sd_address_mode_u := wrap (address_mode_u info);
            sd_address_mode_v := wrap (address_mode_v info);
            sd_address_mode_w := wrap (address_mode_w info);
            sd_mag_filter := filter (mag_filter info);
            sd_min_filter := filter (min_filter info);
            sd_mipmap_filter := filter (mipmap_filter info) |}) in
      let! s' := mget in
      let id := length s'.(samplers) in
      mmodify (fun s => set_samplers (s.(samplers) ++ [smp]) s) ;;;
      mmodify (fun s => set_sampler_by_name (<[key := id]> s.(sampler_by_name)) s) ;;;
      mret id
  end.

Definition get_texture (key : string) (format : TextureFormat) : AM TextureId :=
  let tex_key := (key, format) in
  let! s := mget in
  match s.(tex_by_key) !! tex_key with
  | Some id => mret id
  | None =>
      let! ps := expect (split_path key) "get_texture: key not valid! expected in form path#0" in
      let '(path, selector) := ps in
      let! tex_data := importer_call (EImportTexture path selector)
                         (fun imp => load_texture imp path selector)
                         "Invalid texture index" in
      let! sampler_id :=
        match tex_sampler tex_data with
        | Some sampler_index => get_sampler (key_of path sampler_index)
        | None => let! s := mget in mret s.(sampler_default)
        end in
      let! t := device_create (fun o =>
                  ECreateTexture o key format (width tex_data) (height tex_data) 1) in
      let! v := device_create (fun o => ECreateView o t) in
      let! s' := mget in
      let new_id := length s'.(textures) in
      mmodify (fun s => set_textures (s.(textures) ++
                 [{| tex := t; tex_view := v; gpu_sampler := sampler_id |}]) s) ;;;
      mmodify (fun s => set_tex_by_key (<[tex_key := new_id]> s.(tex_by_key)) s) ;;;
      mret new_id
  end.

(** ** Materials (material.rs) *)

(** [Vec::pop] *)
Definition vec_pop (l : list nat) : option (nat * list nat) :=
  match rev l with
  | x :: r => Some (x, rev r)
  | [] => None
  end.

(** [material.<t>_texture.map(|info| self.get_texture(&format!("{}#{}", path, info), fmt)).unwrap()] *)
Definition map_texture_unwrap (path : string) (o : option nat) (fmt : TextureFormat)
    : AM TextureId :=
  match o with
  | Some info => get_texture (key_of path info) fmt
  | None => mpanic "called `Option::unwrap()` on a `None` value"
  end.

Definition material_uniform_of (m : Material) : MaterialUniform := {|
  mu_base_color_factor := base_color_factor m;
  mu_emissive_factor := emissive_factor m;
  mu_emissive_padding := 0.0%float;
  mu_metallic_factor := metallic_factor m;
  mu_roughness_factor := roughness_factor m;
  mu_alpha_cutoff := alpha_cutoff m;
  mu_double_sided := if double_sided m then 1 else 0;
|}.

(** [self.tex_by_mat[idx] = group]: the field is not declared in the struct
    of the sources; the spec describes it as indexed in parallel with the
    material slots, so it is a map from slot to group here. *)
Definition get_material (nm : string) : AM MaterialId :=
  let! s := mget in
  match s.(mat_by_name) !! nm with
  | Some id => mret id
  | None =>
      let '(path, selector) := split_key nm in
      let! material := importer_call (EImportMaterial path selector)
                         (fun imp => load_material imp path selector)
                         "Material not found" in
      let! base_color_tex :=
        map_texture_unwrap path (base_color_texture material) Rgba8UnormSrgb in
      let! metallic_roughness_tex :=
        map_texture_unwrap path (metallic_roughness_texture material) Rgba8Unorm in
      let! normal_tex := map_texture_unwrap path (normal_texture material) Rgba8Unorm in
      let! emissive_tex :=
        map_texture_unwrap path (emissive_texture material) Rgba8UnormSrgb in
      let uniform := material_uniform_of material in
      let! s1 := mget in
      let! popped := expect (vec_pop s1.(mat_free)) "No free material slots available" in
      let '(i, rest) := popped in
      mmodify (set_mat_free rest) ;;;
      mmodify (fun s => set_tex_by_mat (<[i := {|
          tg_base_color := base_color_tex; tg_metallic_roughness := metallic_roughness_tex;
          tg_normal := normal_tex; tg_emissive := emissive_tex;
          tg_occlusion := normal_tex |}]> s.(tex_by_mat)) s) ;;;
      write_buffer s1.(mat_buffer) (Z.of_nat i * size_of_MaterialUniform) (PMaterial uniform) ;;;
      mmodify (fun s => set_mat_by_name (<[nm := i]> s.(mat_by_name)) s) ;;;
      mret i
  end.

(** ** Meshes by key (mesh.rs) *)

(** [for (idx, prim) in primitives.iter().enumerate()] of [get_mesh]. *)
Fixpoint assign_materials (id : nat) (path : string) (prims : list Primitive) (i : nat)
    : AM unit :=
  match prims with
  | [] => mret tt
  | prim :: rest =>
      let! m := match material prim with
                | Some mat => get_material (key_of path mat)
                | None => mret 0%nat
                end in
      set_mat id i m ;;;
      assign_materials id path rest (S i)
  end.

Definition get_mesh (nm : string) : AM nat :=
  let! s := mget in
  match s.(meshes_by_name) !! nm with
  | Some id => mret id
  | None =>
      let '(path, selector) := split_key nm in
      let! prims := importer_call (EImportMesh path selector)
                      (fun imp => load_mesh imp path selector)
                      "Failed to load glTF file" in
      let! id := set_mesh prims nm in
      assign_materials id path prims 0 ;;;
      mret id
  end.

(** ** Construction (asset_manager.rs) *)

(** [(1..MAX_MAT).rev().collect()] *)
Definition mat_free_init : list nat := rev (seq 1 (MAX_MAT - 1)).

(** The device calls of [AssetManager::new], in order. *)
Definition new_body : AM BufferId :=
  let! mb := create_buffer_init "Material Buffer"
               (PZeroed (Z.of_nat MAX_MAT * size_of_MaterialUniform)) in
  write_buffer mb 0 (PMaterial MaterialUniform_default) ;;;
  let! t0 := device_create (fun o => ECreateTexture o "color_texture" Rgba8UnormSrgb 1 1 1) in
  let! t1 := device_create (fun o => ECreateTexture o "data_texture" Rgba8Unorm 1 1 1) in
  let! t2 := device_create (fun o => ECreateTexture o "depth_texture" Depth32Float 1 1 1) in
  device_create (fun o => ECreateView o t0) ;;;
  device_create (fun o => ECreateView o t1) ;;;
  device_create (fun o => ECreateView o t2) ;;;
  device_create (fun o => ECreateSampler o SamplerDescriptor_default) ;;;
  device_create (fun o => ECreateSampler o SamplerDescriptor_default) ;;;
  device_create (fun o => ECreateSampler o SamplerDescriptor_default) ;;;
  device_create (fun o => ECreateBindGroup o "texture_bind_group_layout") ;;;
  device_create (fun o => ECreateBindGroup o "texture_bind_group") ;;;
  mret mb.

(** [AssetManager::new(device, queue)], on a device whose next object id is
    [dev_next] and whose log so far is [dev_log]. The caches the struct
    literal of the sources does not list ([tex_by_key], [textures],
    [sampler_by_name], [tex_by_mat]) start empty; the default sampler is the
    sampler-slot-map key 0, holding the first sampler [new] creates (spec:
    "a default sampler always exists at a known handle"). *)
Definition AssetManager_new (imp : GltfImporter) (dev_next : nat) (dev_log : list Effect)
    : AssetManager :=
  let s0 := {| importer := imp; meshes_by_name := ∅; meshes := []; mat_buffer := 0%nat;
               mat_free := []; mat_by_name := ∅; tex_by_mat := ∅; tex_by_key := ∅;
               textures := []; sampler_by_name := ∅; samplers := []; sampler_default := 0%nat;
               next_object := dev_next; gpu_log := dev_log |} in
  match new_body s0 with
  | Done mb s =>
      {| importer := imp; meshes_by_name := ∅; meshes := []; mat_buffer := mb;
         mat_free := mat_free_init; mat_by_name := ∅; tex_by_mat := ∅; tex_by_key := ∅;
         textures := []; sampler_by_name := ∅; samplers := [(dev_next + 7)%nat];
         sampler_default := 0%nat;
         next_object := s.(next_object); gpu_log := s.(gpu_log) |}
  | _ => s0
  end.

(** ** The forward renderer (render.rs) *)

Inductive SurfaceError := Lost | Outdated | OutOfMemory | Timeout | Other.

(** What [ctx.surface.get_current_texture()] returns this frame. *)
Inductive Acquire := Acquired (frame : nat) | AcquireFailed (err : SurfaceError).

(** [RenderCommand { mesh_id }] *)
Record RenderCommand := { mesh_id : nat }.

Record ForwardRenderer := {
  asset : AssetManager;
  pipeline : nat;
  camera_buffer : BufferId;
  camera_bg : nat;
  camera : Camera;
  depth_view : nat;
  light_ssbo : BufferId;
  light_params : BufferId;
  light_bg : nat;
  mat_bg : nat;
  mat_id_buffer : BufferId;
  mat_id_bg : nat;
}.

Definition set_camera (c : Camera) (r : ForwardRenderer) : ForwardRenderer :=
  {| asset := r.(asset); pipeline := r.(pipeline); camera_buffer := r.(camera_buffer);
     camera_bg := r.(camera_bg); camera := c; depth_view := r.(depth_view);
     light_ssbo := r.(light_ssbo); light_params := r.(light_params);
     light_bg := r.(light_bg); mat_bg := r.(mat_bg); mat_id_buffer := r.(mat_id_buffer);
     mat_id_bg := r.(mat_id_bg) |}.

Definition set_asset (a : AssetManager) (r : ForwardRenderer) : ForwardRenderer :=
  {| asset := a; pipeline := r.(pipeline); camera_buffer := r.(camera_buffer);
     camera_bg := r.(camera_bg); camera := r.(camera); depth_view := r.(depth_view);
     light_ssbo := r.(light_ssbo); light_params := r.(light_params);
     light_bg := r.(light_bg); mat_bg := r.(mat_bg); mat_id_buffer := r.(mat_id_buffer);
     mat_id_bg := r.(mat_id_bg) |}.

Abbreviation FR := (M ForwardRenderer).

(** Running an asset-manager (device/queue) computation inside the renderer. *)
Definition on_asset {A} (m : AM A) : FR A := fun r =>
  match m r.(asset) with
  | Done a s => Done a (set_asset s r)
  | Panic msg s => Panic msg (set_asset s r)
  | Exit c s => Exit c (set_asset s r)
  end.

Definition mexit {S A} (code : Z) : M S A := fun s => Exit code s.

Fixpoint gpu_calls (es : list Effect) : AM unit :=
  match es with
  | [] => mret tt
  | e :: rest => gpu_call e ;;; gpu_calls rest
  end.

(** The draw of one primitive range: [set_bind_group(3, &self.mat_id_bg,
    &[offset])] with [offset = (p.material.0 * size_of::<MatId>()) as u32],
    then [draw_indexed(first..first + count, p.base_vertex, 0..1)]. *)
Definition draw_call_of (p : PrimitiveRange) : Effect :=
  EDrawIndexed (first_index p) (u32_wrap (first_index p + index_count p))
    (base_vertex p) (0, 1).

Definition draw_primitives (mat_id_bg : nat) (ps : list PrimitiveRange) : list Effect :=
  flat_map (fun p =>
    [ESetBindGroup 3 mat_id_bg
       [u32_wrap (Z.of_nat (range_material p) * size_of_MatId)];
     draw_call_of p]) ps.

(** The body of [for cmd in action]. *)
Fixpoint draw_commands (mat_id_bg : nat) (action : list RenderCommand) : AM unit :=
  match action with
  | [] => mret tt
  | cmd :: rest =>
      let! s := mget in
      let! mesh := expect (s.(meshes) !! mesh_id cmd) "mesh not found" in
      gpu_call (ESetVertexBuffer (vertex_buf mesh)) ;;;
      match index_buf mesh, index_format mesh with
      | Some ib, Some fmt =>
          gpu_call (ESetIndexBuffer ib fmt) ;;;
          gpu_calls (draw_primitives mat_id_bg (primitives mesh))
      | _, _ => mret tt
      end ;;;
      draw_commands mat_id_bg rest
  end.

Section Render.
(** [f32::cos] and [Camera::view_proj] (glam's [look_at_rh] and
    [perspective_rh]): floating-point library code, kept abstract. *)
Variable f32_cos : f32 -> f32.
Variable view_proj : Camera -> Mat4.

(** [impl From<&Light> for LightUniform] *)
Definition light_uniform_of (l : Light) : LightUniform := {|
  lu_position := light_position l; lu_pad0 := 0.0%float;
  lu_color := color l; lu_pad1 := 0.0%float;
  lu_direction := direction l;
  light_type := match kind l with Point => 0 | Directional => 1 | Spot => 2 end;
  lu_range := range l;
  inner_cos := f32_cos (inner_angle l);
  outer_cos := f32_cos (outer_angle l);
  lu_pad2 := 0.0%float |}.

Definition camera_uniform_of (c : Camera) : CameraUniform :=
  {| view_proj_m := view_proj c; camera_pos := eye c; cu_pad0 := 0.0%float |}.

Definition update_camera_buffer : FR unit :=
  let! r := mget in
  on_asset (write_buffer r.(camera_buffer) 0 (PCamera (camera_uniform_of r.(camera)))).

(** The [// upload lights] block. *)
Definition upload_lights (r : ForwardRenderer) (lights : list Light) : AM unit :=
  let count := Nat.min (length lights) MAX_LIGHTS in
  let tmp := map light_uniform_of (firstn count lights) in
  (if (0 <? count)%nat then write_buffer r.(light_ssbo) 0 (PLights tmp) else mret tt) ;;;
  write_buffer r.(light_params) 0 (PLightParams (u32_wrap (Z.of_nat count))).

Definition render (acq : Acquire) (lights : list Light) (cam : Camera)
    (action : list RenderCommand) : FR unit :=
  mmodify (set_camera cam) ;;;
  update_camera_buffer ;;;
  let! r := mget in
  match acq with
  | AcquireFailed err =>
      match err with
      | Lost | Outdated => on_asset (gpu_call EConfigureSurface)
      | OutOfMemory =>
          on_asset (gpu_call (ELog "wgpu: OutOfMemory on surface get_current_texture")) ;;;
          mexit 1
      | Timeout => on_asset (gpu_call (ELog "wgpu: surface acquire timeout; skipping frame"))
      | Other => on_asset (gpu_call (ELog "wgpu: surface acquire error; skipping frame"))
      end ;;;
      mret tt
  | Acquired frame =>
      on_asset (
        device_create (fun o => ECreateView o frame) ;;;
        upload_lights r lights ;;;
        device_create ECreateEncoder ;;;
        gpu_call EBeginRenderPass ;;;
        gpu_call (ESetPipeline r.(pipeline)) ;;;
        gpu_call (ESetBindGroup 0 r.(camera_bg) []) ;;;
        gpu_call (ESetBindGroup 1 r.(light_bg) []) ;;;
        gpu_call (ESetBindGroup 2 r.(mat_bg) []) ;;;
        draw_commands r.(mat_id_bg) action ;;;
        gpu_call ESubmit ;;;
        gpu_call EPresent)
  end.
End Render.

(** ** Example inputs *)

Definition mk_vertex (x y z : f32) : Vertex := {|
  position := (x, y, z); uv := (0.0, 0.0)%float; normal := (0.0, 1.0, 0.0)%float;
  tangent := (1.0, 0.0, 0.0, 1.0)%float |}.

Definition mk_tri (a b c : Z) : Index := {| idx := (a, b, c) |}.

(** Two triangle primitives with 4 and 3 vertices (the spec's "Cube"). *)
Definition cube_primitives : list Primitive := [
  {| vertex := [mk_vertex 0 0 0; mk_vertex 1 0 0; mk_vertex 1 1 0; mk_vertex 0 1 0]%float;
     index := [mk_tri 0 1 2; mk_tri 0 2 3]; material := Some 0%nat |};
  {| vertex := [mk_vertex 0 0 0; mk_vertex 1 2 3; mk_vertex (-1) 0 5]%float;
     index := [mk_tri 0 1 2]; material := None |}].

Definition mk_material (bc mr nt et : option nat) : Material := {|
  base_color_factor := (1.0, 1.0, 1.0, 1.0)%float; metallic_factor := 1.0%float;
  roughness_factor := 0.5%float; emissive_factor := (0.0, 0.0, 0.0)%float;
  alpha_cutoff := 0.5%float; double_sided := false;
  base_color_texture := bc; metallic_roughness_texture := mr;
  normal_texture := nt; emissive_texture := et |}.

(** [scene.gltf]: mesh [Cube]; material 0 with all four textures, material 1
    with none; textures and samplers at every index. *)
Definition scene_importer : GltfImporter := {|
  load_mesh := fun path sel =>
    if String.eqb path "scene.gltf" then Some cube_primitives else None;
  load_material := fun path sel =>
    if String.eqb path "scene.gltf" then
      match sel with
      | Some "0" => Some (mk_material (Some 0%nat) (Some 1%nat) (Some 2%nat) (Some 3%nat))
      | Some "1" => Some (mk_material None None None None)
      | _ => None
      end%string
    else None;
  load_texture := fun path sel =>
    if String.eqb path "scene.gltf" then
      Some {| pixels := [255; 255; 255; 255]; width := 1; height := 1;
              tex_sampler := Some 0%nat |}
    else None;
  load_sampler := fun path sel =>
    if String.eqb path "scene.gltf" then
      Some {| address_mode_u := Repeat; address_mode_v := Repeat;
              address_mode_w := Repeat; mag_filter := Linear; min_filter := Linear;
              mipmap_filter := Nearest |}
    else None |}.

Definition scene_manager : AssetManager := AssetManager_new scene_importer 0 [].

(** ** Quantities the statements are about *)

(** Sum of the primitives' vertex counts, and of their index counts
    (3 per triangle). *)
Definition total_vertices (prims : list Primitive) : Z :=
  Z.of_nat (sum_list (map (fun p => length (vertex p)) prims)).

Definition total_indices (prims : list Primitive) : Z :=
  Z.of_nat (sum_list (map (fun p => 3 * length (index p))%nat prims)).

(** The local (per-primitive) index values, in push order. *)
Definition local_indices (prim : Primitive) : list Z :=
  flat_map (fun i => let '(a, b, c) := idx i in [a; b; c]) (index prim).

(** Every local index is a [u32] below [2^31]. *)
Definition indices_small (prims : list Primitive) : Prop :=
  Forall (fun prim => Forall (fun a => 0 <= a < 2 ^ 31) (local_indices prim)) prims.

(** The contents of buffer [b] at its (latest) creation in a device log. *)
Definition buffer_created (log : list Effect) (b : BufferId) : option Payload :=
  fold_left (fun acc e => match e with
                          | ECreateBuffer b' _ p => if Nat.eqb b b' then Some p else acc
                          | _ => acc
                          end) log None.

Definition index_values (p : Payload) : list Z :=
  match p with PIndexU16 l | PIndexU32 l => l | _ => [] end.

(** wgpu's [draw_indexed(lo..hi, base_vertex, _)] on index buffer contents
    [ib]: the vertex fetched for entry [k] of [lo..hi] is [ib[k] + base_vertex]. *)
Definition fetched_vertices (ib : list Z) (e : Effect) : list Z :=
  match e with
  | EDrawIndexed lo hi bv _ => map (fun k => nth (Z.to_nat k) ib 0 + bv) (seqZ lo (hi - lo))
  | _ => []
  end.

(** A computation that, when it returns, leaves the part [f] of the state
    unchanged. *)
Definition Preserves {X A} (f : AssetManager -> X) (m : AM A) : Prop :=
  forall s a s', m s = Done a s' -> f s' = f s.

(** The material-slot invariant: free slots are distinct and never slot 0;
    every slot handed out to a key is at least 1 and no longer free; two
    keys never share a slot. *)
Definition mat_inv (s : AssetManager) : Prop :=
  NoDup (mat_free s) /\ (0%nat ∉ mat_free s) /\
  (forall k i, mat_by_name s !! k = Some i -> (1 <= i)%nat /\ (i ∉ mat_free s)) /\
  (forall k1 k2 i, mat_by_name s !! k1 = Some i -> mat_by_name s !! k2 = Some i -> k1 = k2).

(** The message of [Option::unwrap] on [None]. *)
Definition unwrap_none_msg : string := "called `Option::unwrap()` on a `None` value".

(** ** Example renderer inputs *)

Definition example_camera : Camera := {|
  eye := (0.0, 0.0, 5.0)%float; target := (0.0, 0.0, 0.0)%float; up := (0.0, 1.0, 0.0)%float;
  fov_y_radians := 1.0%float; z_near := 0.125%float; z_far := 100.0%float;
  aspect := 1.5%float |}.

Definition mk_light (x : f32) : Light := {|
  kind := Point; light_position := (x, 2.0, 0.0)%float; direction := (0.0, -1.0, 0.0)%float;
  color := (1.0, 1.0, 1.0)%float; range := 10.0%float; inner_angle := 0.25%float;
  outer_angle := 0.5%float |}.

(** [n] point lights. *)
Definition example_lights (n : nat) : list Light :=
  map (fun k => mk_light (PrimFloat.of_uint63 (Uint63.of_Z (Z.of_nat k)))) (seq 0 n).

(** A renderer over [scene_manager] whose own GPU objects have ids 100 to 109. *)
Definition example_renderer : ForwardRenderer := {|
  asset := scene_manager; pipeline := 100; camera_buffer := 101; camera_bg := 102;
  camera := example_camera; depth_view := 103; light_ssbo := 104; light_params := 105;
  light_bg := 106; mat_bg := 107; mat_id_buffer := 108; mat_id_bg := 109 |}%nat.

(** The state an outcome ends in. *)
Definition outcome_state {S A} (o : Outcome S A) : S :=
  match o with Done _ s | Panic _ s | Exit _ s => s end.

(** [m] returns, with a value satisfying [P], and only appends to the GPU log. *)
Definition Runs {A} (m : AM A) (P : A -> Prop) : Prop :=
  forall s, exists a s' rest, m s = Done a s' /\ P a /\ gpu_log s' = gpu_log s ++ rest.

(** [m] only appends to the GPU log, whatever way it ends. *)
Definition Extends {A} (m : AM A) : Prop :=
  forall s, exists rest, gpu_log (outcome_state (m s)) = gpu_log s ++ rest.

(** ** Importer, draw loop and further asset-manager parts *)

(** A path without the separator ['#']. *)
Definition no_hash (p : string) : Prop :=
  forall c, c ∈ list_ascii_of_string p -> c <> "#"%char.

(** Every free material slot is a valid slot other than the default slot 0. *)
Definition slots_in_range (s : AssetManager) : Prop :=
  forall j, j ∈ mat_free s -> (1 <= j < MAX_MAT)%nat.

(** The calls [render]'s draw loop makes for one mesh. *)
Definition mesh_draw_effects (mat_id_bg : nat) (mesh : Mesh) : list Effect :=
  ESetVertexBuffer (vertex_buf mesh) ::
  match index_buf mesh, index_format mesh with
  | Some ib, Some fmt => ESetIndexBuffer ib fmt :: draw_primitives mat_id_bg (primitives mesh)
  | _, _ => []
  end.

(** The calls of the draw loop for one [RenderCommand]; a missing mesh makes none (the loop panics there). *)
Definition command_effects (ms : list Mesh) (mat_id_bg : nat) (cmd : RenderCommand) : list Effect :=
  match ms !! mesh_id cmd with
  | Some mesh => mesh_draw_effects mat_id_bg mesh
  | None => []
  end.

(** [wgpu::COPY_BUFFER_ALIGNMENT] *)
Definition COPY_BUFFER_ALIGNMENT : Z := 4.

(** [u64::next_multiple_of] *)
Definition next_multiple_of (x m : Z) : Z :=
  if x mod m =? 0 then x else x + (m - x mod m).

(** The [id] fields of [create_material_id]'s [mat_ids]: [(0..max_ids as u32)]. *)
Definition material_ids (max_ids : nat) : list Z :=
  map Z.of_nat (seq 0 (Z.to_nat (u32_wrap (Z.of_nat max_ids)))).

(** The size of the buffer [create_material_id] creates. *)
Definition material_id_buffer_size (max_ids : nat) : Z :=
  next_multiple_of (usize_len (material_ids max_ids) * size_of_MatId) COPY_BUFFER_ALIGNMENT.

(** [usize::MAX] on a 64-bit target. *)
Definition usize_MAX : N := (2 ^ 64 - 1)%N.

(** The digit loop of [usize::from_str] (radix 10, checked arithmetic). *)
Fixpoint parse_usize_digits (s : string) (acc : N) : option N :=
  match s with
  | EmptyString => Some acc
  | String c rest =>
      let d := N.of_nat (Ascii.nat_of_ascii c) in
      if (48 <=? d)%N && (d <=? 57)%N then
        let acc' := (acc * 10 + (d - 48))%N in
        if (acc' <=? usize_MAX)%N then parse_usize_digits rest acc' else None
      else None
  end.

(** [s.parse::<usize>()]: empty input, and a lone ['+'], are errors; one
    leading ['+'] is accepted. *)
Definition parse_usize (s : string) : option N :=
  match s with
  | EmptyString => None
  | String c rest =>
      if Ascii.eqb c "+" then
        match rest with EmptyString => None | _ => parse_usize_digits rest 0 end
      else parse_usize_digits s 0
  end.

(** [select_mesh] and [select_material] over the names of the document's
    meshes (materials), in document order; [None] where they panic. *)
Definition select_entity (names : list (option string)) (sel : option string) : option nat :=
  match sel with
  | Some s =>
      match parse_usize s with
      | Some idx => if (idx <? N.of_nat (length names))%N then Some (N.to_nat idx) else None
      | None => fst <$> list_find (fun n => n = Some s) names
      end
  | None => match names with [] => None | _ :: _ => Some 0%nat end
  end.

(** [indices.chunks(3)]: consecutive slices of three, the last one shorter
    when the length is not a multiple of three. *)
Fixpoint chunks3 (l : list Z) : list (list Z) :=
  match l with
  | a :: b :: c :: rest => [a; b; c] :: chunks3 rest
  | [] => []
  | _ => [l]
  end.

(** [.filter(|tri| tri.len() == 3).map(|tri| Index { idx: [tri[0], tri[1], tri[2]] })] *)
Definition tri_indices (indices : list Z) : list Index :=
  map (fun tri => {| idx := (nth 0 tri 0, nth 1 tri 0, nth 2 tri 0) |})
    (List.filter (fun tri => (length tri =? 3)%nat) (chunks3 indices)).

(** [.collect::<Vec<_>>()] of a sequence whose items may panic. *)
Fixpoint option_collect {A} (l : list (option A)) : option (list A) :=
  match l with
  | [] => Some []
  | None :: _ => None
  | Some x :: rest =>
      match option_collect rest with Some xs => Some (x :: xs) | None => None end
  end.

(** The inputs [load_mesh] reads from one glTF primitive: whether its mode
    is [Triangles], and its accessors (an absent accessor is [None]; index
    values are already widened to [u32]) and material index. *)
Record GltfPrimitive := {
  gp_triangles : bool;
  gp_positions : option (list arr3);
  gp_normals : option (list arr3);
  gp_uvs : option (list (f32 * f32));
  gp_tangents : option (list (f32 * f32 * f32 * f32));
  gp_indices : option (list Z);
  gp_material : option nat;
}.

(** [Option::unwrap_or] *)
Definition unwrap_or {A} (o : option A) (d : A) : A :=
  match o with Some x => x | None => d end.

(** [(0u32..positions.len() as u32).collect()] *)
Definition default_indices (n : nat) : list Z :=
  map Z.of_nat (seq 0 (Z.to_nat (u32_wrap (Z.of_nat n)))).

(** [Vertex { position: positions[i], uv: uvs[i], normal: normals[i],
    tangent: tangents[i] }]; an index out of range panics. *)
Definition load_vertex (positions : list arr3) (uvs : list (f32 * f32))
    (normals : list arr3) (tangents : list (f32 * f32 * f32 * f32)) (i : nat) : option Vertex :=
  match positions !! i, uvs !! i, normals !! i, tangents !! i with
  | Some p, Some u, Some n, Some t => Some {| position := p; uv := u; normal := n; tangent := t |}
  | _, _, _, _ => None
  end.

(** The body of the loop of [GltfImporter::load_mesh] for one primitive;
    [None] where it panics. *)
Definition load_primitive (gp : GltfPrimitive) : option Primitive :=
  if negb (gp_triangles gp) then None else
  match gp_positions gp with
  | None => None
  | Some positions =>
      let n := length positions in
      let normals := unwrap_or (gp_normals gp) (repeat (0.0, 1.0, 0.0)%float n) in
      let uvs := unwrap_or (gp_uvs gp) (repeat (0.0, 0.0)%float n) in
      let tangents := unwrap_or (gp_tangents gp) (repeat (1.0, 0.0, 0.0, 1.0)%float n) in
      let indices := unwrap_or (gp_indices gp) (default_indices n) in
      match option_collect (map (load_vertex positions uvs normals tangents) (seq 0 n)) with
      | None => None
      | Some vertices =>
          Some {| vertex := vertices; index := tri_indices indices; material := gp_material gp |}
      end
  end.

(** Every attribute accessor present is at least as long as the positions. *)
Definition attrs_cover (n : nat) (gp : GltfPrimitive) : Prop :=
  (forall l, gp_normals gp = Some l -> n <= length l)%nat /\
  (forall l, gp_uvs gp = Some l -> n <= length l)%nat /\
  (forall l, gp_tangents gp = Some l -> n <= length l)%nat.

(** The [PrimitiveRange] at index [j] of mesh [id], if any. *)
Definition range_at (s : AssetManager) (id j : nat) : option PrimitiveRange :=
  match meshes s !! id with Some mesh => primitives mesh !! j | None => None end.

(** A single primitive of two vertices and no triangle. *)
Definition point_primitives : list Primitive :=
  [{| vertex := [mk_vertex 0 0 0; mk_vertex 1 0 0]%float; index := []; material := None |}].

(** [cube_primitives] with the last triangle's third index raised to 65532,
    so that with the base vertex 4 it is the flat index 65536. *)
Definition wide_cube_primitives : list Primitive := [
  {| vertex := [mk_vertex 0 0 0; mk_vertex 1 0 0; mk_vertex 1 1 0; mk_vertex 0 1 0]%float;
     index := [mk_tri 0 1 2; mk_tri 0 2 3]; material := Some 0%nat |};
  {| vertex := [mk_vertex 0 0 0; mk_vertex 1 2 3; mk_vertex (-1) 0 5]%float;
     index := [mk_tri 0 1 65532]; material := None |}].

(** One triangle range with material 5. *)
Definition example_ranges : list PrimitiveRange :=
  [{| first_index := 0; index_count := 3; base_vertex := 0;
      aabb_min := (0.0, 0.0, 0.0)%float; aabb_max := (1.0, 1.0, 0.0)%float;
      range_material := 5%nat |}].

(** A triangle-list primitive with five positions and no other accessor. *)
Definition example_gltf_primitive : GltfPrimitive := {|
  gp_triangles := true;
  gp_positions := Some (repeat (0.0, 0.0, 0.0)%float 5);
  gp_normals := None; gp_uvs := None; gp_tangents := None; gp_indices := None;
  gp_material := Some 1%nat |}.

(** * Proofs *)

(** ** Arithmetic of the [u32] and [i32] casts *)

Lemma u32_wrap_id (x : Z) : 0 <= x < 2 ^ 32 -> u32_wrap x = x.
Proof. intros H. unfold u32_wrap. apply Z.mod_small. lia. Qed.

Lemma u32_wrap_range (x : Z) : 0 <= u32_wrap x < 2 ^ 32.
Proof. unfold u32_wrap. apply Z.mod_pos_bound. lia. Qed.

Lemma as_i32_id (x : Z) : x < 2 ^ 31 -> as_i32 x = x.
Proof. intros H. unfold as_i32. destruct (Z.ltb_spec x (2 ^ 31)); lia. Qed.

Lemma as_u16_id (x : Z) : 0 <= x < 65536 -> as_u16 x = x.
Proof. intros H. unfold as_u16. apply Z.mod_small. lia. Qed.

Lemma total_vertices_cons (p : Primitive) (ps : list Primitive) :
  total_vertices (p :: ps) = usize_len (vertex p) + total_vertices ps.
Proof. unfold total_vertices, usize_len. simpl. lia. Qed.

Lemma total_indices_cons (p : Primitive) (ps : list Primitive) :
  total_indices (p :: ps) = 3 * usize_len (index p) + total_indices ps.
Proof. unfold total_indices, usize_len. simpl. lia. Qed.

Lemma total_vertices_nil : total_vertices [] = 0.
Proof. reflexivity. Qed.

Lemma total_indices_nil : total_indices [] = 0.
Proof. reflexivity. Qed.

Lemma total_vertices_nonneg (ps : list Primitive) : 0 <= total_vertices ps.
Proof. unfold total_vertices. lia. Qed.

Lemma total_indices_nonneg (ps : list Primitive) : 0 <= total_indices ps.
Proof. unfold total_indices. lia. Qed.

Lemma usize_len_app {A} (l1 l2 : list A) : usize_len (l1 ++ l2) = usize_len l1 + usize_len l2.
Proof. unfold usize_len. rewrite length_app. lia. Qed.

Lemma usize_len_map {A B} (f : A -> B) (l : list A) : usize_len (map f l) = usize_len l.
Proof. unfold usize_len. by rewrite length_map. Qed.

Lemma usize_len_nonneg {A} (l : list A) : 0 <= usize_len l.
Proof. unfold usize_len. lia. Qed.

Create Rewrite HintDb totals.
#[export] Hint Rewrite total_vertices_cons total_indices_cons total_vertices_nil
  total_indices_nil : totals.

Lemma offset_indices_map (bv : Z) (ix : list Index) :
  offset_indices bv ix =
  map (fun a => u32_wrap (bv + a)) (flat_map (fun i => let '(a, b, c) := idx i in [a; b; c]) ix).
Proof.
  induction ix as [|i ix IH]; [reflexivity|].
  simpl. destruct (idx i) as [[a b] c]. simpl. f_equal. f_equal. f_equal. exact IH.
Qed.

Lemma local_indices_length (prim : Primitive) :
  usize_len (local_indices prim) = 3 * usize_len (index prim).
Proof.
  unfold local_indices, usize_len. induction (index prim) as [|i ix IH]; [reflexivity|].
  simpl. destruct (idx i) as [[a b] c]. simpl. lia.
Qed.

Lemma offset_indices_local (bv : Z) (prim : Primitive) :
  offset_indices bv (index prim) = map (fun a => u32_wrap (bv + a)) (local_indices prim).
Proof. apply offset_indices_map. Qed.

(** ** The loop of [set_mesh] *)

Lemma set_mesh_step_spec (acc : SetMeshAcc) (prim : Primitive) :
  0 <= acc_base_vertex acc ->
  acc_base_vertex acc + usize_len (vertex prim) < 2 ^ 31 ->
  usize_len (flat_indices_u32 acc) + 3 * usize_len (index prim) < 2 ^ 32 ->
  let r := set_mesh_step acc prim in
  acc_base_vertex r = acc_base_vertex acc + usize_len (vertex prim) /\
  flat_indices_u32 r = flat_indices_u32 acc ++
    map (fun a => u32_wrap (acc_base_vertex acc + a)) (local_indices prim) /\
  exists p, prim_ranges r = prim_ranges acc ++ [p] /\
    first_index p = usize_len (flat_indices_u32 acc) /\
    index_count p = 3 * usize_len (index prim) /\
    base_vertex p = acc_base_vertex acc.
Proof.
  intros Hb Hv Hi. pose proof (usize_len_nonneg (vertex prim)).
  pose proof (usize_len_nonneg (flat_indices_u32 acc)).
  pose proof (usize_len_nonneg (index prim)).
  unfold set_mesh_step. destruct (aabb_of (vertex prim)) as [mn mx].
  rewrite <- offset_indices_local.
  destruct (index prim) as [|i ix] eqn:E; cbn zeta; simpl;
    (split; [rewrite (u32_wrap_id (usize_len (vertex prim))) by lia;
             apply u32_wrap_id; lia|]).
  - split; [rewrite app_nil_r; reflexivity|].
    eexists; split; [reflexivity|]. simpl.
    rewrite u32_wrap_id by lia. rewrite as_i32_id by lia. unfold usize_len; simpl. lia.
  - split; [reflexivity|].
    eexists; split; [reflexivity|]. simpl.
    rewrite !u32_wrap_id by lia. rewrite as_i32_id by lia. split; [reflexivity|]. lia.
Qed.

Lemma set_mesh_fold (prims : list Primitive) : forall acc : SetMeshAcc,
  0 <= acc_base_vertex acc ->
  acc_base_vertex acc + total_vertices prims < 2 ^ 31 ->
  usize_len (flat_indices_u32 acc) + total_indices prims < 2 ^ 32 ->
  let r := fold_left set_mesh_step prims acc in
  acc_base_vertex r = acc_base_vertex acc + total_vertices prims /\
  usize_len (flat_indices_u32 r) = usize_len (flat_indices_u32 acc) + total_indices prims /\
  length (prim_ranges r) = (length (prim_ranges acc) + length prims)%nat /\
  (forall j, (j < length (prim_ranges acc))%nat -> prim_ranges r !! j = prim_ranges acc !! j) /\
  (exists post, flat_indices_u32 r = flat_indices_u32 acc ++ post) /\
  (forall j prim, prims !! j = Some prim -> exists p,
     prim_ranges r !! (length (prim_ranges acc) + j)%nat = Some p /\
     first_index p = usize_len (flat_indices_u32 acc) + total_indices (take j prims) /\
     index_count p = 3 * usize_len (index prim) /\
     base_vertex p = acc_base_vertex acc + total_vertices (take j prims) /\
     exists pre post, flat_indices_u32 r =
       pre ++ map (fun a => u32_wrap (base_vertex p + a)) (local_indices prim) ++ post /\
       usize_len pre = first_index p).
Proof.
  induction prims as [|prim prims IH]; intros acc Hb Hv Hi; cbn zeta.
  - simpl. autorewrite with totals.
    split; [lia|]. split; [lia|]. split; [lia|]. split; [intros; reflexivity|].
    split; [exists []; by rewrite app_nil_r|].
    intros j prim Hj. rewrite lookup_nil in Hj. discriminate.
  - autorewrite with totals in Hv, Hi.
    pose proof (total_vertices_nonneg prims). pose proof (total_indices_nonneg prims).
    pose proof (usize_len_nonneg (vertex prim)). pose proof (usize_len_nonneg (index prim)).
    destruct (set_mesh_step_spec acc prim) as (Hb1 & Hf1 & p0 & Hr1 & Hp0f & Hp0c & Hp0b);
      [lia | lia | lia |].
    change (fold_left set_mesh_step (prim :: prims) acc)
      with (fold_left set_mesh_step prims (set_mesh_step acc prim)).
    destruct (IH (set_mesh_step acc prim)) as (IA & IB & IC & ID & IF & IE);
      [lia | lia | rewrite Hf1, usize_len_app, usize_len_map, local_indices_length; lia |].
    rewrite Hr1, length_app in IC. rewrite Hr1, length_app in ID.
    change (length [p0]) with 1%nat in IC, ID.
    rewrite Hf1 in IB, IF. rewrite usize_len_app, usize_len_map, local_indices_length in IB.
    autorewrite with totals. change (length (prim :: prims)) with (S (length prims)).
    split; [lia|]. split; [lia|]. split; [lia|].
    split.
    { intros j Hj. rewrite ID by lia.
      apply lookup_app_l. exact Hj. }
    split.
    { destruct IF as [post Hpost]. rewrite Hpost, <- app_assoc. eexists; reflexivity. }
    intros [|j] q Hq.
    + simpl in Hq. injection Hq as <-. exists p0.
      rewrite Nat.add_0_r.
      rewrite ID by lia. rewrite lookup_app_r, Nat.sub_diag by lia.
      split; [reflexivity|]. simpl take. autorewrite with totals.
      split; [lia|]. split; [lia|]. split; [lia|].
      destruct IF as [post Hpost].
      exists (flat_indices_u32 acc), post. rewrite Hpost, Hp0b, <- app_assoc.
      split; [reflexivity | lia].
    + simpl in Hq. destruct (IE j q Hq) as (p & Hp & Hpf & Hpc & Hpb & Hpre).
      exists p. rewrite Hr1, length_app in Hp. change (length [p0]) with 1%nat in Hp. replace (length (prim_ranges acc) + S j)%nat
        with (length (prim_ranges acc) + 1 + j)%nat by lia.
      split; [exact Hp|]. simpl take. autorewrite with totals.
      split; [rewrite Hpf, Hf1, usize_len_app, usize_len_map, local_indices_length; lia|].
      split; [exact Hpc|]. split; [rewrite Hpb, Hb1; lia|]. exact Hpre.
Qed.

Lemma buffer_created_last (log : list Effect) (b : BufferId) (l : string) (p : Payload) :
  buffer_created (log ++ [ECreateBuffer b l p]) b = Some p.
Proof. unfold buffer_created. rewrite fold_left_app. simpl. by rewrite Nat.eqb_refl. Qed.

(** What [set_mesh] builds, as a function of its loop. *)
Lemma set_mesh_result (prims : list Primitive) (nm : string) (st st' : AssetManager) (id : nat) :
  set_mesh prims nm st = Done id st' ->
  let acc := set_mesh_loop prims in
  id = length (meshes st) /\
  meshes_by_name st' = <[nm := id]> (meshes_by_name st) /\
  exists mesh, meshes st' = meshes st ++ [mesh] /\
    primitives mesh = prim_ranges acc /\
    vertex_count mesh = acc_base_vertex acc /\
    mesh_index_count mesh = u32_wrap (usize_len (flat_indices_u32 acc)) /\
    (flat_indices_u32 acc = [] -> index_buf mesh = None /\ index_format mesh = None) /\
    (flat_indices_u32 acc <> [] -> exists ib,
       index_buf mesh = Some ib /\
       index_format mesh = Some (if can_u16 (acc_base_vertex acc) (flat_indices_u32 acc)
                                 then Uint16 else Uint32) /\
       buffer_created (gpu_log st') ib =
         Some (if can_u16 (acc_base_vertex acc) (flat_indices_u32 acc)
               then PIndexU16 (map as_u16 (flat_indices_u32 acc))
               else PIndexU32 (flat_indices_u32 acc))).
Proof.
  intros H. cbn zeta. unfold set_mesh in H. set (acc := set_mesh_loop prims) in *.
  clearbody acc.
  destruct (flat_indices_u32 acc) as [|i0 rest] eqn:Ef.
  - cbv [mbind mret create_buffer_init device_create meshes_insert mmodify] in H.
    injection H as <- <-. simpl.
    split; [reflexivity|]. split; [reflexivity|].
    eexists. split; [reflexivity|]. simpl.
    split; [reflexivity|]. split; [reflexivity|]. split; [reflexivity|].
    split; [intros _; split; reflexivity | intros Hne; congruence].
  - destruct (can_u16 (acc_base_vertex acc) (i0 :: rest)) eqn:Ec;
      cbv [mbind mret create_buffer_init device_create meshes_insert mmodify] in H;
      injection H as <- <-; simpl;
      (split; [reflexivity|]); (split; [reflexivity|]);
      eexists; (split; [reflexivity|]); simpl;
      (split; [reflexivity|]); (split; [reflexivity|]); (split; [reflexivity|]);
      (split; [intros; discriminate|]); intros _; eexists;
      (split; [reflexivity|]); (split; [reflexivity|]);
      rewrite ?app_assoc; apply buffer_created_last.
Qed.

Lemma set_mesh_loop_spec (prims : list Primitive) :
  total_vertices prims < 2 ^ 31 -> total_indices prims < 2 ^ 32 ->
  let acc := set_mesh_loop prims in
  acc_base_vertex acc = total_vertices prims /\
  usize_len (flat_indices_u32 acc) = total_indices prims /\
  length (prim_ranges acc) = length prims /\
  (forall j prim, prims !! j = Some prim -> exists p,
     prim_ranges acc !! j = Some p /\
     first_index p = total_indices (take j prims) /\
     index_count p = 3 * usize_len (index prim) /\
     base_vertex p = total_vertices (take j prims) /\
     exists pre post, flat_indices_u32 acc =
       pre ++ map (fun a => u32_wrap (base_vertex p + a)) (local_indices prim) ++ post /\
       usize_len pre = first_index p).
Proof.
  intros Hv Hi. cbn zeta. unfold set_mesh_loop.
  assert (E0 : acc_base_vertex set_mesh_init = 0) by reflexivity.
  assert (E1 : usize_len (flat_indices_u32 set_mesh_init) = 0) by reflexivity.
  assert (E2 : length (prim_ranges set_mesh_init) = 0%nat) by reflexivity.
  destruct (set_mesh_fold prims set_mesh_init) as (A & B & C & _ & _ & E);
    [lia | lia | lia |].
  split; [lia|]. split; [lia|]. split; [lia|].
  intros j prim Hj. destruct (E j prim Hj) as (p & Hp & Hf & Hc & Hb & Hpre).
  exists p. rewrite E2 in Hp. split; [exact Hp|]. split; [lia|].
  split; [exact Hc|]. split; [lia|]. exact Hpre.
Qed.

Lemma sum_take_lt (f : Primitive -> nat) (l : list Primitive) : forall i j x,
  (i < j)%nat -> l !! i = Some x ->
  (sum_list (map f (take i l)) + f x <= sum_list (map f (take j l)))%nat.
Proof.
  induction l as [|y l IH]; intros i j x Hij Hx; [rewrite lookup_nil in Hx; discriminate|].
  destruct j as [|j]; [lia|].
  destruct i as [|i].
  - simpl in Hx. injection Hx as <-. simpl. lia.
  - simpl in Hx. simpl. specialize (IH i j x ltac:(lia) Hx). lia.
Qed.

Lemma total_vertices_take_lt (l : list Primitive) (i j : nat) (x : Primitive) :
  (i < j)%nat -> l !! i = Some x ->
  total_vertices (take i l) + usize_len (vertex x) <= total_vertices (take j l).
Proof.
  intros Hij Hx. unfold total_vertices, usize_len.
  pose proof (sum_take_lt (fun p => length (vertex p)) l i j x Hij Hx). lia.
Qed.

Lemma total_indices_take_lt (l : list Primitive) (i j : nat) (x : Primitive) :
  (i < j)%nat -> l !! i = Some x ->
  total_indices (take i l) + 3 * usize_len (index x) <= total_indices (take j l).
Proof.
  intros Hij Hx. unfold total_indices, usize_len.
  pose proof (sum_take_lt (fun p => 3 * length (index p))%nat l i j x Hij Hx) as H.
  cbv beta in H. lia.
Qed.

(** The mesh [set_mesh] stores under the id it returns. *)
Lemma set_mesh_lookup (prims : list Primitive) (nm : string) (st st' : AssetManager) (id : nat) :
  set_mesh prims nm st = Done id st' ->
  exists mesh, meshes st' !! id = Some mesh /\
    primitives mesh = prim_ranges (set_mesh_loop prims) /\
    vertex_count mesh = acc_base_vertex (set_mesh_loop prims) /\
    mesh_index_count mesh = u32_wrap (usize_len (flat_indices_u32 (set_mesh_loop prims))) /\
    (flat_indices_u32 (set_mesh_loop prims) <> [] -> exists ib,
       index_buf mesh = Some ib /\
       index_format mesh = Some (if can_u16 (acc_base_vertex (set_mesh_loop prims))
                                      (flat_indices_u32 (set_mesh_loop prims))
                                 then Uint16 else Uint32) /\
       buffer_created (gpu_log st') ib =
         Some (if can_u16 (acc_base_vertex (set_mesh_loop prims))
                    (flat_indices_u32 (set_mesh_loop prims))
               then PIndexU16 (map as_u16 (flat_indices_u32 (set_mesh_loop prims)))
               else PIndexU32 (flat_indices_u32 (set_mesh_loop prims)))).
Proof.
  intros H. destruct (set_mesh_result prims nm st st' id H)
    as (-> & _ & mesh & Hm & Hp & Hv & Hc & _ & Hib).
  exists mesh. rewrite Hm. split; [apply list_lookup_middle; reflexivity|].
  auto.
Qed.

(** ** C3: index width *)

(** C3. For every mesh built by [set_mesh] whose flattened index list is
    non-empty, the 16-bit index format is chosen if and only if the total
    vertex count (the sum of the primitives' vertex counts, equal to the
    recorded [vertex_count]) is at most 65536 and every value of the
    flattened, base-offset index array is below 65536; otherwise the 32-bit
    format is chosen. The totals are assumed to fit the [u32]/[i32] fields
    the code keeps them in. *)
Theorem set_mesh_index_width (prims : list Primitive) (nm : string)
    (st st' : AssetManager) (id : nat) :
  total_vertices prims < 2 ^ 31 -> total_indices prims < 2 ^ 32 ->
  flat_indices_u32 (set_mesh_loop prims) <> [] ->
  set_mesh prims nm st = Done id st' ->
  exists mesh, meshes st' !! id = Some mesh /\
    vertex_count mesh = total_vertices prims /\
    (index_format mesh = Some Uint16 <->
       total_vertices prims <= 65536 /\
       Forall (fun i => i < 65536) (flat_indices_u32 (set_mesh_loop prims))) /\
    (index_format mesh = Some Uint32 <->
       ~ (total_vertices prims <= 65536 /\
          Forall (fun i => i < 65536) (flat_indices_u32 (set_mesh_loop prims)))).
Proof.
  intros Hv Hi Hne H.
  destruct (set_mesh_loop_spec prims Hv Hi) as (Hbv & _).
  destruct (set_mesh_lookup prims nm st st' id H) as (mesh & Hm & _ & Hvc & _ & Hib).
  destruct (Hib Hne) as (ib & _ & Hfmt & _).
  exists mesh. split; [exact Hm|]. split; [lia|].
  assert (Hc : can_u16 (acc_base_vertex (set_mesh_loop prims))
                 (flat_indices_u32 (set_mesh_loop prims)) = true <->
               total_vertices prims <= 65536 /\
               Forall (fun i => i < 65536) (flat_indices_u32 (set_mesh_loop prims))).
  { unfold can_u16. rewrite andb_true_iff, Z.leb_le, forallb_forall, List.Forall_forall, Hbv.
    split; intros [H1 H2]; split; try exact H1; intros x Hx; specialize (H2 x Hx).
    - by apply Z.ltb_lt. - by apply Z.ltb_lt. }
  rewrite Hfmt. destruct (can_u16 _ _).
  - pose proof (proj1 Hc eq_refl) as HP.
    split; split; intros Hx; first [exact HP | reflexivity | discriminate | contradiction].
  - assert (HQ : ~ (total_vertices prims <= 65536 /\
                    Forall (fun i => i < 65536) (flat_indices_u32 (set_mesh_loop prims))))
      by (intros Hp; apply Hc in Hp; discriminate).
    split; split; intros Hx; first [exact HQ | reflexivity | discriminate | contradiction].
Qed.

(** C3 at the spec's "Cube": two triangle primitives (4 and 3 vertices). *)
Lemma set_mesh_index_width_witness :
  exists mesh, meshes (match set_mesh cube_primitives "scene.gltf#Cube" scene_manager with
                       | Done _ s => s | Panic _ s | Exit _ s => s end) !! 0%nat = Some mesh /\
    index_format mesh = Some Uint16.
Proof.
  destruct (set_mesh_index_width cube_primitives "scene.gltf#Cube" scene_manager
    (match set_mesh cube_primitives "scene.gltf#Cube" scene_manager with
     | Done _ s => s | Panic _ s | Exit _ s => s end) 0%nat)
    as (mesh & Hm & _ & H16 & _).
  - vm_compute. reflexivity.
  - vm_compute. reflexivity.
  - vm_compute. discriminate.
  - vm_compute. reflexivity.
  - exists mesh. split; [exact Hm|]. apply H16. split.
    + vm_compute. discriminate.
    + repeat constructor; vm_compute; reflexivity.
Defined.

(** ** Frame properties of the lookups *)

Lemma pres_bind {X A B} (f : AssetManager -> X) (m : AM A) (k : A -> AM B) :
  Preserves f m -> (forall a, Preserves f (k a)) -> Preserves f (mbind m k).
Proof.
  intros Hm Hk s b s'' H. unfold mbind in H.
  destruct (m s) as [a s'|msg s'|c s'] eqn:E; try discriminate.
  rewrite (Hk a s' b s'' H). exact (Hm s a s' E).
Qed.

Lemma pres_ret {X A} (f : AssetManager -> X) (a : A) : Preserves f (mret a).
Proof. intros s b s' H. injection H as _ <-. reflexivity. Qed.

Lemma pres_get {X} (f : AssetManager -> X) : Preserves f mget.
Proof. intros s b s' H. injection H as _ <-. reflexivity. Qed.

Lemma pres_panic {X A} (f : AssetManager -> X) msg : Preserves f (@mpanic _ A msg).
Proof. intros s b s' H. discriminate. Qed.

Lemma pres_expect {X A} (f : AssetManager -> X) (o : option A) msg :
  Preserves f (expect o msg).
Proof. destruct o; [apply pres_ret | apply pres_panic]. Qed.

Lemma pres_modify {X} (f : AssetManager -> X) (g : AssetManager -> AssetManager) :
  (forall s, f (g s) = f s) -> Preserves f (mmodify g).
Proof. intros Hg s b s' H. injection H as _ <-. apply Hg. Qed.

Lemma pres_device_create {X} (f : AssetManager -> X) mk :
  (forall n l s, f (set_gpu n l s) = f s) -> Preserves f (device_create mk).
Proof. intros Hg s b s' H. injection H as _ <-. apply Hg. Qed.

Lemma pres_gpu_call {X} (f : AssetManager -> X) e :
  (forall n l s, f (set_gpu n l s) = f s) -> Preserves f (gpu_call e).
Proof. intros Hg s b s' H. injection H as _ <-. apply Hg. Qed.

Ltac pres_with t :=
  repeat (first
    [ t
    | apply pres_bind; [| intros ?; cbv beta]
    | apply pres_ret | apply pres_get | apply pres_panic | apply pres_expect
    | apply pres_modify; intros; cbv beta; solve [auto]
    | apply pres_device_create; solve [auto]
    | apply pres_gpu_call; solve [auto]
    | progress unfold importer_call, create_buffer_init, write_buffer, update_mesh
    | match goal with |- Preserves _ (match ?x with _ => _ end) => destruct x end ]).

Ltac pres := pres_with fail.

Section FieldFrame.
Context {X : Type} (f : AssetManager -> X).
Hypothesis f_gpu : forall n l s, f (set_gpu n l s) = f s.
Hypothesis f_samplers : forall l s, f (set_samplers l s) = f s.
Hypothesis f_sampler_by_name : forall m s, f (set_sampler_by_name m s) = f s.

Lemma get_sampler_pres (key : string) : Preserves f (get_sampler key).
Proof. unfold get_sampler. pres. Qed.

Hypothesis f_textures : forall l s, f (set_textures l s) = f s.
Hypothesis f_tex_by_key : forall m s, f (set_tex_by_key m s) = f s.

Lemma get_texture_pres (key : string) (fmt : TextureFormat) :
  Preserves f (get_texture key fmt).
Proof. unfold get_texture. pres. all: apply get_sampler_pres. Qed.

Hypothesis f_mat_free : forall l s, f (set_mat_free l s) = f s.
Hypothesis f_tex_by_mat : forall m s, f (set_tex_by_mat m s) = f s.
Hypothesis f_mat_by_name : forall m s, f (set_mat_by_name m s) = f s.

Lemma map_texture_unwrap_pres (path : string) (o : option nat) (fmt : TextureFormat) :
  Preserves f (map_texture_unwrap path o fmt).
Proof. unfold map_texture_unwrap. destruct o; [apply get_texture_pres | apply pres_panic]. Qed.

Lemma get_material_pres (nm : string) : Preserves f (get_material nm).
Proof. unfold get_material. pres. all: apply map_texture_unwrap_pres. Qed.

Hypothesis f_meshes : forall l s, f (set_meshes l s) = f s.

Lemma set_mat_pres (mesh_id i : nat) (m : MaterialId) : Preserves f (set_mat mesh_id i m).
Proof. unfold set_mat. pres. Qed.

Lemma assign_materials_pres (id : nat) (path : string) (prims : list Primitive) :
  forall i, Preserves f (assign_materials id path prims i).
Proof.
  induction prims as [|prim prims IH]; intros i; simpl;
    pres_with ltac:(first [apply get_material_pres | apply set_mat_pres | apply IH]).
Qed.
End FieldFrame.

Lemma mbind_Done {S A B} (m : M S A) (k : A -> M S B) s b s'' :
  mbind m k s = Done b s'' -> exists a s', m s = Done a s' /\ k a s' = Done b s''.
Proof. unfold mbind. destruct (m s); intros H; [eauto | discriminate | discriminate]. Qed.

Ltac inv_am H :=
  repeat match type of H with
  | mbind _ _ _ = Done _ _ =>
      let E := fresh "E" in
      apply mbind_Done in H; destruct H as (? & ? & E & H); cbv beta in H;
      try (injection E as <- <-)
  | mret _ _ = Done _ _ => injection H as <- <-
  | mmodify _ _ = Done _ _ => injection H as <- <-
  | mpanic _ _ = Done _ _ => discriminate H
  end.

Ltac inv_expect :=
  repeat match goal with
  | E : expect ?o _ _ = Done _ _ |- _ =>
      unfold expect in E; destruct o eqn:?; [injection E as <- <- | discriminate E]
  end.

Ltac inv_all H :=
  repeat progress (inv_am H; inv_expect;
    try (match type of H with
         | (match ?p with _ => _ end) _ = Done _ _ => destruct p eqn:?; cbv beta iota in H
         end)).

Lemma get_texture_post (key : string) (fmt : TextureFormat) (s s' : AssetManager) h :
  get_texture key fmt s = Done h s' -> tex_by_key s' !! (key, fmt) = Some h.
Proof.
  intros H. unfold get_texture in H. inv_am H.
  destruct (tex_by_key s !! (key, fmt)) as [i|] eqn:Ec; inv_am H; [exact Ec|].
  destruct x as [path sel]. cbv beta iota in H. inv_am H.
  destruct (tex_sampler _); inv_am H; unfold set_tex_by_key; simpl; apply lookup_insert_eq.
Qed.

(** Rewrites the scrutinee of the head [match] of the goal with [Hc]. *)
Ltac rw_scrutinee Hc :=
  match type of Hc with
  | _ = ?r => match goal with
              | |- (match ?x with _ => _ end) _ = _ => replace x with r by (symmetry; exact Hc)
              end
  end.

Lemma get_sampler_post (key : string) (s s' : AssetManager) h :
  get_sampler key s = Done h s' -> sampler_by_name s' !! key = Some h /\ is_Some (split_path key).
Proof.
  intros H. unfold get_sampler in H. inv_all H.
  all: split; [| by eexists].
  - assumption.
  - unfold set_sampler_by_name; simpl. apply lookup_insert_eq.
Qed.

Lemma get_sampler_hit (key : string) (s : AssetManager) h :
  is_Some (split_path key) -> sampler_by_name s !! key = Some h -> get_sampler key s = Done h s.
Proof.
  intros [[path sel] Hp] Hc. cbv [get_sampler mbind expect mget mret]. rewrite Hp.
  cbv beta iota. rw_scrutinee Hc.
  reflexivity.
Qed.

Lemma get_texture_hit (key : string) (fmt : TextureFormat) (s : AssetManager) h :
  tex_by_key s !! (key, fmt) = Some h -> get_texture key fmt s = Done h s.
Proof. intros Hc. cbv [get_texture mbind mget mret]. rw_scrutinee Hc. reflexivity. Qed.

Lemma get_material_post (nm : string) (s s' : AssetManager) h :
  get_material nm s = Done h s' -> mat_by_name s' !! nm = Some h.
Proof.
  intros H. unfold get_material in H. inv_all H.
  - assumption.
  - unfold set_mat_by_name; simpl. apply lookup_insert_eq.
Qed.

Lemma get_material_hit (nm : string) (s : AssetManager) h :
  mat_by_name s !! nm = Some h -> get_material nm s = Done h s.
Proof. intros Hc. cbv [get_material mbind mget mret]. rw_scrutinee Hc. reflexivity. Qed.

Lemma get_mesh_post (nm : string) (s s' : AssetManager) h :
  get_mesh nm s = Done h s' -> meshes_by_name s' !! nm = Some h.
Proof.
  intros H. unfold get_mesh in H. inv_all H.
  - assumption.
  - match goal with
    | E1 : set_mesh _ _ _ = Done _ _, E2 : assign_materials _ _ _ _ _ = Done _ _ |- _ =>
        destruct (set_mesh_result _ _ _ _ _ E1) as (_ & Hn & _);
        rewrite (assign_materials_pres meshes_by_name
                   ltac:(reflexivity) ltac:(reflexivity) ltac:(reflexivity) ltac:(reflexivity)
                   ltac:(reflexivity) ltac:(reflexivity) ltac:(reflexivity) ltac:(reflexivity)
                   ltac:(reflexivity) _ _ _ _ _ _ _ E2)
    end.
    rewrite Hn. apply lookup_insert_eq.
Qed.


Lemma get_mesh_hit (nm : string) (s : AssetManager) h :
  meshes_by_name s !! nm = Some h -> get_mesh nm s = Done h s.
Proof. intros Hc. cbv [get_mesh mbind mget mret]. rw_scrutinee Hc. reflexivity. Qed.

(** ** C4: cache idempotence *)

(** C4. For each of the four lookups (mesh by name, material by name,
    texture by key and format, sampler by key): once a lookup with key [k]
    has returned handle [h], calling it again with [k] (right away, or in any
    later state whose cache still holds the entry, as every other operation
    only inserts into these caches) returns [h] and leaves the state
    unchanged: no import is logged and no GPU object is created. *)
Theorem lookup_cache_idempotent :
  (forall nm s h s1, get_mesh nm s = Done h s1 ->
     get_mesh nm s1 = Done h s1 /\
     forall s2, meshes_by_name s2 !! nm = meshes_by_name s1 !! nm -> get_mesh nm s2 = Done h s2) /\
  (forall nm s h s1, get_material nm s = Done h s1 ->
     get_material nm s1 = Done h s1 /\
     forall s2, mat_by_name s2 !! nm = mat_by_name s1 !! nm -> get_material nm s2 = Done h s2) /\
  (forall key fmt s h s1, get_texture key fmt s = Done h s1 ->
     get_texture key fmt s1 = Done h s1 /\
     forall s2, tex_by_key s2 !! (key, fmt) = tex_by_key s1 !! (key, fmt) ->
       get_texture key fmt s2 = Done h s2) /\
  (forall key s h s1, get_sampler key s = Done h s1 ->
     get_sampler key s1 = Done h s1 /\
     forall s2, sampler_by_name s2 !! key = sampler_by_name s1 !! key ->
       get_sampler key s2 = Done h s2).
Proof.
  split; [|split; [|split]].
  - intros nm s h s1 H. pose proof (get_mesh_post _ _ _ _ H) as Hp.
    split; [by apply get_mesh_hit | intros s2 E; apply get_mesh_hit; congruence].
  - intros nm s h s1 H. pose proof (get_material_post _ _ _ _ H) as Hp.
    split; [by apply get_material_hit | intros s2 E; apply get_material_hit; congruence].
  - intros key fmt s h s1 H. pose proof (get_texture_post _ _ _ _ _ H) as Hp.
    split; [by apply get_texture_hit | intros s2 E; apply get_texture_hit; congruence].
  - intros key s h s1 H. destruct (get_sampler_post _ _ _ _ H) as [Hp Hk].
    split; [by apply get_sampler_hit | intros s2 E; apply get_sampler_hit; [exact Hk | congruence]].
Qed.

(** C4 on [scene.gltf]: the mesh [Cube], material 0, texture 2 and sampler 0,
    each looked up twice. *)
Lemma lookup_cache_idempotent_witness :
  let s_mesh := outcome_state (get_mesh "scene.gltf#Cube" scene_manager) in
  let s_mat := outcome_state (get_material "scene.gltf#0" scene_manager) in
  let s_tex := outcome_state (get_texture "scene.gltf#2" Rgba8Unorm scene_manager) in
  let s_smp := outcome_state (get_sampler "scene.gltf#0" scene_manager) in
  get_mesh "scene.gltf#Cube" s_mesh = Done 0%nat s_mesh /\
  get_material "scene.gltf#0" s_mat = Done 1%nat s_mat /\
  get_texture "scene.gltf#2" Rgba8Unorm s_tex = Done 0%nat s_tex /\
  get_sampler "scene.gltf#0" s_smp = Done 1%nat s_smp.
Proof.
  destruct lookup_cache_idempotent as (Hm & Hmat & Htex & Hsmp). cbv zeta.
  split; [|split; [|split]].
  - apply (Hm _ scene_manager). vm_compute. reflexivity.
  - apply (Hmat _ scene_manager). vm_compute. reflexivity.
  - apply (Htex _ _ scene_manager). vm_compute. reflexivity.
  - apply (Hsmp _ scene_manager). vm_compute. reflexivity.
Defined.

(** ** C5: primitive ranges *)

(** C5. For a primitive list whose totals fit the [u32]/[i32] fields, the
    mesh [set_mesh] stores records as total vertex count the sum of the
    primitives' vertex counts and as total index count the sum of their index
    counts (3 per triangle); it has one range per primitive, range [j] having
    [index_count] 3 times the primitive's triangle count, and [first_index]
    and [base_vertex] the index and vertex totals of the primitives before
    it; ranges are monotone in [first_index] and [base_vertex], and the index
    range and the vertex range of an earlier primitive end before those of a
    later one start (no overlap). *)
Theorem set_mesh_ranges (prims : list Primitive) (nm : string) (st st' : AssetManager)
    (id : nat) :
  total_vertices prims < 2 ^ 31 -> total_indices prims < 2 ^ 32 ->
  set_mesh prims nm st = Done id st' ->
  exists mesh, meshes st' !! id = Some mesh /\
    vertex_count mesh = total_vertices prims /\
    mesh_index_count mesh = total_indices prims /\
    length (primitives mesh) = length prims /\
    (forall j prim p, prims !! j = Some prim -> primitives mesh !! j = Some p ->
       index_count p = 3 * usize_len (index prim) /\
       first_index p = total_indices (take j prims) /\
       base_vertex p = total_vertices (take j prims)) /\
    (forall i j xi pi pj, (i < j)%nat -> prims !! i = Some xi ->
       primitives mesh !! i = Some pi -> primitives mesh !! j = Some pj ->
       first_index pi <= first_index pj /\ base_vertex pi <= base_vertex pj /\
       first_index pi + index_count pi <= first_index pj /\
       base_vertex pi + usize_len (vertex xi) <= base_vertex pj).
Proof.
  intros Hv Hi H.
  destruct (set_mesh_loop_spec prims Hv Hi) as (Hbv & Hlen & Hl & Hr).
  destruct (set_mesh_lookup prims nm st st' id H) as (mesh & Hm & Hp & Hvc & Hic & _).
  pose proof (total_indices_nonneg prims).
  exists mesh. rewrite Hp. split; [exact Hm|]. split; [lia|].
  split; [rewrite Hic, Hlen; apply u32_wrap_id; lia|]. split; [exact Hl|].
  assert (Hget : forall j prim p, prims !! j = Some prim ->
            prim_ranges (set_mesh_loop prims) !! j = Some p ->
            index_count p = 3 * usize_len (index prim) /\
            first_index p = total_indices (take j prims) /\
            base_vertex p = total_vertices (take j prims)).
  { intros j prim p Hj Hpj. destruct (Hr j prim Hj) as (p' & Hp' & Hf & Hc & Hb & _).
    rewrite Hp' in Hpj. injection Hpj as <-. auto. }
  split; [exact Hget|].
  intros i j xi pi pj Hij Hxi Hpi Hpj.
  destruct (lookup_lt_is_Some_2 prims j) as [xj Hxj].
  { apply lookup_lt_Some in Hpj. lia. }
  destruct (Hget i xi pi Hxi Hpi) as (Ci & Fi & Bi).
  destruct (Hget j xj pj Hxj Hpj) as (Cj & Fj & Bj).
  pose proof (total_vertices_take_lt prims i j xi Hij Hxi).
  pose proof (total_indices_take_lt prims i j xi Hij Hxi).
  pose proof (usize_len_nonneg (vertex xi)). pose proof (usize_len_nonneg (index xi)).
  lia.
Qed.

(** C5 at the two primitives of [cube_primitives]: 7 vertices, 9 indices. *)
Lemma set_mesh_ranges_witness :
  exists mesh, meshes (outcome_state (set_mesh cube_primitives "scene.gltf#Cube" scene_manager))
                 !! 0%nat = Some mesh /\
    vertex_count mesh = 7 /\ mesh_index_count mesh = 9.
Proof.
  destruct (set_mesh_ranges cube_primitives "scene.gltf#Cube" scene_manager
    (outcome_state (set_mesh cube_primitives "scene.gltf#Cube" scene_manager)) 0%nat)
    as (mesh & Hm & Hv & Hi & _).
  - vm_compute. reflexivity.
  - vm_compute. reflexivity.
  - vm_compute. reflexivity.
  - exists mesh. split; [exact Hm|]. rewrite Hv, Hi. split; vm_compute; reflexivity.
Defined.

(** ** Index-buffer slices *)

Lemma fetched_slice (pre M post : list Z) (bv : Z) inst :
  fetched_vertices (pre ++ M ++ post)
    (EDrawIndexed (usize_len pre) (usize_len pre + usize_len M) bv inst) =
  map (fun x => x + bv) M.
Proof.
  unfold fetched_vertices.
  replace (usize_len pre + usize_len M - usize_len pre) with (usize_len M) by lia.
  revert pre. induction M as [|m M IH]; intros pre; [reflexivity|].
  assert (E : usize_len (m :: M) = Z.succ (usize_len M)) by (unfold usize_len; simpl; lia).
  rewrite E, seqZ_cons by (pose proof (usize_len_nonneg M); lia).
  rewrite Z.pred_succ. cbn [map]. f_equal.
  - unfold usize_len. rewrite Nat2Z.id, app_nth2, Nat.sub_diag by lia. reflexivity.
  - specialize (IH (pre ++ [m])). rewrite <- app_assoc in IH. simpl in IH.
    rewrite usize_len_app in IH. unfold usize_len at 2 in IH. simpl in IH.
    replace (usize_len pre + 1) with (Z.succ (usize_len pre)) in IH by lia.
    exact IH.
Qed.

Lemma total_vertices_take_le (l : list Primitive) (j : nat) :
  total_vertices (take j l) <= total_vertices l.
Proof.
  unfold total_vertices. revert j. induction l as [|x l IH]; intros [|j]; simpl; try lia.
  specialize (IH j). lia.
Qed.

Lemma slice_take_drop (pre M post : list Z) :
  take (length M) (drop (length pre) (pre ++ M ++ post)) = M.
Proof. rewrite drop_app_length, take_app_length. reflexivity. Qed.

(** ** C10: the base vertex is applied twice *)

(** C10. For a primitive [prim] (range [p], with triangles) of a mesh built
    by [set_mesh] (totals within the [u32]/[i32] fields, local indices below
    [2^31]), the slice of the index buffer that [p] covers holds the local
    indices already offset by [p.base_vertex], and the draw call issued for
    [p] by [render] passes [p.base_vertex] again, so the vertex fetched for
    each local index [a] is [a + 2 * p.base_vertex], [p.base_vertex] being
    the number of vertices of the primitives before [prim]. *)
Theorem set_mesh_draw_effective_vertex (prims : list Primitive) (nm : string)
    (st st' : AssetManager) (id j : nat) (prim : Primitive) :
  total_vertices prims < 2 ^ 31 -> total_indices prims < 2 ^ 32 -> indices_small prims ->
  set_mesh prims nm st = Done id st' -> prims !! j = Some prim -> index prim <> [] ->
  exists mesh p ib pl,
    meshes st' !! id = Some mesh /\ primitives mesh !! j = Some p /\
    index_buf mesh = Some ib /\ buffer_created (gpu_log st') ib = Some pl /\
    base_vertex p = total_vertices (take j prims) /\
    take (Z.to_nat (index_count p)) (drop (Z.to_nat (first_index p)) (index_values pl)) =
      map (fun a => a + base_vertex p) (local_indices prim) /\
    fetched_vertices (index_values pl) (draw_call_of p) =
      map (fun a => a + 2 * base_vertex p) (local_indices prim).
Proof.
  intros Hv Hi Hsmall H Hj Hne.
  destruct (set_mesh_loop_spec prims Hv Hi) as (Hbv & Hlen & Hl & Hr).
  destruct (Hr j prim Hj) as (p & Hp & Hf & Hc & Hb & pre & post & Hflat & Hpre).
  destruct (set_mesh_lookup prims nm st st' id H) as (mesh & Hm & Hpm & _ & _ & Hib).
  set (L := local_indices prim) in *.
  assert (HL : Forall (fun a => 0 <= a < 2 ^ 31) L) by exact (Forall_lookup_1 _ _ _ _ Hsmall Hj).
  assert (HlenL : usize_len L = 3 * usize_len (index prim)) by apply local_indices_length.
  assert (HLne : L <> []).
  { intros E. apply Hne. destruct (index prim); [reflexivity|].
    rewrite E in HlenL. unfold usize_len in HlenL. simpl in HlenL. lia. }
  assert (Hfne : flat_indices_u32 (set_mesh_loop prims) <> []).
  { rewrite Hflat. destruct L; [congruence|]. destruct pre; discriminate. }
  destruct (Hib Hfne) as (ib & Hibm & _ & Hbc).
  pose proof (total_vertices_take_le prims j).
  pose proof (total_vertices_nonneg (take j prims)).
  set (bv := base_vertex p) in *.
  assert (Hmid : map (fun a => u32_wrap (bv + a)) L = map (fun a => a + bv) L).
  { apply List.map_ext_in. intros a Ha. rewrite List.Forall_forall in HL.
    specialize (HL a Ha). rewrite u32_wrap_id by lia. lia. }
  rewrite Hmid in Hflat.
  assert (Hlens : usize_len pre + usize_len L <= total_indices prims).
  { rewrite <- Hlen, Hflat, !usize_len_app, usize_len_map.
    pose proof (usize_len_nonneg post). lia. }
  (* the index values of the buffer: the u16 cast changes none of them *)
  assert (Hvals : exists pl pre',
            buffer_created (gpu_log st') ib = Some pl /\
            index_values pl = pre' ++ map (fun a => a + bv) L ++ map as_u16 post /\
            usize_len pre' = usize_len pre \/
            buffer_created (gpu_log st') ib = Some pl /\
            index_values pl = pre' ++ map (fun a => a + bv) L ++ post /\
            usize_len pre' = usize_len pre).
  { destruct (can_u16 _ _) eqn:Ecan.
    - unfold can_u16 in Ecan. apply andb_true_iff in Ecan as [_ Ecan].
      rewrite forallb_forall in Ecan. rewrite Hflat in Ecan, Hbc.
      exists (PIndexU16 (map as_u16 (pre ++ map (fun a => a + bv) L ++ post))), (map as_u16 pre).
      left. split; [exact Hbc|]. simpl. rewrite !map_app, map_map.
      split; [|apply usize_len_map]. f_equal. f_equal. apply List.map_ext_in. intros a Ha.
      assert (Hin : In (a + bv) (pre ++ map (fun a => a + bv) L ++ post)).
      { apply in_or_app. right. apply in_or_app. left. exact (in_map (fun a => a + bv) L a Ha). }
      specialize (Ecan _ Hin). apply Z.ltb_lt in Ecan.
      rewrite List.Forall_forall in HL. specialize (HL a Ha).
      apply as_u16_id. lia.
    - rewrite Hflat in Hbc. eexists _, pre. right. split; [exact Hbc|]. split; reflexivity. }
  assert (Hslice : forall pl pre' post', index_values pl = pre' ++ map (fun a => a + bv) L ++ post' ->
            usize_len pre' = usize_len pre ->
            take (Z.to_nat (index_count p)) (drop (Z.to_nat (first_index p)) (index_values pl)) =
              map (fun a => a + bv) L /\
            fetched_vertices (index_values pl) (draw_call_of p) =
              map (fun a => a + 2 * bv) L).
  { intros pl pre' post' Hpl Hpre'. rewrite Hpl. split.
    - rewrite Hc, <- HlenL, <- Hpre, <- Hpre'. unfold usize_len. rewrite !Nat2Z.id.
      rewrite <- (length_map (fun a => a + bv) L). apply slice_take_drop.
    - unfold draw_call_of. rewrite u32_wrap_id.
      2: { pose proof (usize_len_nonneg pre). pose proof (usize_len_nonneg L). lia. }
      rewrite Hc, <- HlenL, <- Hpre, <- Hpre', <- (usize_len_map (fun a => a + bv) L).
      fold bv. rewrite fetched_slice, map_map. apply List.map_ext. intros a. lia. }
  destruct Hvals as (pl & pre' & [(Hb1 & Hv1 & Hl1) | (Hb1 & Hv1 & Hl1)]);
    destruct (Hslice pl pre' _ Hv1 Hl1) as [S1 S2];
    exists mesh, p, ib, pl; rewrite Hpm; repeat split; auto; lia.
Qed.

(** C10 at the second primitive of [cube_primitives] (4 vertices before it):
    its local indices 0, 1, 2 fetch vertices 8, 9, 10. *)
Lemma set_mesh_draw_effective_vertex_witness :
  let st' := outcome_state (set_mesh cube_primitives "scene.gltf#Cube" scene_manager) in
  exists mesh p ib pl,
    meshes st' !! 0%nat = Some mesh /\ primitives mesh !! 1%nat = Some p /\
    index_buf mesh = Some ib /\ buffer_created (gpu_log st') ib = Some pl /\
    fetched_vertices (index_values pl) (draw_call_of p) = [8; 9; 10].
Proof.
  cbv zeta.
  destruct (set_mesh_draw_effective_vertex cube_primitives "scene.gltf#Cube" scene_manager
    (outcome_state (set_mesh cube_primitives "scene.gltf#Cube" scene_manager)) 0%nat 1%nat
    (nth 1 cube_primitives {| vertex := []; index := []; material := None |}))
    as (mesh & p & ib & pl & H1 & H2 & H3 & H4 & H5 & _ & H7).
  - vm_compute. reflexivity.
  - vm_compute. reflexivity.
  - apply (bool_decide_unpack _). vm_compute. reflexivity.
  - vm_compute. reflexivity.
  - vm_compute. reflexivity.
  - vm_compute. discriminate.
  - exists mesh, p, ib, pl. split; [exact H1|]. split; [exact H2|]. split; [exact H3|].
    split; [exact H4|]. rewrite H7, H5. vm_compute. reflexivity.
Defined.

(** ** The loops of [rewrite_mesh] *)

Lemma offset_indices_length (bv : Z) (prim : Primitive) :
  usize_len (offset_indices bv (index prim)) = 3 * usize_len (index prim).
Proof. rewrite offset_indices_local, usize_len_map. apply local_indices_length. Qed.

Lemma u32_wrap_add_wrap (a b c : Z) :
  u32_wrap (u32_wrap (a + u32_wrap b) + c) = u32_wrap (a + b + c).
Proof.
  unfold u32_wrap. rewrite Zplus_mod_idemp_l, <- Z.add_assoc, (Z.add_comm (b mod _) c),
    Z.add_assoc, Zplus_mod_idemp_r.
  f_equal. lia.
Qed.

Lemma rewrite_flat_fold (prims : list Primitive) : forall fv flat bv,
  0 <= bv < 2 ^ 32 ->
  exists post, fold_left rewrite_flat_step prims (fv, flat, bv) =
    (fv ++ flat_map vertex prims, flat ++ post, u32_wrap (bv + total_vertices prims)) /\
    usize_len post = total_indices prims.
Proof.
  induction prims as [|prim prims IH]; intros fv flat bv Hbv.
  - exists []. simpl. rewrite !app_nil_r, Z.add_0_r, u32_wrap_id by lia. split; reflexivity.
  - pose proof (offset_indices_length bv prim) as Hol.
    destruct (IH (fv ++ vertex prim)
                 (match index prim with [] => flat | _ => flat ++ offset_indices bv (index prim) end)
                 (u32_wrap (bv + u32_wrap (usize_len (vertex prim)))) (u32_wrap_range _))
      as (post & Hf & Hp).
    exists ((match index prim with [] => [] | _ => offset_indices bv (index prim) end) ++ post).
    change (fold_left rewrite_flat_step (prim :: prims) (fv, flat, bv))
      with (fold_left rewrite_flat_step prims (rewrite_flat_step (fv, flat, bv) prim)).
    unfold rewrite_flat_step at 2. rewrite Hf. split.
    + f_equal; [f_equal|].
      * rewrite <- app_assoc. reflexivity.
      * destruct (index prim); [reflexivity|]. rewrite <- app_assoc. reflexivity.
      * rewrite u32_wrap_add_wrap, total_vertices_cons. f_equal. lia.
    + rewrite usize_len_app, Hp, total_indices_cons.
      destruct (index prim); [reflexivity|]. rewrite Hol. lia.
Qed.

Lemma rewrite_ranges_materials (prims : list Primitive) : forall first base,
  Forall (fun p => range_material p = 0%nat) (rewrite_ranges first base prims) /\
  length (rewrite_ranges first base prims) = length prims.
Proof.
  induction prims as [|prim prims IH]; intros first base; [split; [constructor | reflexivity]|].
  simpl. destruct (aabb_of (vertex prim)) as [mn mx].
  destruct (IH (u32_wrap (first + u32_wrap (usize_len (index prim) * 3)))
               (i32_wrap (base + i32_wrap (usize_len (vertex prim))))) as [H1 H2].
  split; [constructor; [reflexivity | exact H1] | simpl; lia].
Qed.

Lemma rewrite_mesh_unfold (mesh_id : nat) (prims : list Primitive) (st : AssetManager)
    (mesh : Mesh) post :
  meshes st !! mesh_id = Some mesh ->
  fold_left rewrite_flat_step prims ([], [], 0) =
    (flat_map vertex prims, post, u32_wrap (total_vertices prims)) ->
  rewrite_mesh mesh_id prims st =
  (if negb (u32_wrap (total_vertices prims) =? vertex_count mesh)
   then mpanic "vertex count mismatch on rewrite"
   else if negb (u32_wrap (usize_len post) =? mesh_index_count mesh)
   then mpanic "index count mismatch on rewrite"
   else
     write_buffer (vertex_buf mesh) 0 (PVertices (flat_map vertex prims)) ;;;
     match index_buf mesh with
     | Some ib =>
         match index_format mesh with
         | Some Uint16 => write_buffer ib 0 (PIndexU16 (map as_u16 post))
         | Some Uint32 => write_buffer ib 0 (PIndexU32 post)
         | None => mret tt
         end
     | None => mret tt
     end ;;;
     update_mesh mesh_id
       {| name := name mesh; primitives := rewrite_ranges 0 0 prims;
          vertex_buf := vertex_buf mesh; index_buf := index_buf mesh;
          index_format := index_format mesh; vertex_count := vertex_count mesh;
          mesh_index_count := mesh_index_count mesh |}) st.
Proof.
  intros Hm Hf. cbv [rewrite_mesh mbind mget expect mret]. rewrite Hm. cbv beta iota.
  rewrite Hf. reflexivity.
Qed.

(** What a successful [rewrite_mesh] does. *)
Lemma rewrite_mesh_done (mesh_id : nat) (prims : list Primitive) (st st' : AssetManager) u :
  rewrite_mesh mesh_id prims st = Done u st' ->
  exists mesh, meshes st !! mesh_id = Some mesh /\
    meshes st' = <[mesh_id := {| name := name mesh; primitives := rewrite_ranges 0 0 prims;
                          vertex_buf := vertex_buf mesh; index_buf := index_buf mesh;
                          index_format := index_format mesh; vertex_count := vertex_count mesh;
                          mesh_index_count := mesh_index_count mesh |}]> (meshes st) /\
    next_object st' = next_object st /\
    exists es, gpu_log st' =
        gpu_log st ++ EWriteBuffer (vertex_buf mesh) 0 (PVertices (flat_map vertex prims)) :: es /\
      Forall (fun e => exists ib p, index_buf mesh = Some ib /\ e = EWriteBuffer ib 0 p) es.
Proof.
  intros H. destruct (meshes st !! mesh_id) as [mesh|] eqn:Hm.
  2: { cbv [rewrite_mesh mbind mget expect] in H. rewrite Hm in H. discriminate. }
  destruct (rewrite_flat_fold prims [] [] 0 ltac:(lia)) as (post & Hf & _).
  rewrite !app_nil_l, Z.add_0_l in Hf.
  rewrite (rewrite_mesh_unfold mesh_id prims st mesh post Hm Hf) in H.
  exists mesh. split; [reflexivity|].
  destruct (negb _); [discriminate|]. destruct (negb _); [discriminate|].
  destruct (index_buf mesh) as [ib|] eqn:Eib;
    [destruct (index_format mesh) as [[|]|] eqn:Efmt|];
    cbv [mbind write_buffer gpu_call mret update_mesh mmodify] in H;
    injection H as <- <-; cbn; rewrite ?Eib, ?Efmt;
    (split; [reflexivity|]); (split; [reflexivity|]);
    eexists; (split; [rewrite <- ?app_assoc; reflexivity|]);
    repeat constructor; eauto.
Qed.

(** ** C8: [rewrite_mesh] *)

(** C8. For a valid mesh handle (and totals that fit a [u32]), [rewrite_mesh]
    succeeds exactly when the new primitives' total vertex count and total
    index count equal the counts the mesh recorded at its upload. It then
    overwrites, at offset 0, the mesh's vertex buffer with the new vertices
    and, when the mesh has an index buffer and format, that index buffer with
    the new flattened indices ([flat_indices_u32], of the recorded length;
    cast to [u16] for a 16-bit mesh). It creates no GPU object and keeps the
    mesh's buffers, format and counts. On a count mismatch it panics in the state
    it was called in: nothing written, the mesh unchanged. *)
Theorem rewrite_mesh_in_place (mesh_id : nat) (prims : list Primitive) (st : AssetManager)
    (mesh : Mesh) :
  meshes st !! mesh_id = Some mesh ->
  total_vertices prims < 2 ^ 32 -> total_indices prims < 2 ^ 32 ->
  ((total_vertices prims = vertex_count mesh /\ total_indices prims = mesh_index_count mesh) ->
     exists st', rewrite_mesh mesh_id prims st = Done tt st' /\
       next_object st' = next_object st /\
       (let flat := (fold_left rewrite_flat_step prims ([], [], 0)).1.2 in
        gpu_log st' = gpu_log st ++
          EWriteBuffer (vertex_buf mesh) 0 (PVertices (flat_map vertex prims)) ::
          match index_buf mesh, index_format mesh with
          | Some ib, Some Uint16 => [EWriteBuffer ib 0 (PIndexU16 (map as_u16 flat))]
          | Some ib, Some Uint32 => [EWriteBuffer ib 0 (PIndexU32 flat)]
          | _, _ => []
          end /\
        usize_len flat = mesh_index_count mesh) /\
       exists mesh', meshes st' = <[mesh_id := mesh']> (meshes st) /\
         vertex_buf mesh' = vertex_buf mesh /\ index_buf mesh' = index_buf mesh /\
         index_format mesh' = index_format mesh /\ vertex_count mesh' = vertex_count mesh /\
         mesh_index_count mesh' = mesh_index_count mesh) /\
  (~ (total_vertices prims = vertex_count mesh /\ total_indices prims = mesh_index_count mesh) ->
     exists msg, rewrite_mesh mesh_id prims st = Panic msg st).
Proof.
  intros Hm Hv Hi.
  pose proof (total_vertices_nonneg prims). pose proof (total_indices_nonneg prims).
  destruct (rewrite_flat_fold prims [] [] 0 ltac:(lia)) as (post & Hf & Hp).
  rewrite !app_nil_l, Z.add_0_l in Hf.
  pose proof (rewrite_mesh_unfold mesh_id prims st mesh post Hm Hf) as Hu.
  rewrite Hp, !u32_wrap_id in Hu by lia.
  split.
  - intros [E1 E2].
    assert (Hd : exists st', rewrite_mesh mesh_id prims st = Done tt st').
    { rewrite Hu, E1, E2, !Z.eqb_refl. cbn [negb].
      destruct (index_buf mesh) as [ib|]; [destruct (index_format mesh) as [[|]|]|];
        eexists; reflexivity. }
    destruct Hd as [st' Hd]. exists st'. split; [exact Hd|].
    destruct (rewrite_mesh_done _ _ _ _ _ Hd) as (m0 & Hm0 & Hms & Hno & _).
    rewrite Hm in Hm0. injection Hm0 as <-.
    split; [exact Hno|]. split.
    { cbv zeta. rewrite Hf. cbn [fst snd]. split; [|lia].
      rewrite Hu, E1, E2, !Z.eqb_refl in Hd. cbn [negb] in Hd.
      destruct (index_buf mesh) as [ib|]; [destruct (index_format mesh) as [[|]|]|];
        cbv [mbind write_buffer gpu_call mret update_mesh mmodify] in Hd;
        inversion Hd; subst; cbn; rewrite <- ?app_assoc; reflexivity. }
    eexists. split; [exact Hms|]. repeat split.
  - intros Hne. rewrite Hu.
    destruct (Z.eqb_spec (total_vertices prims) (vertex_count mesh));
      [destruct (Z.eqb_spec (total_indices prims) (mesh_index_count mesh)); [tauto|]|];
      cbn [negb]; eexists; reflexivity.
Qed.

(** C8 on the mesh [set_mesh] builds from [cube_primitives]: rewriting it with
    the same primitives succeeds, and with the first primitive only (4 of 7
    vertices) panics. *)
Lemma rewrite_mesh_in_place_witness :
  let st := outcome_state (set_mesh cube_primitives "scene.gltf#Cube" scene_manager) in
  (exists st', rewrite_mesh 0 cube_primitives st = Done tt st') /\
  (exists msg, rewrite_mesh 0 (firstn 1 cube_primitives) st = Panic msg st).
Proof.
  cbv zeta. split.
  - destruct (rewrite_mesh_in_place 0 cube_primitives
      (outcome_state (set_mesh cube_primitives "scene.gltf#Cube" scene_manager))
      (nth 0 (meshes (outcome_state (set_mesh cube_primitives "scene.gltf#Cube" scene_manager)))
         {| name := None; primitives := []; vertex_buf := 0%nat; index_buf := None;
            index_format := None; vertex_count := 0; mesh_index_count := 0 |}))
      as [Hok _].
    + vm_compute. reflexivity.
    + vm_compute. reflexivity.
    + vm_compute. reflexivity.
    + destruct Hok as (st' & Hd & _).
      * split; vm_compute; reflexivity.
      * exists st'. exact Hd.
  - destruct (rewrite_mesh_in_place 0 (firstn 1 cube_primitives)
      (outcome_state (set_mesh cube_primitives "scene.gltf#Cube" scene_manager))
      (nth 0 (meshes (outcome_state (set_mesh cube_primitives "scene.gltf#Cube" scene_manager)))
         {| name := None; primitives := []; vertex_buf := 0%nat; index_buf := None;
            index_format := None; vertex_count := 0; mesh_index_count := 0 |}))
      as [_ Hbad].
    + vm_compute. reflexivity.
    + vm_compute. reflexivity.
    + vm_compute. reflexivity.
    + apply Hbad. vm_compute. intros [E _]. discriminate.
Defined.

(** ** C9: [rewrite_mesh] resets materials *)

(** C9. After any successful [rewrite_mesh], the mesh has one range per new
    primitive and every range refers to material slot 0, whatever materials
    [get_mesh] or [set_mat] had assigned before. *)
Theorem rewrite_mesh_resets_materials (mesh_id : nat) (prims : list Primitive)
    (st st' : AssetManager) u :
  rewrite_mesh mesh_id prims st = Done u st' ->
  exists mesh', meshes st' !! mesh_id = Some mesh' /\
    length (primitives mesh') = length prims /\
    Forall (fun p => range_material p = 0%nat) (primitives mesh').
Proof.
  intros H. destruct (rewrite_mesh_done _ _ _ _ _ H) as (mesh & Hm & Hms & _).
  eexists. rewrite Hms. split.
  - apply list_lookup_insert_eq. eapply lookup_lt_Some. exact Hm.
  - simpl. destruct (rewrite_ranges_materials prims 0 0) as [H1 H2]. split; assumption.
Qed.

(** C9 after [get_mesh] on [scene.gltf#Cube], which gives the first range
    material slot 1: rewriting the mesh puts it back to 0. *)
Lemma rewrite_mesh_resets_materials_witness :
  let st := outcome_state (get_mesh "scene.gltf#Cube" scene_manager) in
  option_map (fun m => map range_material (primitives m)) (meshes st !! 0%nat) = Some [1%nat; 0%nat] /\
  exists mesh', meshes (outcome_state (rewrite_mesh 0 cube_primitives st)) !! 0%nat = Some mesh' /\
    Forall (fun p => range_material p = 0%nat) (primitives mesh').
Proof.
  cbv zeta. split; [vm_compute; reflexivity|].
  destruct (rewrite_mesh_resets_materials 0 cube_primitives
    (outcome_state (get_mesh "scene.gltf#Cube" scene_manager))
    (outcome_state (rewrite_mesh 0 cube_primitives (outcome_state (get_mesh "scene.gltf#Cube" scene_manager))))
    tt) as (mesh' & H1 & _ & H3).
  - vm_compute. reflexivity.
  - exists mesh'. split; assumption.
Defined.

(** ** Material slots *)

Lemma importer_call_mat {A} (e : Effect) (g : GltfImporter -> option A) msg :
  Preserves (fun s => (mat_free s, mat_by_name s)) (importer_call e g msg).
Proof. pres. Qed.

Lemma map_texture_unwrap_mat (path : string) (o : option nat) (fmt : TextureFormat) :
  Preserves (fun s => (mat_free s, mat_by_name s)) (map_texture_unwrap path o fmt).
Proof. apply map_texture_unwrap_pres; reflexivity. Qed.

Lemma vec_pop_spec (l rest : list nat) (i : nat) :
  vec_pop l = Some (i, rest) -> l = rest ++ [i].
Proof.
  unfold vec_pop. destruct (rev l) as [|x r] eqn:E; [discriminate|].
  intros H. injection H as <- <-. rewrite <- (rev_involutive l), E. reflexivity.
Qed.

(** A cache miss of [get_material] takes the last free slot. *)
Lemma get_material_miss (nm : string) (s s' : AssetManager) (i : nat) :
  mat_by_name s !! nm = None -> get_material nm s = Done i s' ->
  mat_free s = mat_free s' ++ [i] /\ mat_by_name s' = <[nm := i]> (mat_by_name s).
Proof.
  intros Hmiss H. unfold get_material in H. inv_all H.
  - pose proof (eq_trans (eq_sym Hmiss) Heqo). discriminate.
  - repeat match goal with
      | E : importer_call _ _ _ _ = Done _ _ |- _ =>
          apply importer_call_mat in E; injection E as ? ?
      | E : map_texture_unwrap _ _ _ _ = Done _ _ |- _ =>
          apply map_texture_unwrap_mat in E; injection E as ? ?
      | E : vec_pop _ = Some _ |- _ => apply vec_pop_spec in E
      end.
    unfold set_mat_by_name, set_gpu, set_tex_by_mat, set_mat_free. simpl.
    split; congruence.
Qed.

Lemma mbind_done {S A B} (m : M S A) (k : A -> M S B) s a s' :
  m s = Done a s' -> mbind m k s = k a s'.
Proof. intros E. unfold mbind. rewrite E. reflexivity. Qed.

Lemma runs_bind {A B} (m : AM A) (k : A -> AM B) P Q :
  Runs m P -> (forall a, P a -> Runs (k a) Q) -> Runs (mbind m k) Q.
Proof.
  intros Hm Hk s. destruct (Hm s) as (a & s1 & r1 & E1 & Pa & L1).
  destruct (Hk a Pa s1) as (b & s2 & r2 & E2 & Qb & L2).
  exists b, s2, (r1 ++ r2). rewrite (mbind_done _ _ _ _ _ E1), E2, L2, L1, app_assoc. auto.
Qed.

Lemma runs_ret {A} (a : A) (P : A -> Prop) : P a -> Runs (mret a) P.
Proof. intros Pa s. exists a, s, []. rewrite app_nil_r. auto. Qed.

Lemma runs_device_create mk : Runs (device_create mk) (fun _ => True).
Proof. intros s. eexists _, _, _. split; [reflexivity|]. split; [exact I | reflexivity]. Qed.

(** The device calls of [AssetManager::new] return the material buffer,
    created first and written with the default material right after. *)
Lemma new_body_run (s : AssetManager) :
  exists s' rest, new_body s = Done (next_object s) s' /\
    gpu_log s' = gpu_log s ++
      [ECreateBuffer (next_object s) "Material Buffer"
         (PZeroed (Z.of_nat MAX_MAT * size_of_MaterialUniform));
       EWriteBuffer (next_object s) 0 (PMaterial MaterialUniform_default)] ++ rest.
Proof.
  unfold new_body.
  set (s1 := set_gpu (S (next_object s)) (gpu_log s ++ [ECreateBuffer (next_object s)
               "Material Buffer" (PZeroed (Z.of_nat MAX_MAT * size_of_MaterialUniform))]) s).
  rewrite (mbind_done _ _ s (next_object s) s1 eq_refl).
  set (s2 := set_gpu (next_object s1)
               (gpu_log s1 ++ [EWriteBuffer (next_object s) 0 (PMaterial MaterialUniform_default)]) s1).
  rewrite (mbind_done _ _ s1 tt s2 eq_refl).
  match goal with |- context [mbind ?m ?k s2] =>
    assert (HR : Runs (mbind m k) (fun v => v = next_object s)) end.
  { repeat (apply runs_bind with (fun _ => True); [apply runs_device_create | intros ? _]).
    apply runs_ret. reflexivity. }
  destruct (HR s2) as (v & s3 & r & E & -> & L). exists s3, r. split; [exact E|].
  rewrite L. unfold s2, s1, set_gpu. simpl. rewrite <- !app_assoc. reflexivity.
Qed.

Lemma AssetManager_new_fields (imp : GltfImporter) (n : nat) (log : list Effect) :
  let st := AssetManager_new imp n log in
  mat_free st = mat_free_init /\ mat_by_name st = ∅ /\ mat_buffer st = n /\
  exists rest, gpu_log st = log ++
    [ECreateBuffer n "Material Buffer" (PZeroed (Z.of_nat MAX_MAT * size_of_MaterialUniform));
     EWriteBuffer n 0 (PMaterial MaterialUniform_default)] ++ rest.
Proof.
  unfold AssetManager_new.
  match goal with |- context [new_body ?s0] =>
    destruct (new_body_run s0) as (s' & r & E & L); rewrite E end.
  simpl. split; [reflexivity|]. split; [reflexivity|]. split; [reflexivity|].
  exists r. rewrite L. reflexivity.
Qed.

Lemma mat_free_init_spec : NoDup mat_free_init /\ (forall i, i ∈ mat_free_init -> (1 <= i)%nat).
Proof.
  unfold mat_free_init. split.
  - apply NoDup_ListNoDup, List.NoDup_rev, List.seq_NoDup.
  - intros i Hi. apply list_elem_of_In, in_rev, in_seq in Hi. lia.
Qed.

(** ** C6: material slots *)

(** C6. Material slot 0 is the default material: [AssetManager::new] writes
    [MaterialUniform::default()] at offset 0 of the material buffer right after
    creating it, and starts with a free pool that does not hold 0 — the
    invariant [mat_inv] holds. Every [get_material] that returns keeps
    [mat_inv] (free slots distinct and never 0, slots handed out at least 1,
    not free, and of one key each) and records the returned slot for the
    key; on a cache miss the slot returned is the one removed from the end
    of the free pool, at least 1, and held by no key before. When the free
    pool is empty, a cache miss never returns. *)
Theorem material_slots :
  (forall imp n log,
     mat_inv (AssetManager_new imp n log) /\ mat_buffer (AssetManager_new imp n log) = n /\
     exists rest, gpu_log (AssetManager_new imp n log) = log ++
       [ECreateBuffer n "Material Buffer" (PZeroed (Z.of_nat MAX_MAT * size_of_MaterialUniform));
        EWriteBuffer n 0 (PMaterial MaterialUniform_default)] ++ rest) /\
  (forall nm st i st', mat_inv st -> get_material nm st = Done i st' ->
     mat_inv st' /\ mat_by_name st' !! nm = Some i /\
     (mat_by_name st !! nm = None ->
        mat_free st = mat_free st' ++ [i] /\ (1 <= i)%nat /\
        (forall k, mat_by_name st !! k <> Some i))) /\
  (forall nm st, mat_by_name st !! nm = None -> mat_free st = [] ->
     forall i st', get_material nm st <> Done i st').
Proof.
  split; [|split].
  - intros imp n log. destruct (AssetManager_new_fields imp n log) as (Hf & Hm & Hb & Hl).
    split; [|split; [exact Hb | exact Hl]].
    unfold mat_inv. rewrite Hf, Hm. destruct mat_free_init_spec as [ND H1].
    split; [exact ND|]. split; [intros H0; specialize (H1 0%nat H0); lia|].
    split; intros *; rewrite lookup_empty; discriminate.
  - intros nm st i st' Hinv H.
    pose proof (get_material_post _ _ _ _ H) as Hpost.
    destruct (mat_by_name st !! nm) as [h|] eqn:Ec.
    + pose proof (get_material_hit nm st h Ec) as Hh. rewrite Hh in H.
      injection H as <- <-. split; [exact Hinv|]. split; [exact Hpost|].
      intros Hn. discriminate.
    + destruct (get_material_miss nm st st' i Ec H) as [Hf Hm].
      destruct Hinv as (ND & Z0 & Hk & Hinj).
      rewrite Hf in ND, Z0, Hk.
      apply NoDup_app in ND as (ND1 & Hdisj & _).
      assert (Hi_in : i ∈ mat_free st' ++ [i]).
      { apply elem_of_app. right. apply list_elem_of_singleton. reflexivity. }
      assert (Hi1 : (1 <= i)%nat).
      { destruct i; [exfalso; exact (Z0 Hi_in) | lia]. }
      assert (Hnot : forall k, mat_by_name st !! k <> Some i).
      { intros k Hk'. destruct (Hk k i Hk') as [_ Hn]. exact (Hn Hi_in). }
      assert (Hi_rest : i ∉ mat_free st').
      { intros Hr. apply (Hdisj i Hr). apply list_elem_of_singleton. reflexivity. }
      split; [|split; [rewrite Hm; apply lookup_insert_eq | intros _; auto]].
      unfold mat_inv. rewrite Hm. split; [exact ND1|].
      split; [intros H0; apply Z0, elem_of_app; left; exact H0|]. split.
      * intros k j Hkj. destruct (decide (k = nm)) as [->|Hne].
        -- rewrite lookup_insert_eq in Hkj. injection Hkj as <-. split; assumption.
        -- rewrite lookup_insert_ne in Hkj by congruence.
           destruct (Hk k j Hkj) as [H1 H2]. split; [exact H1|].
           intros H3. apply H2, elem_of_app. left. exact H3.
      * intros k1 k2 j H1 H2.
        destruct (decide (k1 = nm)) as [->|Hne1]; destruct (decide (k2 = nm)) as [->|Hne2];
          try reflexivity.
        -- rewrite lookup_insert_eq in H1. rewrite lookup_insert_ne in H2 by congruence.
           injection H1 as <-. exfalso. exact (Hnot k2 H2).
        -- rewrite lookup_insert_eq in H2. rewrite lookup_insert_ne in H1 by congruence.
           injection H2 as <-. exfalso. exact (Hnot k1 H1).
        -- rewrite lookup_insert_ne in H1, H2 by congruence. exact (Hinj k1 k2 j H1 H2).
  - intros nm st Hmiss Hemp i st' H.
    destruct (get_material_miss _ _ _ _ Hmiss H) as [Hf _].
    rewrite Hemp in Hf. destruct (mat_free st'); discriminate.
Qed.

(** C6 on [scene_manager]: material 0 of [scene.gltf] takes slot 1, the last
    free one, and keeps the invariant; with an empty pool it never returns. *)
Lemma material_slots_witness :
  let st' := outcome_state (get_material "scene.gltf#0" scene_manager) in
  mat_inv st' /\ mat_free scene_manager = mat_free st' ++ [1%nat] /\
  ~ (exists i st'', get_material "scene.gltf#0" (set_mat_free [] scene_manager) = Done i st'').
Proof.
  cbv zeta. destruct material_slots as (P1 & P2 & P3).
  assert (Hinv : mat_inv scene_manager) by apply (P1 scene_importer 0%nat []).
  assert (Hd : get_material "scene.gltf#0" scene_manager =
               Done 1%nat (outcome_state (get_material "scene.gltf#0" scene_manager)))
    by (vm_compute; reflexivity).
  destruct (P2 _ _ _ _ Hinv Hd) as (Hinv' & _ & Hmiss).
  split; [exact Hinv'|]. split.
  - apply Hmiss. vm_compute. reflexivity.
  - intros (i & st'' & H). exact (P3 "scene.gltf#0" (set_mat_free [] scene_manager)
                                   ltac:(vm_compute; reflexivity) eq_refl i st'' H).
Defined.

(** ** C1: absent texture references *)

Lemma importer_call_result {A} (e : Effect) (g : GltfImporter -> option A) msg s a s' :
  importer_call e g msg s = Done a s' -> g (importer s) = Some a.
Proof. intros H. unfold importer_call in H. inv_all H. assumption. Qed.

(** C1. On a cache miss, a material whose imported record lacks any of its
    four texture references (base color, metallic-roughness, normal,
    emissive) never yields a handle: [get_material] reaches the [unwrap] of
    that absent reference and panics. *)
Theorem get_material_absent_texture_fails (nm : string) (st : AssetManager) (m : Material) :
  mat_by_name st !! nm = None ->
  load_material (importer st) (split_key nm).1 (split_key nm).2 = Some m ->
  (base_color_texture m = None \/ metallic_roughness_texture m = None \/
   normal_texture m = None \/ emissive_texture m = None) ->
  forall i st', get_material nm st <> Done i st'.
Proof.
  intros Hmiss Hload Habs i st' H. unfold get_material in H. inv_all H.
  - pose proof (eq_trans (eq_sym Hmiss) Heqo). discriminate.
  - match goal with E : importer_call _ _ _ _ = Done ?x _ |- _ =>
      apply importer_call_result in E; rename x into mat end.
    simpl in Hload. rewrite Hload in E. injection E as <-.
    destruct Habs as [Ha | [Ha | [Ha | Ha]]]; rewrite Ha in *; discriminate.
Qed.

(** C1 on material 1 of [scene.gltf], which has no texture reference:
    [get_material] panics with [unwrap]'s message instead of returning. *)
Lemma get_material_absent_texture_fails_witness :
  ~ (exists i st', get_material "scene.gltf#1" scene_manager = Done i st') /\
  exists st', get_material "scene.gltf#1" scene_manager = Panic unwrap_none_msg st'.
Proof.
  split.
  - intros (i & st' & H).
    exact (get_material_absent_texture_fails "scene.gltf#1" scene_manager
             (mk_material None None None None) ltac:(vm_compute; reflexivity)
             ltac:(vm_compute; reflexivity) (or_introl eq_refl) i st' H).
  - eexists. vm_compute. reflexivity.
Defined.

(** ** The render protocol *)

(** The log entry [render] leaves for a failed acquisition. *)
Lemma render_failed (f32_cos : f32 -> f32) (view_proj : Camera -> Mat4) (err : SurfaceError)
    (lights : list Light) (cam : Camera) (action : list RenderCommand) (r : ForwardRenderer) :
  exists r',
    render f32_cos view_proj (AcquireFailed err) lights cam action r =
      match err with OutOfMemory => Exit 1 r' | _ => Done tt r' end /\
    camera r' = cam /\
    next_object (asset r') = next_object (asset r) /\
    gpu_log (asset r') = gpu_log (asset r) ++
      [EWriteBuffer (camera_buffer r) 0 (PCamera (camera_uniform_of view_proj cam));
       match err with
       | Lost | Outdated => EConfigureSurface
       | OutOfMemory => ELog "wgpu: OutOfMemory on surface get_current_texture"
       | Timeout => ELog "wgpu: surface acquire timeout; skipping frame"
       | Other => ELog "wgpu: surface acquire error; skipping frame"
       end].
Proof.
  cbv [render mbind mmodify mget mret update_camera_buffer on_asset write_buffer gpu_call mexit].
  destruct err; eexists; (split; [reflexivity|]); cbn; (split; [reflexivity|]);
    (split; [reflexivity|]); rewrite <- app_assoc; reflexivity.
Qed.

(** The GPU log only grows. *)
Lemma ext_bind {A B} (m : AM A) (k : A -> AM B) :
  Extends m -> (forall a, Extends (k a)) -> Extends (mbind m k).
Proof.
  intros Hm Hk s. unfold mbind. destruct (Hm s) as [r1 E1].
  destruct (m s) as [a s1|msg s1|c s1]; simpl in *; eauto.
  destruct (Hk a s1) as [r2 E2]. exists (r1 ++ r2). rewrite E2, E1, app_assoc. reflexivity.
Qed.

Lemma ext_ret {A} (a : A) : Extends (mret a).
Proof. intros s. exists []. rewrite app_nil_r. reflexivity. Qed.

Lemma ext_get : Extends mget.
Proof. intros s. exists []. rewrite app_nil_r. reflexivity. Qed.

Lemma ext_expect {A} (o : option A) msg : Extends (expect o msg).
Proof. intros s. exists []. rewrite app_nil_r. destruct o; reflexivity. Qed.

Lemma ext_gpu_call e : Extends (gpu_call e).
Proof. intros s. exists [e]. reflexivity. Qed.

Lemma ext_gpu_calls es : Extends (gpu_calls es).
Proof. induction es; simpl; [apply ext_ret | apply ext_bind; [apply ext_gpu_call | intros; apply IHes]]. Qed.

Lemma ext_draw_commands g action : Extends (draw_commands g action).
Proof.
  induction action as [|cmd rest IH]; simpl; [apply ext_ret|].
  apply ext_bind; [apply ext_get|intros s].
  apply ext_bind; [apply ext_expect|intros mesh].
  apply ext_bind; [apply ext_gpu_call|intros _].
  apply ext_bind; [|intros _; apply IH].
  destruct (index_buf mesh), (index_format mesh);
    try apply ext_ret; apply ext_bind; [apply ext_gpu_call|intros; apply ext_gpu_calls].
Qed.

Lemma upload_lights_run f32_cos r lights s :
  let count := Nat.min (length lights) MAX_LIGHTS in
  exists s', upload_lights f32_cos r lights s = Done tt s' /\
    gpu_log s' = gpu_log s ++
      (if (0 <? count)%nat then [EWriteBuffer (light_ssbo r) 0 (PLights (map (light_uniform_of f32_cos) (firstn count lights)))] else [])
      ++ [EWriteBuffer (light_params r) 0 (PLightParams (Z.of_nat count))].
Proof.
  intros count. unfold upload_lights. fold count.
  assert (Hc : u32_wrap (Z.of_nat count) = Z.of_nat count).
  { unfold u32_wrap. apply Z.mod_small. unfold count, MAX_LIGHTS. lia. }
  rewrite Hc. destruct (0 <? count)%nat; eexists; (split; [reflexivity|]); simpl;
    rewrite <- ?app_assoc; reflexivity.
Qed.

Lemma render_acquired_log f32_cos view_proj frame lights cam action r :
  let count := Nat.min (length lights) MAX_LIGHTS in
  exists rest, gpu_log (asset (outcome_state (render f32_cos view_proj (Acquired frame) lights cam action r))) =
    gpu_log (asset r) ++ EWriteBuffer (camera_buffer r) 0 (PCamera (camera_uniform_of view_proj cam))
      :: ECreateView (next_object (asset r)) frame
      :: (if (0 <? count)%nat then [EWriteBuffer (light_ssbo r) 0 (PLights (map (light_uniform_of f32_cos) (firstn count lights)))] else [])
      ++ EWriteBuffer (light_params r) 0 (PLightParams (Z.of_nat count)) :: rest.
Proof.
  intros count.
  unfold render, mbind at 1. cbn [mmodify]. unfold mbind at 1. cbn [update_camera_buffer].
  unfold mbind at 1. cbn [mget]. unfold mbind at 1.
  unfold on_asset at 1. cbn. unfold mbind at 1. cbn. unfold mbind at 1.
  cbn [mbind mget set_camera set_asset].
  unfold mbind at 1. cbn.
  match goal with |- context [upload_lights ?f ?r0 ?ls ?s0] =>
    destruct (upload_lights_run f r0 ls s0) as [s2 [E2 L2]]; rewrite E2 end.
  cbn [light_ssbo light_params set_asset set_camera gpu_log set_gpu] in L2. fold count in L2.
  match goal with |- context [draw_commands ?g ?a ?s3] =>
    destruct (ext_draw_commands g a s3) as [r3 E3]; destruct (draw_commands g a s3) end;
    cbn in E3 |- *; eexists; rewrite E3, L2; rewrite <- !app_assoc; reflexivity.
Qed.

(** C2 (amended): a [render] call writes the camera uniform first and then
    acquires the swapchain image; the light array and count record are
    uploaded only after a successful acquisition (after the frame's view is
    created). On a failed acquisition the camera is updated, no light is
    uploaded and nothing is drawn: a lost or outdated surface reconfigures it,
    a timeout or other error logs a message, and all of these return
    [Done]; only out-of-memory ends in [Exit 1]. *)
Theorem render_step_order (f32_cos : f32 -> f32) (view_proj : Camera -> Mat4)
    (lights : list Light) (cam : Camera) (action : list RenderCommand) (r : ForwardRenderer) :
  let cam_write := EWriteBuffer (camera_buffer r) 0 (PCamera (camera_uniform_of view_proj cam)) in
  let count := Nat.min (length lights) MAX_LIGHTS in
  (forall err, exists r',
     render f32_cos view_proj (AcquireFailed err) lights cam action r =
       match err with OutOfMemory => Exit 1 r' | _ => Done tt r' end /\
     camera r' = cam /\
     gpu_log (asset r') = gpu_log (asset r) ++
       [cam_write;
        match err with
        | Lost | Outdated => EConfigureSurface
        | OutOfMemory => ELog "wgpu: OutOfMemory on surface get_current_texture"
        | Timeout => ELog "wgpu: surface acquire timeout; skipping frame"
        | Other => ELog "wgpu: surface acquire error; skipping frame"
        end]) /\
  (forall frame, exists rest,
     gpu_log (asset (outcome_state (render f32_cos view_proj (Acquired frame) lights cam action r))) =
       gpu_log (asset r) ++ cam_write :: ECreateView (next_object (asset r)) frame ::
         (if (0 <? count)%nat
          then [EWriteBuffer (light_ssbo r) 0
                  (PLights (map (light_uniform_of f32_cos) (firstn count lights)))]
          else []) ++
         EWriteBuffer (light_params r) 0 (PLightParams (Z.of_nat count)) :: rest).
Proof.
  intros cam_write count. split.
  - intros err. destruct (render_failed f32_cos view_proj err lights cam action r)
      as [r' (E & Hc & _ & Hl)]. exists r'. auto.
  - intros frame. apply render_acquired_log.
Qed.

(** C2 (counterexample): with a timed-out acquisition and three lights, the
    example renderer returns [Done] after writing the camera uniform and
    logging the timeout; the light array and count record are not uploaded. *)
Lemma render_timeout_skips_light_upload :
  exists r',
    render (fun x => x) (fun _ => []) (AcquireFailed Timeout) (example_lights 3)
      example_camera [] example_renderer = Done tt r' /\
    gpu_log (asset r') = gpu_log (asset example_renderer) ++
      [EWriteBuffer (camera_buffer example_renderer) 0
         (PCamera (camera_uniform_of (fun _ => []) example_camera));
       ELog "wgpu: surface acquire timeout; skipping frame"].
Proof. eexists. split; vm_compute; reflexivity. Qed.

(** C7 (amended): in every [render] call whose acquisition succeeds, exactly
    [min (length lights) MAX_LIGHTS] light uniforms (the first ones of the
    list) are uploaded, the array write is skipped when that number is 0, and
    the count record carries that number; the upload happens right after the
    frame's view is created, whatever way the frame ends. When acquisition
    fails, whatever the error, the log gains only the camera write and one
    entry that is no buffer write: no light uniform and no count record is
    uploaded. *)
Theorem render_light_upload_truncated (f32_cos : f32 -> f32) (view_proj : Camera -> Mat4)
    (frame : nat) (lights : list Light) (cam : Camera) (action : list RenderCommand)
    (r : ForwardRenderer) :
  let count := Nat.min (length lights) MAX_LIGHTS in
  length (map (light_uniform_of f32_cos) (firstn count lights)) = count /\
  (count <= MAX_LIGHTS)%nat /\
  (forall err, exists e,
     gpu_log (asset (outcome_state
       (render f32_cos view_proj (AcquireFailed err) lights cam action r))) =
       gpu_log (asset r) ++
         [EWriteBuffer (camera_buffer r) 0 (PCamera (camera_uniform_of view_proj cam)); e] /\
     forall buf off p, e <> EWriteBuffer buf off p) /\
  exists rest,
    gpu_log (asset (outcome_state (render f32_cos view_proj (Acquired frame) lights cam action r))) =
      gpu_log (asset r) ++
        EWriteBuffer (camera_buffer r) 0 (PCamera (camera_uniform_of view_proj cam)) ::
        ECreateView (next_object (asset r)) frame ::
        (if (0 <? count)%nat
         then [EWriteBuffer (light_ssbo r) 0
                 (PLights (map (light_uniform_of f32_cos) (firstn count lights)))]
         else []) ++
        EWriteBuffer (light_params r) 0 (PLightParams (Z.of_nat count)) :: rest.
Proof.
  intros count. split; [|split; [|split]].
  - rewrite length_map, length_firstn. unfold count. lia.
  - unfold count. lia.
  - intros err.
    destruct (render_failed f32_cos view_proj err lights cam action r)
      as [r' (E & _ & _ & Hl)].
    destruct err; rewrite E; cbn [outcome_state]; eexists;
      (split; [exact Hl | intros ? ? ?; discriminate]).
  - apply render_acquired_log.
Qed.

(** C7 (counterexample): twenty lights passed to a [render] call whose
    surface is lost upload no light uniform and no count record: the log
    gains only the camera write and the surface reconfiguration. *)
Lemma render_lost_surface_uploads_no_lights :
  exists r',
    render (fun x => x) (fun _ => []) (AcquireFailed Lost) (example_lights 20)
      example_camera [] example_renderer = Done tt r' /\
    gpu_log (asset r') = gpu_log (asset example_renderer) ++
      [EWriteBuffer (camera_buffer example_renderer) 0
         (PCamera (camera_uniform_of (fun _ => []) example_camera));
       EConfigureSurface].
Proof. eexists. split; vm_compute; reflexivity. Qed.

(** * Further properties of the asset manager, importer and renderer *)

Lemma split_key_cons_nohash (c : ascii) (rest : string) :
  c <> "#"%char ->
  split_key (String c rest) = (String c (fst (split_key rest)), snd (split_key rest)).
Proof.
  intros Hc. simpl. destruct (Ascii.eqb c "#") eqn:E.
  - apply Ascii.eqb_eq in E. contradiction.
  - destruct (split_key rest). reflexivity.
Qed.

(** X1. split_key returns a path that contains no '#'. The key is rebuilt from
    the two parts: it is the path when there is no selector, and path + "#" +
    selector otherwise. *)
Theorem split_key_parts (k : string) :
  no_hash (fst (split_key k)) /\
  k = match snd (split_key k) with
      | None => fst (split_key k)
      | Some sel => fst (split_key k) +:+ "#" +:+ sel
      end.
Proof.
  induction k as [|c rest IH]; simpl.
  - split; [intros c Hc; inversion Hc | reflexivity].
  - destruct (Ascii.eqb c "#") eqn:E.
    + apply Ascii.eqb_eq in E. subst c. simpl.
      split; [intros c Hc; inversion Hc | reflexivity].
    + destruct (split_key rest) as [p sel]. simpl in *. destruct IH as [Hp Hk].
      split.
      * intros d Hd. apply elem_of_cons in Hd as [->|Hd].
        -- intros Heq. rewrite Heq, Ascii.eqb_refl in E. discriminate.
        -- exact (Hp d Hd).
      * rewrite Hk at 1. destruct sel; reflexivity.
Qed.

Lemma split_key_key_of (path : string) (i : nat) :
  no_hash path -> split_key (key_of path i) = (path, Some (pretty i)).
Proof.
  induction path as [|c p IH]; intros Hp.
  - reflexivity.
  - change (key_of (String c p) i) with (String c (key_of p i)).
    assert (Hc : c <> "#"%char) by (apply Hp; left).
    rewrite split_key_cons_nohash by exact Hc.
    rewrite IH; [reflexivity|].
    intros d Hd. apply Hp. right. exact Hd.
Qed.

Lemma pretty_N_char_digit (d : N) :
  (d < 10)%N ->
  ((48 <=? Ascii.nat_of_ascii (pretty_N_char d))%nat &&
   (Ascii.nat_of_ascii (pretty_N_char d) <=? 57)%nat) = true /\
  (Ascii.nat_of_ascii (pretty_N_char d) - 48)%nat = N.to_nat d.
Proof.
  intros Hd.
  assert (d = 0 \/ d = 1 \/ d = 2 \/ d = 3 \/ d = 4 \/ d = 5 \/ d = 6 \/ d = 7 \/ d = 8
          \/ d = 9)%N as H by lia.
  repeat destruct H as [->|H]; [..|subst d]; split; reflexivity.
Qed.

Lemma parse_digits_cons (c : ascii) (rest : string) (acc : nat) :
  parse_digits (String c rest) acc =
  if (48 <=? Ascii.nat_of_ascii c)%nat && (Ascii.nat_of_ascii c <=? 57)%nat
  then parse_digits rest (acc * 10 + (Ascii.nat_of_ascii c - 48))%nat else None.
Proof. reflexivity. Qed.

Lemma parse_digits_pretty_N_go (x : N) : forall s acc, exists k,
  parse_digits (pretty_N_go x s) acc = parse_digits s (acc * 10 ^ k + N.to_nat x)%nat.
Proof.
  induction (N.lt_wf_0 x) as [x _ IH]. intros s acc.
  destruct (decide (x = 0)%N) as [->|Hx].
  - exists 0%nat. rewrite pretty_N_go_0. f_equal. simpl. lia.
  - rewrite pretty_N_go_step by lia.
    destruct (IH (x `div` 10)%N ltac:(apply N.div_lt; lia)
                (String (pretty_N_char (x `mod` 10)) s) acc) as [k Hk].
    rewrite Hk. exists (S k). rewrite parse_digits_cons.
    destruct (pretty_N_char_digit (x `mod` 10)%N ltac:(apply N.mod_lt; lia)) as [H1 H2].
    rewrite H1, H2. f_equal.
    pose proof (N.div_mod x 10 ltac:(lia)) as Hdm.
    assert (N.to_nat x = 10 * N.to_nat (x `div` 10) + N.to_nat (x `mod` 10))%nat as ->.
    { rewrite Hdm at 1. rewrite N2Nat.inj_add, N2Nat.inj_mul. reflexivity. }
    rewrite Nat.pow_succ_r'. lia.
Qed.

Lemma pretty_N_go_nonempty (x : N) : forall s, s <> EmptyString -> pretty_N_go x s <> EmptyString.
Proof.
  induction (N.lt_wf_0 x) as [x _ IH]. intros s Hs.
  destruct (decide (x = 0)%N) as [->|Hx].
  - rewrite pretty_N_go_0. exact Hs.
  - rewrite pretty_N_go_step by lia. apply IH; [apply N.div_lt; lia | discriminate].
Qed.

Lemma parse_digits_pretty (i : nat) :
  parse_digits (pretty i) 0 = Some i /\ pretty i <> EmptyString.
Proof.
  unfold pretty, pretty_nat, pretty, pretty_N.
  destruct (decide (N.of_nat i = 0)%N) as [H0|H0].
  - assert (i = 0%nat) as -> by lia. split; [reflexivity | discriminate].
  - split.
    + destruct (parse_digits_pretty_N_go (N.of_nat i) EmptyString 0) as [k Hk].
      rewrite Hk. simpl. rewrite Nat2N.id. reflexivity.
    + rewrite pretty_N_go_step by lia. apply pretty_N_go_nonempty. discriminate.
Qed.

(** X2. For the path p that split_key takes from any key, splitting
    format!("{}#{}", p, i) gives back p and the decimal text of i. split_path
    recovers (p, i); split_path is absent from the sources and is modelled
    from the spec. *)
Theorem key_of_round_trip (nm : string) (i : nat) :
  let path := fst (split_key nm) in
  split_key (key_of path i) = (path, Some (pretty i)) /\
  split_path (key_of path i) = Some (path, i).
Proof.
  cbv zeta. destruct (split_key_parts nm) as [Hp _].
  assert (Hs := split_key_key_of _ i Hp).
  split; [exact Hs|]. unfold split_path. rewrite Hs.
  destruct (parse_digits_pretty i) as [Hd Hne].
  destruct (pretty i) as [|c r] eqn:E; [contradiction|]. rewrite Hd. reflexivity.
Qed.

(** X3. set_mat panics if the mesh handle is absent or the primitive index is
    out of range. Otherwise it changes only the material of that one primitive
    range: other meshes, other ranges, the mesh's buffers and counts, and the
    GPU are untouched. *)
Theorem set_mat_effect (mesh_id i : nat) (m : MaterialId) (st : AssetManager) :
  (meshes st !! mesh_id = None ->
     set_mat mesh_id i m st = Panic "set_mat: mesh_id not found" st) /\
  (forall mesh, meshes st !! mesh_id = Some mesh -> (length (primitives mesh) <= i)%nat ->
     set_mat mesh_id i m st = Panic "set_mat: primitive index out of range" st) /\
  (forall mesh p, meshes st !! mesh_id = Some mesh -> primitives mesh !! i = Some p ->
     exists st' mesh', set_mat mesh_id i m st = Done tt st' /\
       gpu_log st' = gpu_log st /\ next_object st' = next_object st /\
       meshes st' = <[mesh_id := mesh']> (meshes st) /\
       (forall j, j <> mesh_id -> meshes st' !! j = meshes st !! j) /\
       name mesh' = name mesh /\ vertex_buf mesh' = vertex_buf mesh /\
       index_buf mesh' = index_buf mesh /\ index_format mesh' = index_format mesh /\
       vertex_count mesh' = vertex_count mesh /\
       mesh_index_count mesh' = mesh_index_count mesh /\
       length (primitives mesh') = length (primitives mesh) /\
       (forall j, j <> i -> primitives mesh' !! j = primitives mesh !! j) /\
       primitives mesh' !! i = Some {| first_index := first_index p;
         index_count := index_count p; base_vertex := base_vertex p;
         aabb_min := aabb_min p; aabb_max := aabb_max p; range_material := m |}).
Proof.
  split; [|split].
  - intros Hm. cbv [set_mat mbind mget]. rewrite Hm. reflexivity.
  - intros mesh Hm Hi. cbv [set_mat mbind mget]. rewrite Hm.
    destruct (Nat.ltb_spec i (length (primitives mesh))); [lia | reflexivity].
  - intros mesh p Hm Hp. cbv [set_mat mbind mget]. rewrite Hm.
    assert (Hi : (i < length (primitives mesh))%nat) by (apply lookup_lt_is_Some; eauto).
    destruct (Nat.ltb_spec i (length (primitives mesh))); [|lia].
    cbv [update_mesh mmodify]. do 2 eexists. split; [reflexivity|]. simpl.
    split; [reflexivity|]. split; [reflexivity|]. split; [reflexivity|].
    split; [intros j Hj; apply list_lookup_insert_ne; congruence|].
    do 6 (split; [reflexivity|]). simpl. split; [apply length_alter|].
    split; [intros j Hj; apply list_lookup_alter_ne; congruence|].
    rewrite list_lookup_alter, Hp. simpl. rewrite decide_True by reflexivity. reflexivity.
Qed.

Lemma set_mesh_step_fields (acc : SetMeshAcc) (prim : Primitive) :
  flat_vertices (set_mesh_step acc prim) = flat_vertices acc ++ vertex prim /\
  length (prim_ranges (set_mesh_step acc prim)) = S (length (prim_ranges acc)) /\
  (forall j, (j < length (prim_ranges acc))%nat ->
     prim_ranges (set_mesh_step acc prim) !! j = prim_ranges acc !! j) /\
  (index prim = [] ->
     flat_indices_u32 (set_mesh_step acc prim) = flat_indices_u32 acc /\
     exists p, prim_ranges (set_mesh_step acc prim) = prim_ranges acc ++ [p] /\
       index_count p = 0).
Proof.
  unfold set_mesh_step. destruct (aabb_of (vertex prim)) as [mn mx].
  destruct (index prim) as [|i ix] eqn:E; simpl.
  - rewrite length_app. simpl. split; [reflexivity|]. split; [lia|].
    split; [intros j Hj; apply lookup_app_l; exact Hj|].
    intros _. split; [reflexivity|]. eexists. split; reflexivity.
  - rewrite length_app. simpl. split; [reflexivity|]. split; [lia|].
    split; [intros j Hj; apply lookup_app_l; exact Hj|].
    intros H. discriminate.
Qed.

Lemma set_mesh_fold_fields (prims : list Primitive) : forall acc : SetMeshAcc,
  let r := fold_left set_mesh_step prims acc in
  flat_vertices r = flat_vertices acc ++ flat_map vertex prims /\
  length (prim_ranges r) = (length (prim_ranges acc) + length prims)%nat /\
  (forall j, (j < length (prim_ranges acc))%nat -> prim_ranges r !! j = prim_ranges acc !! j) /\
  (Forall (fun prim => index prim = []) prims ->
     flat_indices_u32 r = flat_indices_u32 acc /\
     forall j p, (length (prim_ranges acc) <= j)%nat -> prim_ranges r !! j = Some p ->
       index_count p = 0).
Proof.
  induction prims as [|prim prims IH]; intros acc; cbn zeta.
  - simpl. rewrite app_nil_r. split; [reflexivity|]. split; [lia|].
    split; [reflexivity|].
    intros _. split; [reflexivity|]. intros j p Hj Hp.
    apply lookup_lt_Some in Hp. lia.
  - change (fold_left set_mesh_step (prim :: prims) acc)
      with (fold_left set_mesh_step prims (set_mesh_step acc prim)).
    destruct (set_mesh_step_fields acc prim) as (F1 & F2 & F3 & F4).
    destruct (IH (set_mesh_step acc prim)) as (I1 & I2 & I3 & I4).
    split; [rewrite I1, F1, <- app_assoc; reflexivity|].
    split; [rewrite I2, F2; simpl; lia|].
    split; [intros j Hj; rewrite I3 by lia; apply F3; exact Hj|].
    intros Hall. inversion Hall as [|? ? Hp Hrest]; subst.
    destruct (F4 Hp) as [Ff (p0 & Hr & Hc)]. destruct (I4 Hrest) as [J1 J2].
    split; [rewrite J1, Ff; reflexivity|].
    intros j p Hj Hjp.
    destruct (decide (j = length (prim_ranges acc))) as [->|Hne].
    + rewrite I3 in Hjp by lia. rewrite Hr, lookup_app_r, Nat.sub_diag in Hjp by lia.
      simpl in Hjp. injection Hjp as <-. exact Hc.
    + apply (J2 j p); [lia | exact Hjp].
Qed.

Lemma buffer_created_other (log : list Effect) (b b' : BufferId) (l : string) (p : Payload) :
  b <> b' -> buffer_created (log ++ [ECreateBuffer b' l p]) b = buffer_created log b.
Proof.
  intros Hne. unfold buffer_created. rewrite fold_left_app. simpl.
  destruct (Nat.eqb_spec b b'); [contradiction | reflexivity].
Qed.

(** X4. set_mesh always returns the next handle, the old mesh count. It
    appends one mesh named after the key, with one range per input primitive.
    It maps the name to the new handle, leaves the other meshes and the
    material and texture caches unchanged, and creates a vertex buffer holding
    all vertices concatenated. *)
Theorem set_mesh_appends (prims : list Primitive) (nm : string) (st : AssetManager) :
  let st' := outcome_state (set_mesh prims nm st) in
  set_mesh prims nm st = Done (length (meshes st)) st' /\
  length (meshes st') = S (length (meshes st)) /\
  (forall j, (j < length (meshes st))%nat -> meshes st' !! j = meshes st !! j) /\
  meshes_by_name st' = <[nm := length (meshes st)]> (meshes_by_name st) /\
  mat_by_name st' = mat_by_name st /\ mat_free st' = mat_free st /\
  tex_by_key st' = tex_by_key st /\ tex_by_mat st' = tex_by_mat st /\
  exists mesh, meshes st' !! length (meshes st) = Some mesh /\ name mesh = Some nm /\
    length (primitives mesh) = length prims /\
    vertex_buf mesh = next_object st /\
    buffer_created (gpu_log st') (vertex_buf mesh) = Some (PVertices (flat_map vertex prims)).
Proof.
  cbv zeta. unfold set_mesh.
  destruct (set_mesh_fold_fields prims set_mesh_init) as (Hfv & Hlen & _ & _).
  fold (set_mesh_loop prims) in Hfv, Hlen. simpl in Hfv, Hlen.
  set (acc := set_mesh_loop prims) in *. clearbody acc.
  destruct (flat_indices_u32 acc) as [|i0 rest] eqn:Ef;
    [|destruct (can_u16 (acc_base_vertex acc) (i0 :: rest)) eqn:Ec];
    cbv [mbind mret create_buffer_init device_create meshes_insert mmodify outcome_state];
    simpl; rewrite length_app; simpl;
    (split; [reflexivity|]); (split; [lia|]);
    (split; [intros j Hj; apply lookup_app_l; exact Hj|]);
    (split; [reflexivity|]); do 4 (split; [reflexivity|]);
    eexists; (split; [rewrite lookup_app_r, Nat.sub_diag by lia; reflexivity|]); simpl;
    (split; [reflexivity|]); (split; [exact Hlen|]); (split; [reflexivity|]); rewrite Hfv.
  - apply buffer_created_last.
  - rewrite ?app_assoc, buffer_created_other by lia. apply buffer_created_last.
  - rewrite ?app_assoc, buffer_created_other by lia. apply buffer_created_last.
Qed.

(** X5. When no primitive has triangles, set_mesh creates only the vertex
    buffer and no index buffer. The new mesh has no index buffer or index
    format, an index count of 0, and every range has an index count of 0. *)
Theorem set_mesh_without_triangles (prims : list Primitive) (nm : string) (st : AssetManager) :
  Forall (fun prim => index prim = []) prims ->
  let st' := outcome_state (set_mesh prims nm st) in
  next_object st' = S (next_object st) /\
  gpu_log st' = gpu_log st ++ [ECreateBuffer (next_object st) ("mesh:" +:+ nm +:+ ":vertex")
                                 (PVertices (flat_map vertex prims))] /\
  exists mesh, meshes st' = meshes st ++ [mesh] /\
    index_buf mesh = None /\ index_format mesh = None /\ mesh_index_count mesh = 0 /\
    Forall (fun p => index_count p = 0) (primitives mesh).
Proof.
  intros Hall. cbv zeta. unfold set_mesh.
  destruct (set_mesh_fold_fields prims set_mesh_init) as (Hfv & _ & _ & Hnt).
  destruct (Hnt Hall) as [Hf Hc].
  fold (set_mesh_loop prims) in Hfv, Hf, Hc. simpl in Hfv, Hf, Hc.
  set (acc := set_mesh_loop prims) in *. clearbody acc. rewrite Hf.
  cbv [mbind mret create_buffer_init device_create meshes_insert mmodify outcome_state].
  simpl. split; [reflexivity|]. split; [rewrite Hfv; reflexivity|].
  eexists. split; [reflexivity|]. simpl.
  split; [reflexivity|]. split; [reflexivity|]. split; [reflexivity|].
  apply Forall_lookup. intros j p Hp. apply (Hc j p); [lia | exact Hp].
Qed.

Lemma rewrite_flat_range (prims : list Primitive) : forall fv flat bv,
  Forall (fun a => 0 <= a < 2 ^ 32) flat ->
  Forall (fun a => 0 <= a < 2 ^ 32) (fold_left rewrite_flat_step prims (fv, flat, bv)).1.2.
Proof.
  induction prims as [|prim prims IH]; intros fv flat bv Hf; [exact Hf|].
  change (fold_left rewrite_flat_step (prim :: prims) (fv, flat, bv))
    with (fold_left rewrite_flat_step prims (rewrite_flat_step (fv, flat, bv) prim)).
  unfold rewrite_flat_step at 2. apply IH.
  destruct (index prim) as [|i ix] eqn:E; [exact Hf|].
  apply Forall_app; split; [exact Hf|]. rewrite offset_indices_map.
  apply Forall_forall. intros a Ha. apply list_elem_of_In, in_map_iff in Ha as (x & <- & _).
  apply u32_wrap_range.
Qed.

Lemma map_as_u16_id (l : list Z) :
  Forall (fun a => 0 <= a) l -> map as_u16 l = l <-> Forall (fun a => a < 65536) l.
Proof.
  induction l as [|a l IH]; intros Hl; simpl.
  - split; [constructor | reflexivity].
  - inversion Hl as [|? ? Ha Hl']; subst. split.
    + intros E. injection E as E1 E2. constructor; [|apply IH; assumption].
      rewrite <- E1. unfold as_u16. apply Z.mod_pos_bound. lia.
    + intros Hf. inversion Hf as [|? ? Hb Hf']; subst.
      rewrite as_u16_id by lia. f_equal. apply IH; assumption.
Qed.

(** X6. For a mesh stored with 16-bit indices, rewrite_mesh writes the new
    vertices, then the flattened indices cast to u16, both at offset 0 of the
    existing buffers. The cast leaves the indices unchanged exactly when they
    are all below 65536; larger indices are silently truncated. *)
Theorem rewrite_mesh_u16_indices (mesh_id : nat) (prims : list Primitive)
    (st st' : AssetManager) u (mesh : Mesh) (ib : BufferId) :
  meshes st !! mesh_id = Some mesh -> index_buf mesh = Some ib ->
  index_format mesh = Some Uint16 ->
  rewrite_mesh mesh_id prims st = Done u st' ->
  let flat := (fold_left rewrite_flat_step prims ([], [], 0)).1.2 in
  gpu_log st' = gpu_log st ++
    [EWriteBuffer (vertex_buf mesh) 0 (PVertices (flat_map vertex prims));
     EWriteBuffer ib 0 (PIndexU16 (map as_u16 flat))] /\
  (map as_u16 flat = flat <-> Forall (fun a => a < 65536) flat).
Proof.
  intros Hm Hib Hfmt H. cbv zeta.
  destruct (rewrite_flat_fold prims [] [] 0 ltac:(lia)) as (post & Hf & _).
  rewrite !app_nil_l, Z.add_0_l in Hf. rewrite Hf. simpl.
  pose proof (rewrite_flat_range prims [] [] 0 (List.Forall_nil _)) as Hr.
  rewrite Hf in Hr. simpl in Hr.
  split.
  - rewrite (rewrite_mesh_unfold mesh_id prims st mesh post Hm Hf) in H.
    destruct (negb _); [discriminate|]. destruct (negb _); [discriminate|].
    rewrite Hib, Hfmt in H.
    cbv [mbind write_buffer gpu_call mret update_mesh mmodify] in H.
    injection H as <- <-. simpl. rewrite <- app_assoc. reflexivity.
  - apply map_as_u16_id. apply (Forall_impl _ _ _ Hr). intros a Ha; lia.
Qed.

Lemma ext_modify (g : AssetManager -> AssetManager) :
  (forall s, gpu_log (g s) = gpu_log s) -> Extends (mmodify g).
Proof. intros Hg s. exists []. simpl. rewrite Hg, app_nil_r. reflexivity. Qed.

Lemma ext_device_create mk : Extends (device_create mk).
Proof. intros s. eexists. reflexivity. Qed.

Lemma ext_panic {A} msg : Extends (@mpanic _ A msg).
Proof. intros s. exists []. rewrite app_nil_r. reflexivity. Qed.

Ltac ext_with t :=
  repeat (first
    [ t
    | apply ext_bind; [| intros ?; cbv beta]
    | apply ext_ret | apply ext_get | apply ext_panic | apply ext_expect
    | apply ext_modify; intros; reflexivity
    | apply ext_device_create | apply ext_gpu_call
    | progress unfold importer_call, create_buffer_init, write_buffer, update_mesh
    | match goal with |- Extends (match ?x with _ => _ end) => destruct x end ]).

Lemma ext_get_sampler key : Extends (get_sampler key).
Proof. unfold get_sampler. ext_with fail. Qed.

Lemma ext_get_texture key fmt : Extends (get_texture key fmt).
Proof. unfold get_texture. ext_with ltac:(apply ext_get_sampler). Qed.

Lemma ext_map_texture_unwrap path o fmt : Extends (map_texture_unwrap path o fmt).
Proof. unfold map_texture_unwrap. destruct o; [apply ext_get_texture | apply ext_panic]. Qed.

Lemma ext_done {A} (m : AM A) s a s' :
  Extends m -> m s = Done a s' -> exists r, gpu_log s' = gpu_log s ++ r.
Proof. intros He E. destruct (He s) as [r Hr]. rewrite E in Hr. exists r. exact Hr. Qed.

Lemma importer_call_done {A} (e : Effect) (g : GltfImporter -> option A) msg s a s' :
  importer_call e g msg s = Done a s' ->
  s' = set_gpu (next_object s) (gpu_log s ++ [e]) s /\ g (importer s) = Some a.
Proof.
  cbv [importer_call mbind gpu_call mget expect mret mpanic]. simpl.
  destruct (g (importer s)); intros H; [injection H as <- <-; auto | discriminate].
Qed.

Lemma map_texture_unwrap_mat_buffer (path : string) (o : option nat) (fmt : TextureFormat) :
  Preserves mat_buffer (map_texture_unwrap path o fmt).
Proof. apply map_texture_unwrap_pres; reflexivity. Qed.

(** A cache miss of [get_material] ends with the write of the uniform at
    the slot's offset in the material buffer. *)
Lemma get_material_miss_write (nm : string) (s s' : AssetManager) (i : nat) :
  mat_by_name s !! nm = None -> get_material nm s = Done i s' ->
  exists m pre, load_material (importer s) (split_key nm).1 (split_key nm).2 = Some m /\
    gpu_log s' = gpu_log s ++ pre ++
      [EWriteBuffer (mat_buffer s) (Z.of_nat i * size_of_MaterialUniform)
         (PMaterial (material_uniform_of m))] /\
    mat_buffer s' = mat_buffer s.
Proof.
  intros Hmiss H. unfold get_material in H. inv_all H.
  - pose proof (eq_trans (eq_sym Hmiss) Heqo). discriminate.
  - destruct (importer_call_done _ _ _ _ _ _ E) as [-> Hload].
    destruct (ext_done _ _ _ _ (ext_map_texture_unwrap _ _ _) E0) as [r1 L1].
    destruct (ext_done _ _ _ _ (ext_map_texture_unwrap _ _ _) E1) as [r2 L2].
    destruct (ext_done _ _ _ _ (ext_map_texture_unwrap _ _ _) E2) as [r3 L3].
    destruct (ext_done _ _ _ _ (ext_map_texture_unwrap _ _ _) E3) as [r4 L4].
    pose proof (map_texture_unwrap_mat_buffer _ _ _ _ _ _ E0) as B1.
    pose proof (map_texture_unwrap_mat_buffer _ _ _ _ _ _ E1) as B2.
    pose proof (map_texture_unwrap_mat_buffer _ _ _ _ _ _ E2) as B3.
    pose proof (map_texture_unwrap_mat_buffer _ _ _ _ _ _ E3) as B4.
    exists x, ([EImportMaterial s0 o] ++ r1 ++ r2 ++ r3 ++ r4).
    split; [exact Hload|].
    unfold set_mat_by_name, set_gpu, set_tex_by_mat, set_mat_free. cbn [gpu_log mat_buffer].
    rewrite L4, L3, L2, L1, B4, B3, B2, B1. unfold set_gpu. cbn [gpu_log mat_buffer].
    rewrite <- !app_assoc. split; reflexivity.
Qed.

(** X7. Every free material slot lies in 1..MAX_MAT, from construction on, and
    get_material keeps it that way. On a cache miss, the uniform write lands
    at slot * size_of::<MaterialUniform>(). That offset is past slot 0 and
    ends inside the MAX_MAT-slot buffer. *)
Theorem material_writes_in_bounds :
  (forall imp n log, slots_in_range (AssetManager_new imp n log)) /\
  (forall nm st i st', slots_in_range st -> get_material nm st = Done i st' ->
     slots_in_range st' /\ mat_buffer st' = mat_buffer st /\
     (mat_by_name st !! nm = None ->
        exists m pre, gpu_log st' = gpu_log st ++ pre ++
          [EWriteBuffer (mat_buffer st) (Z.of_nat i * size_of_MaterialUniform)
             (PMaterial (material_uniform_of m))] /\
        size_of_MaterialUniform <= Z.of_nat i * size_of_MaterialUniform /\
        Z.of_nat i * size_of_MaterialUniform + size_of_MaterialUniform <=
          Z.of_nat MAX_MAT * size_of_MaterialUniform)).
Proof.
  split.
  - intros imp n log j Hj. destruct (AssetManager_new_fields imp n log) as (Hf & _).
    rewrite Hf in Hj. unfold mat_free_init in Hj.
    apply list_elem_of_In, in_rev, in_seq in Hj. unfold MAX_MAT in *. lia.
  - intros nm st i st' Hr H.
    destruct (mat_by_name st !! nm) as [h|] eqn:Ec.
    + rewrite (get_material_hit nm st h Ec) in H. injection H as <- <-.
      split; [exact Hr|]. split; [reflexivity | intros; discriminate].
    + destruct (get_material_miss nm st st' i Ec H) as [Hf _].
      destruct (get_material_miss_write nm st st' i Ec H) as (m & pre & _ & Hl & Hb).
      assert (Hi : (1 <= i < MAX_MAT)%nat).
      { apply Hr. rewrite Hf. apply elem_of_app. right. apply list_elem_of_singleton.
        reflexivity. }
      split; [intros j Hj; apply Hr; rewrite Hf; apply elem_of_app; left; exact Hj|].
      split; [exact Hb|]. intros _. exists m, pre. split; [exact Hl|].
      unfold size_of_MaterialUniform, MAX_MAT in *. lia.
Qed.

(** X8. While the free list is the reversed range k..MAX_MAT, a successful
    cache miss of get_material takes slot k. The free list becomes
    (k+1..MAX_MAT) reversed. From a fresh manager, materials therefore get
    slots 1, 2, 3, ... in order. *)
Theorem material_slots_in_order (k : nat) (nm : string) (st st' : AssetManager) (i : nat) :
  mat_free st = rev (seq k (MAX_MAT - k)) -> mat_by_name st !! nm = None ->
  get_material nm st = Done i st' ->
  i = k /\ mat_free st' = rev (seq (S k) (MAX_MAT - S k)).
Proof.
  intros Hf Hmiss H. destruct (get_material_miss nm st st' i Hmiss H) as [Hf' _].
  rewrite Hf in Hf'. destruct (MAX_MAT - k)%nat as [|n] eqn:En.
  - simpl in Hf'. destruct (mat_free st'); discriminate.
  - rewrite <- cons_seq in Hf'. simpl in Hf'. apply app_inj_tail in Hf' as [H1 H2].
    split; [congruence|]. rewrite <- H1. f_equal. f_equal. lia.
Qed.

Lemma set_gpu_same (s : AssetManager) : set_gpu (next_object s) (gpu_log s ++ []) s = s.
Proof. destruct s. unfold set_gpu. simpl. rewrite app_nil_r. reflexivity. Qed.

Lemma gpu_calls_done (es : list Effect) : forall s,
  gpu_calls es s = Done tt (set_gpu (next_object s) (gpu_log s ++ es) s).
Proof.
  induction es as [|e es IH]; intros s; simpl.
  - rewrite set_gpu_same. reflexivity.
  - cbv [mbind gpu_call]. rewrite IH. unfold set_gpu. simpl. rewrite <- app_assoc. reflexivity.
Qed.

(** X9. For each command in turn, the draw loop of render sets the mesh's
    vertex buffer. When the mesh has both an index buffer and a format, it
    then sets the index buffer and issues set_bind_group and draw_indexed for
    each range. It panics with "mesh not found" at the first command whose
    mesh handle is absent; the calls for the commands before it have been
    recorded. *)
Theorem draw_commands_log (g : nat) (s : AssetManager) :
  (forall action, Forall (fun c => is_Some (meshes s !! mesh_id c)) action ->
     draw_commands g action s =
       Done tt (set_gpu (next_object s)
                  (gpu_log s ++ flat_map (command_effects (meshes s) g) action) s)) /\
  (forall pre c post, Forall (fun c => is_Some (meshes s !! mesh_id c)) pre ->
     meshes s !! mesh_id c = None ->
     draw_commands g (pre ++ c :: post) s =
       Panic "mesh not found" (set_gpu (next_object s)
                  (gpu_log s ++ flat_map (command_effects (meshes s) g) pre) s)).
Proof.
  assert (Step : forall c rest t, meshes t = meshes s -> forall mesh,
     meshes s !! mesh_id c = Some mesh ->
     draw_commands g (c :: rest) t =
     draw_commands g rest (set_gpu (next_object t) (gpu_log t ++ command_effects (meshes s) g c) t)).
  { intros c rest t Ht mesh Hm. unfold command_effects. rewrite Hm.
    cbn [draw_commands]. cbv [mbind mget expect mret gpu_call]. rewrite Ht, Hm.
    unfold mesh_draw_effects.
    destruct (index_buf mesh) as [ib|]; [destruct (index_format mesh) as [fmt|]|];
      try rewrite gpu_calls_done; unfold set_gpu; simpl;
      rewrite <- ?app_assoc; reflexivity. }
  assert (Gen : forall pre t, meshes t = meshes s ->
     Forall (fun c => is_Some (meshes s !! mesh_id c)) pre ->
     forall rest, draw_commands g (pre ++ rest) t =
       draw_commands g rest (set_gpu (next_object t)
         (gpu_log t ++ flat_map (command_effects (meshes s) g) pre) t)).
  { induction pre as [|c pre IH]; intros t Ht Hall rest.
    - simpl. rewrite set_gpu_same. reflexivity.
    - inversion Hall as [|? ? [mesh Hm] Hall']; subst.
      simpl app. rewrite (Step c (pre ++ rest) t Ht mesh Hm).
      rewrite IH by assumption. unfold set_gpu. simpl. rewrite <- app_assoc. reflexivity. }
  split.
  - intros action Hall. rewrite <- (app_nil_r action), (Gen action s eq_refl Hall []).
    rewrite app_nil_r. reflexivity.
  - intros pre c post Hall Hc. rewrite (Gen pre s eq_refl Hall (c :: post)).
    simpl. cbv [mbind mget expect mpanic]. simpl. rewrite Hc. reflexivity.
Qed.

Lemma material_ids_MAX_MAT (m : nat) :
  (m < MAX_MAT)%nat -> material_ids MAX_MAT !! m = Some (Z.of_nat m).
Proof.
  intros Hm. unfold material_ids.
  replace (Z.to_nat (u32_wrap (Z.of_nat MAX_MAT))) with MAX_MAT by reflexivity.
  rewrite list_lookup_fmap, lookup_seq_lt by exact Hm. reflexivity.
Qed.

(** X10. When every range's material is below MAX_MAT, each bind-group call of
    the draw loop binds group 3 with a single dynamic offset. The offset is a
    multiple of size_of::<MatId>(), lies inside the buffer create_material_id
    allocates, and selects the MatId entry whose id is that range's material.
    *)
Theorem draw_material_binding (g : nat) (ps : list PrimitiveRange) :
  Forall (fun p => (range_material p < MAX_MAT)%nat) ps ->
  forall slot g' offs, ESetBindGroup slot g' offs ∈ draw_primitives g ps ->
  slot = 3%nat /\ g' = g /\ exists p off, p ∈ ps /\ offs = [off] /\
    off mod size_of_MatId = 0 /\ 0 <= off /\
    off + size_of_MatId <= material_id_buffer_size MAX_MAT /\
    material_ids MAX_MAT !! Z.to_nat (off / size_of_MatId) = Some (Z.of_nat (range_material p)).
Proof.
  intros Hall slot g' offs Hin. unfold draw_primitives in Hin.
  apply list_elem_of_In, in_flat_map in Hin as (p & Hp & Hin).
  apply list_elem_of_In in Hp.
  assert (Hm : (range_material p < MAX_MAT)%nat) by (rewrite Forall_forall in Hall; exact (Hall p Hp)).
  destruct Hin as [Hin | [Hin | []]].
  2: { unfold draw_call_of in Hin. discriminate. }
  injection Hin as H1 H2 H3. subst slot g' offs. split; [reflexivity|]. split; [reflexivity|].
  exists p, (Z.of_nat (range_material p) * size_of_MatId).
  assert (Hw : u32_wrap (Z.of_nat (range_material p) * size_of_MatId) =
               Z.of_nat (range_material p) * size_of_MatId).
  { apply u32_wrap_id. unfold size_of_MatId, MAX_MAT in *. lia. }
  rewrite Hw. split; [exact Hp|]. split; [reflexivity|].
  split; [unfold size_of_MatId; apply Z_mod_mult|].
  split; [unfold size_of_MatId; lia|].
  split; [replace (material_id_buffer_size MAX_MAT) with (Z.of_nat MAX_MAT * size_of_MatId)
            by reflexivity; unfold size_of_MatId, MAX_MAT in *; lia|].
  rewrite Z.div_mul by (unfold size_of_MatId; lia). rewrite Nat2Z.id.
  apply material_ids_MAX_MAT. exact Hm.
Qed.

Lemma parse_usize_digits_pretty_N_go (x : N) : forall s acc, exists k,
  (acc * 10 ^ k + x <= usize_MAX)%N ->
  parse_usize_digits (pretty_N_go x s) acc = parse_usize_digits s (acc * 10 ^ k + x)%N.
Proof.
  induction (N.lt_wf_0 x) as [x _ IH]. intros s acc.
  destruct (decide (x = 0)%N) as [->|Hx].
  - exists 0%N. intros _. rewrite pretty_N_go_0. f_equal. lia.
  - rewrite pretty_N_go_step by lia.
    destruct (IH (x `div` 10)%N ltac:(apply N.div_lt; lia)
                (String (pretty_N_char (x `mod` 10)) s) acc) as [k Hk].
    exists (N.succ k). intros Hb.
    pose proof (N.div_mod x 10 ltac:(lia)) as Hdm.
    pose proof (N.mod_lt x 10 ltac:(lia)) as Hlt.
    assert (Hpow : (10 ^ N.succ k = 10 ^ k * 10)%N) by (rewrite N.pow_succ_r'; lia).
    rewrite Hk; cycle 1.
    { rewrite Hpow in Hb. set (P := (10 ^ k)%N) in *. set (q := (x `div` 10)%N) in *.
      rewrite N.mul_assoc in Hb. set (AP := (acc * P)%N) in *. clearbody AP q P. clear - Hb Hdm. generalize dependent (x `mod` 10)%N. intros. lia. }
    simpl parse_usize_digits.
    destruct (pretty_N_char_digit (x `mod` 10)%N Hlt) as [H1 H2].
    apply andb_prop in H1 as [H1a H1b]. apply Nat.leb_le in H1a, H1b.
    replace ((48 <=? N.of_nat (Ascii.nat_of_ascii (pretty_N_char (x `mod` 10))))%N &&
             (N.of_nat (Ascii.nat_of_ascii (pretty_N_char (x `mod` 10))) <=? 57)%N) with true
      by (symmetry; apply andb_true_intro; split; apply N.leb_le; lia).
    replace ((acc * 10 ^ k + x `div` 10) * 10 +
             (N.of_nat (Ascii.nat_of_ascii (pretty_N_char (x `mod` 10))) - 48))%N
      with (acc * 10 ^ N.succ k + x)%N by lia.
    replace ((acc * 10 ^ N.succ k + x <=? usize_MAX)%N) with true
      by (symmetry; apply N.leb_le; exact Hb).
    reflexivity.
Qed.

Lemma parse_usize_pretty (i : nat) :
  (Z.of_nat i < 2 ^ 64) -> parse_usize (pretty i) = Some (N.of_nat i).
Proof.
  intros Hi. unfold pretty, pretty_nat, pretty, pretty_N.
  destruct (decide (N.of_nat i = 0)%N) as [H0|H0].
  - rewrite H0. reflexivity.
  - destruct (parse_usize_digits_pretty_N_go (N.of_nat i) EmptyString 0) as [k Hk].
    rewrite N.mul_0_l, N.add_0_l in Hk.
    assert (Hd : parse_usize_digits (pretty_N_go (N.of_nat i) EmptyString) 0 = Some (N.of_nat i)).
    { rewrite Hk by (unfold usize_MAX; lia). reflexivity. }
    assert (Hne : pretty_N_go (N.of_nat i) EmptyString <> EmptyString).
    { rewrite pretty_N_go_step by lia. apply pretty_N_go_nonempty. discriminate. }
    destruct (pretty_N_go (N.of_nat i) EmptyString) as [|c r]; [contradiction|].
    unfold parse_usize. destruct (Ascii.eqb_spec c "+") as [->|Hc]; [|exact Hd].
    discriminate Hd.
Qed.

(** X12. select_mesh and select_material take the entry at index n when the
    selector parses as a usize n, and fail if n is out of range. A selector
    that does not parse takes the first entry with that name. No selector
    takes the first entry; with an empty list the call fails. *)
Theorem select_entity_spec (names : list (option string)) (s : string) (j : nat) :
  (parse_usize s = None ->
     (select_entity names (Some s) = Some j <->
      names !! j = Some (Some s) /\ forall j', (j' < j)%nat -> names !! j' <> Some (Some s))) /\
  (forall k, parse_usize s = Some k ->
     (select_entity names (Some s) = Some j <-> N.of_nat j = k /\ (j < length names)%nat)) /\
  (select_entity names None = Some j <-> j = 0%nat /\ names <> []).
Proof.
  split; [|split].
  - intros Hp. unfold select_entity. rewrite Hp.
    destruct (list_find (fun n => n = Some s) names) as [[i x]|] eqn:Hf; simpl.
    + apply list_find_Some in Hf as (Hi & -> & Hmin). split.
      * intros [= <-]. split; [exact Hi|]. intros j' Hj' Hl. exact (Hmin j' _ Hl Hj' eq_refl).
      * intros [Hj Hjmin]. f_equal.
        destruct (Nat.lt_trichotomy i j) as [Hlt|[Heq|Hgt]]; [|exact Heq|].
        -- exfalso. exact (Hjmin i Hlt Hi).
        -- exfalso. exact (Hmin j _ Hj Hgt eq_refl).
    + split; [discriminate|]. intros [Hj _].
      apply list_find_None in Hf. rewrite Forall_lookup in Hf. destruct (Hf j _ Hj eq_refl).
  - intros k Hp. unfold select_entity. rewrite Hp.
    destruct (N.ltb_spec k (N.of_nat (length names))); split.
    + intros [= <-]. split; lia.
    + intros [<- _]. rewrite Nat2N.id. reflexivity.
    + discriminate.
    + intros [<- Hj]. lia.
  - unfold select_entity. destruct names; split.
    + discriminate.
    + intros [_ []]; reflexivity.
    + intros [= <-]. split; [reflexivity|discriminate].
    + intros [-> _]. reflexivity.
Qed.

(** X13. A key built as format!("{}#{}", path, i), with i below 2^64, selects
    entry i by index when it exists, even if some entry is named like a
    number; otherwise the selection fails. *)
Theorem select_entity_key_of (names : list (option string)) (nm : string) (i : nat) :
  (Z.of_nat i < 2 ^ 64) ->
  select_entity names (snd (split_key (key_of (fst (split_key nm)) i))) =
  if (i <? length names)%nat then Some i else None.
Proof.
  intros Hi. destruct (split_key_parts nm) as [Hp _].
  rewrite (split_key_key_of _ i Hp). simpl. rewrite (parse_usize_pretty i Hi).
  destruct (Nat.ltb_spec i (length names)).
  - replace ((N.of_nat i <? N.of_nat (length names))%N) with true by (symmetry; apply N.ltb_lt; lia).
    rewrite Nat2N.id. reflexivity.
  - replace ((N.of_nat i <? N.of_nat (length names))%N) with false by (symmetry; apply N.ltb_ge; lia).
    reflexivity.
Qed.

Lemma chunks3_tri (l : list Z) :
  flat_map (fun i => let '(a, b, c) := idx i in [a; b; c]) (tri_indices l) =
    firstn (3 * (length l / 3)) l /\
  length (tri_indices l) = (length l / 3)%nat.
Proof.
  unfold tri_indices.
  induction l as [l IH] using (induction_ltof1 _ (@length Z)); unfold ltof in IH.
  destruct l as [|a [|b [|c rest]]]; [split; reflexivity..|].
  simpl chunks3. simpl List.filter. simpl map. simpl flat_map.
  destruct (IH rest ltac:(simpl; lia)) as [IH1 IH2].
  rewrite IH1. simpl length. rewrite IH2.
  replace (S (S (S (length rest)))) with (length rest + 1 * 3)%nat by lia.
  rewrite Nat.div_add by lia.
  replace (3 * (length rest / 3 + 1))%nat with (S (S (S (3 * (length rest / 3)))))%nat by lia.
  split; [reflexivity|lia].
Qed.

Lemma option_collect_Some {A} (l : list (option A)) (xs : list A) :
  option_collect l = Some xs <-> l = map Some xs.
Proof.
  revert xs. induction l as [|[x|] l IH]; intros xs; simpl.
  - split; [intros [= <-]; reflexivity | destruct xs; [reflexivity | discriminate]].
  - destruct (option_collect l) as [ys|] eqn:E.
    + split.
      * intros [= <-]. simpl. f_equal. apply IH. reflexivity.
      * destruct xs as [|x' xs]; [discriminate|]. intros [= -> Hl].
        apply IH in Hl. congruence.
    + split; [discriminate|]. destruct xs as [|x' xs]; [discriminate|].
      intros [= -> Hl]. apply IH in Hl. congruence.
  - split; [discriminate|]. destruct xs; discriminate.
Qed.

Lemma option_collect_map_seq {A} (f : nat -> option A) (n : nat) :
  (is_Some (option_collect (map f (seq 0 n))) <-> forall i, (i < n)%nat -> is_Some (f i)) /\
  (forall xs, option_collect (map f (seq 0 n)) = Some xs ->
     length xs = n /\ forall i, (i < n)%nat -> f i = xs !! i).
Proof.
  assert (Hxs : forall xs, option_collect (map f (seq 0 n)) = Some xs ->
     length xs = n /\ forall i, (i < n)%nat -> f i = xs !! i).
  { intros xs Hc. apply option_collect_Some in Hc.
    assert (Hl : length xs = n).
    { rewrite <- (length_map Some xs), <- Hc, length_map, length_seq. reflexivity. }
    split; [exact Hl|]. intros i Hi.
    assert (H1 : map f (seq 0 n) !! i = Some (f i)).
    { rewrite list_lookup_fmap, lookup_seq_lt by exact Hi. reflexivity. }
    rewrite Hc, list_lookup_fmap in H1.
    destruct (xs !! i); simpl in H1; congruence. }
  split; [|exact Hxs]. split.
  - intros [xs Hc] i Hi. destruct (Hxs xs Hc) as [_ H]. rewrite (H i Hi).
    apply lookup_lt_is_Some. apply Hxs in Hc as [-> _]. exact Hi.
  - clear Hxs. intros Hf. induction n as [|n IH]; [exists []; reflexivity|].
    rewrite seq_S, map_app. simpl.
    destruct (IH ltac:(intros i Hi; apply Hf; lia)) as [xs Hc].
    destruct (Hf n ltac:(lia)) as [x Hx]. rewrite Hx.
    exists (xs ++ [x]). apply option_collect_Some. apply option_collect_Some in Hc.
    rewrite Hc, map_app. reflexivity.
Qed.

Lemma load_vertex_Some ps uvs normals tangents i v :
  load_vertex ps uvs normals tangents i = Some v ->
  ps !! i = Some (position v) /\ uvs !! i = Some (uv v) /\
  normals !! i = Some (normal v) /\ tangents !! i = Some (tangent v).
Proof.
  unfold load_vertex.
  destruct (ps !! i), (uvs !! i), (normals !! i), (tangents !! i); try discriminate.
  intros [= <-]. repeat split.
Qed.

Lemma load_vertex_is_Some ps uvs normals tangents i :
  is_Some (load_vertex ps uvs normals tangents i) <->
  (i < length ps /\ i < length uvs /\ i < length normals /\ i < length tangents)%nat.
Proof.
  rewrite <- !lookup_lt_is_Some. unfold load_vertex.
  destruct (ps !! i), (uvs !! i), (normals !! i), (tangents !! i); naive_solver.
Qed.

Lemma cover_one {A} (o : option (list A)) (d : list A) (n : nat) :
  length d = n ->
  ((forall l, o = Some l -> n <= length l)%nat <-> (n <= length (unwrap_or o d))%nat).
Proof.
  intros Hd. destruct o as [l|]; simpl; split.
  - intros H. apply H. reflexivity.
  - intros H l' [= <-]. exact H.
  - intros _. lia.
  - intros _ l' Hl'. discriminate.
Qed.

Lemma map_eq_take {A B} (g : A -> B) (xs : list A) (l : list B) (n : nat) :
  length xs = n ->
  (forall i, (i < n)%nat -> exists x, xs !! i = Some x /\ l !! i = Some (g x)) ->
  map g xs = take n l.
Proof.
  intros Hl H. apply list_eq. intros i. rewrite list_lookup_fmap.
  destruct (Nat.lt_ge_cases i n) as [Hi|Hi].
  - destruct (H i Hi) as (x & Hx & Hg). rewrite Hx, lookup_take_lt by exact Hi.
    symmetry. exact Hg.
  - rewrite lookup_take_ge by exact Hi.
    rewrite (proj2 (lookup_ge_None xs i)) by lia. reflexivity.
Qed.

(** X14. load_mesh fails on a primitive that is not a triangle list or has no
    positions. Otherwise loading succeeds exactly when each present normal, uv
    and tangent accessor is at least as long as the positions. The vertices
    then take the positions and the first n entries of each attribute, or its
    default. Triangles come from the indices, or from 0..n, and the material
    index is kept. *)
Theorem load_primitive_spec (gp : GltfPrimitive) :
  (gp_triangles gp = false -> load_primitive gp = None) /\
  (gp_positions gp = None -> load_primitive gp = None) /\
  (forall ps, gp_triangles gp = true -> gp_positions gp = Some ps ->
    let n := length ps in
    (is_Some (load_primitive gp) <-> attrs_cover n gp) /\
    forall prim, load_primitive gp = Some prim ->
      map position (vertex prim) = ps /\
      map normal (vertex prim) = take n (unwrap_or (gp_normals gp) (repeat (0.0, 1.0, 0.0)%float n)) /\
      map uv (vertex prim) = take n (unwrap_or (gp_uvs gp) (repeat (0.0, 0.0)%float n)) /\
      map tangent (vertex prim) =
        take n (unwrap_or (gp_tangents gp) (repeat (1.0, 0.0, 0.0, 1.0)%float n)) /\
      index prim = tri_indices (unwrap_or (gp_indices gp) (default_indices n)) /\
      material prim = gp_material gp).
Proof.
  split; [|split].
  - intros H. unfold load_primitive. rewrite H. reflexivity.
  - intros H. unfold load_primitive. destruct (negb (gp_triangles gp)); [reflexivity|].
    rewrite H. reflexivity.
  - intros ps Ht Hp n. unfold load_primitive. rewrite Ht, Hp. simpl negb. cbv iota.
    fold n.
    set (normals := unwrap_or (gp_normals gp) (repeat (0.0, 1.0, 0.0)%float n)).
    set (uvs := unwrap_or (gp_uvs gp) (repeat (0.0, 0.0)%float n)).
    set (tangents := unwrap_or (gp_tangents gp) (repeat (1.0, 0.0, 0.0, 1.0)%float n)).
    destruct (option_collect_map_seq (load_vertex ps uvs normals tangents) n) as [Hiff Hxs].
    assert (Hcov : attrs_cover n gp <->
              (n <= length uvs /\ n <= length normals /\ n <= length tangents)%nat).
    { unfold attrs_cover, normals, uvs, tangents.
      rewrite (cover_one (gp_normals gp) (repeat (0.0, 1.0, 0.0)%float n)), (cover_one (gp_uvs gp) (repeat (0.0, 0.0)%float n)), (cover_one (gp_tangents gp) (repeat (1.0, 0.0, 0.0, 1.0)%float n)) by apply repeat_length. tauto. }
    split.
    + rewrite Hcov. destruct (option_collect _) as [xs|] eqn:Hc.
      * split; [intros _|intros _; eexists; reflexivity].
        assert (Hall := proj1 Hiff ltac:(eexists; reflexivity)).
        destruct n as [|m] eqn:En; [lia|].
        destruct (proj1 (load_vertex_is_Some ps uvs normals tangents m) (Hall m ltac:(lia)))
          as (_ & H1 & H2 & H3). lia.
      * split; [intros [? ?]; discriminate|]. intros (H1 & H2 & H3).
        assert (Hs : is_Some (None : option (list Vertex))).
        { apply Hiff. intros i Hi. apply load_vertex_is_Some. unfold n in *. lia. }
        destruct Hs; discriminate.
    + intros prim Hprim.
      destruct (option_collect _) as [xs|] eqn:Hc; [|discriminate].
      injection Hprim as <-. simpl.
      destruct (Hxs xs eq_refl) as [Hl Hf].
      assert (Hv : forall i, (i < n)%nat -> exists v, xs !! i = Some v /\
                 ps !! i = Some (position v) /\ uvs !! i = Some (uv v) /\
                 normals !! i = Some (normal v) /\ tangents !! i = Some (tangent v)).
      { intros i Hi. pose proof (Hf i Hi) as Hfi.
        destruct (xs !! i) as [v|] eqn:Hxi; [|exfalso; apply lookup_ge_None in Hxi; lia].
        exists v. split; [reflexivity|]. apply load_vertex_Some. exact Hfi. }
      split; [|split; [|split; [|split; [|split]]]]; try reflexivity.
      * rewrite (map_eq_take position xs ps n Hl).
        -- apply take_ge. unfold n. lia.
        -- intros i Hi. destruct (Hv i Hi) as (v & ? & ? & _). eauto.
      * apply map_eq_take; [exact Hl|]. intros i Hi. destruct (Hv i Hi) as (v & ? & _ & _ & ? & _). eauto.
      * apply map_eq_take; [exact Hl|]. intros i Hi. destruct (Hv i Hi) as (v & ? & _ & ? & _). eauto.
      * apply map_eq_take; [exact Hl|]. intros i Hi. destruct (Hv i Hi) as (v & ? & _ & _ & _ & ?). eauto.
Qed.

(** X15. A loaded primitive holds the indices cut to a multiple of three, in
    order: the incomplete last triangle is dropped, leaving len/3 triangles.
    Without an index accessor, and with fewer than 2^32 positions, the indices
    are 0, 1, 2, ... up to 3*(n/3). *)
Theorem load_primitive_indices (gp : GltfPrimitive) (prim : Primitive) :
  load_primitive gp = Some prim ->
  exists ps, gp_positions gp = Some ps /\
  let indices := unwrap_or (gp_indices gp) (default_indices (length ps)) in
  local_indices prim = take (3 * (length indices / 3)) indices /\
  length (index prim) = (length indices / 3)%nat /\
  (gp_indices gp = None -> Z.of_nat (length ps) < 2 ^ 32 ->
     local_indices prim = map Z.of_nat (seq 0 (3 * (length ps / 3)))).
Proof.
  intros Hprim.
  destruct (gp_triangles gp) eqn:Ht;
    [|rewrite (proj1 (load_primitive_spec gp) Ht) in Hprim; discriminate].
  destruct (gp_positions gp) as [ps|] eqn:Hp;
    [|rewrite (proj1 (proj2 (load_primitive_spec gp)) Hp) in Hprim; discriminate].
  exists ps. split; [reflexivity|]. cbv zeta.
  destruct (proj2 (proj2 (load_primitive_spec gp)) ps Ht Hp) as [_ Hs].
  destruct (Hs prim Hprim) as (_ & _ & _ & _ & Hidx & _).
  unfold local_indices. rewrite Hidx.
  destruct (chunks3_tri (unwrap_or (gp_indices gp) (default_indices (length ps)))) as [H1 H2].
  split; [exact H1|]. split; [exact H2|].
  intros Hn Hlt. rewrite H1, Hn. simpl unwrap_or. unfold default_indices.
  rewrite u32_wrap_id by lia. rewrite Nat2Z.id, length_map, length_seq.
  rewrite firstn_map. f_equal. rewrite take_seq. f_equal. apply Nat.min_l, Nat.Div0.mul_div_le.
Qed.

Lemma set_mat_done (id i : nat) (m : MaterialId) (s s' : AssetManager) u :
  set_mat id i m s = Done u s' ->
  mat_by_name s' = mat_by_name s /\
  (forall j, j <> i -> range_at s' id j = range_at s id j) /\
  (forall id', id' <> id -> meshes s' !! id' = meshes s !! id') /\
  (exists r, range_at s' id i = Some r /\ range_material r = m) /\
  exists mesh mesh', meshes s !! id = Some mesh /\ meshes s' !! id = Some mesh' /\
    length (primitives mesh') = length (primitives mesh).
Proof.
  cbv [set_mat mbind mget]. destruct (meshes s !! id) as [mesh|] eqn:Hm; [|discriminate].
  destruct (Nat.ltb_spec i (length (primitives mesh))) as [Hi|]; [|discriminate].
  cbv [update_mesh mmodify]. intros H. injection H as _ <-.
  unfold range_at, set_meshes; simpl.
  destruct (lookup_lt_is_Some_2 _ _ Hi) as [p Hp].
  assert (Hid : <[id := {| name := name mesh; primitives := alter (fun p =>
               {| first_index := first_index p; index_count := index_count p;
                  base_vertex := base_vertex p; aabb_min := aabb_min p;
                  aabb_max := aabb_max p; range_material := m |}) i (primitives mesh);
             vertex_buf := vertex_buf mesh; index_buf := index_buf mesh;
             index_format := index_format mesh; vertex_count := vertex_count mesh;
             mesh_index_count := mesh_index_count mesh |}]> (meshes s) !! id = Some
             {| name := name mesh; primitives := alter (fun p =>
               {| first_index := first_index p; index_count := index_count p;
                  base_vertex := base_vertex p; aabb_min := aabb_min p;
                  aabb_max := aabb_max p; range_material := m |}) i (primitives mesh);
             vertex_buf := vertex_buf mesh; index_buf := index_buf mesh;
             index_format := index_format mesh; vertex_count := vertex_count mesh;
             mesh_index_count := mesh_index_count mesh |}).
  { apply list_lookup_insert_eq. apply lookup_lt_is_Some_1. eauto. }
  split; [reflexivity|]. split; [|split].
  - intros j Hj. rewrite Hid, Hm. simpl. apply list_lookup_alter_ne. congruence.
  - intros id' Hid'. apply list_lookup_insert_ne. congruence.
  - split.
    + rewrite Hid. simpl. rewrite list_lookup_alter, Hp. simpl.
      rewrite decide_True by reflexivity. eexists. split; reflexivity.
    + do 2 eexists. split; [reflexivity|]. split; [exact Hid|]. apply length_alter.
Qed.

Lemma get_material_meshes (nm : string) : Preserves meshes (get_material nm).
Proof. apply get_material_pres; reflexivity. Qed.

Lemma get_material_grows (nm : string) (s s' : AssetManager) (i : nat) :
  get_material nm s = Done i s' ->
  forall k v, mat_by_name s !! k = Some v -> mat_by_name s' !! k = Some v.
Proof.
  intros H k v Hk. destruct (mat_by_name s !! nm) as [h|] eqn:Hn.
  - rewrite (get_material_hit nm s h Hn) in H. injection H as _ <-. exact Hk.
  - destruct (get_material_miss nm s s' i Hn H) as [_ ->].
    rewrite lookup_insert_ne; [exact Hk|]. congruence.
Qed.

Lemma assign_materials_spec (id : nat) (path : string) (prims : list Primitive) :
  forall i s s', assign_materials id path prims i s = Done tt s' ->
  (forall k v, mat_by_name s !! k = Some v -> mat_by_name s' !! k = Some v) /\
  (forall j, (j < i \/ i + length prims <= j)%nat -> range_at s' id j = range_at s id j) /\
  (forall mesh, meshes s !! id = Some mesh -> exists mesh', meshes s' !! id = Some mesh' /\
     length (primitives mesh') = length (primitives mesh)) /\
  (forall j prim, prims !! j = Some prim -> exists r, range_at s' id (i + j) = Some r /\
     match material prim with
     | None => range_material r = 0%nat
     | Some mat => mat_by_name s' !! key_of path mat = Some (range_material r)
     end).
Proof.
  induction prims as [|prim rest IH]; intros i s s' H; simpl in H.
  - injection H as <-. split; [|split; [|split]]; [eauto|reflexivity|eauto|].
    intros j prim Hj. discriminate.
  - apply mbind_Done in H as (m & s1 & Hg & H).
    apply mbind_Done in H as (u & s2 & Hs & H).
    destruct (IH (S i) s2 s' H) as (IA & IB & ID & IC).
    destruct (set_mat_done id i m s1 s2 u Hs)
      as (Hmb & Hr & _ & (r & Hri & Hrm) & (m1 & m2 & Hm1 & Hm2 & Hl2)).
    assert (Hg' : (forall k v, mat_by_name s !! k = Some v -> mat_by_name s1 !! k = Some v) /\
                  meshes s1 = meshes s /\
                  match material prim with
                  | None => m = 0%nat
                  | Some mat => mat_by_name s1 !! key_of path mat = Some m
                  end).
    { destruct (material prim) as [mat|].
      - split; [exact (get_material_grows _ _ _ _ Hg)|].
        split; [exact (get_material_meshes _ _ _ _ Hg)|]. exact (get_material_post _ _ _ _ Hg).
      - injection Hg as <- <-. split; [eauto|]. split; reflexivity. }
    destruct Hg' as (GA & GB & GC).
    assert (Hrs : forall j, range_at s1 id j = range_at s id j)
      by (intros j; unfold range_at; rewrite GB; reflexivity).
    split; [|split; [|split]].
    + intros k v Hk. apply IA. rewrite Hmb. apply GA. exact Hk.
    + intros j Hj. simpl in Hj. rewrite IB by lia. rewrite Hr by lia. apply Hrs.
    + intros mesh Hmesh. rewrite GB, Hmesh in Hm1. injection Hm1 as <-.
      destruct (ID m2 Hm2) as (mesh' & Hm' & Hl'). exists mesh'. split; [exact Hm'|]. lia.
    + intros [|j] p Hj.
      * injection Hj as <-. exists r. rewrite Nat.add_0_r. split.
        -- rewrite IB by lia. exact Hri.
        -- destruct (material prim) as [mat|].
           ++ apply IA. rewrite Hmb, Hrm. exact GC.
           ++ rewrite Hrm. exact GC.
      * simpl in Hj. destruct (IC j p Hj) as (r' & Hr' & Hm').
        exists r'. split; [|exact Hm']. rewrite <- Hr'. f_equal. lia.
Qed.

(** X16. A successful cache miss of get_mesh imports the mesh and stores it at
    the next handle, with one range per imported primitive. Each range with no
    material gets material 0. Each range with material index m gets the slot
    cached for "path#m" in the material table. *)
Theorem get_mesh_materials (nm : string) (st st' : AssetManager) (id : nat) :
  meshes_by_name st !! nm = None -> get_mesh nm st = Done id st' ->
  let path := fst (split_key nm) in
  exists prims mesh,
    load_mesh (importer st) path (snd (split_key nm)) = Some prims /\
    id = length (meshes st) /\ meshes st' !! id = Some mesh /\
    length (primitives mesh) = length prims /\
    forall j prim, prims !! j = Some prim -> exists r,
      primitives mesh !! j = Some r /\
      match material prim with
      | None => range_material r = 0%nat
      | Some mat => mat_by_name st' !! key_of path mat = Some (range_material r)
      end.
Proof.
  intros Hmiss H. cbv zeta. unfold get_mesh in H.
  apply mbind_Done in H as (s0 & s0' & Hg & H). injection Hg as <- <-.
  rewrite Hmiss in H. destruct (split_key nm) as [path sel]. simpl.
  apply mbind_Done in H as (prims & s1 & Hi & H).
  apply mbind_Done in H as (id' & s2 & Hs & H).
  apply mbind_Done in H as (u & s3 & Ha & H). injection H as <- <-.
  destruct u.
  destruct (importer_call_done _ _ _ _ _ _ Hi) as [-> Hl].
  destruct (set_mesh_result _ _ _ _ _ Hs) as (Hid & _ & mesh0 & Hm0 & Hp0 & _).
  destruct (set_mesh_fold_fields prims set_mesh_init) as (_ & Hlen & _ & _).
  fold (set_mesh_loop prims) in Hlen. simpl in Hlen. rewrite <- Hp0 in Hlen.
  unfold set_gpu in Hid, Hm0. simpl in Hid, Hm0.
  assert (Hm2 : meshes s2 !! id' = Some mesh0).
  { rewrite Hm0, Hid, lookup_app_r, Nat.sub_diag by lia. reflexivity. }
  destruct (assign_materials_spec id' path prims 0 s2 s3 Ha) as (_ & _ & HD & HC).
  destruct (HD mesh0 Hm2) as (mesh & Hm3 & Hl3).
  exists prims, mesh. split; [exact Hl|]. split; [exact Hid|]. split; [exact Hm3|].
  split; [lia|].
  intros j prim Hj. destruct (HC j prim Hj) as (r & Hr & Hmat).
  exists r. unfold range_at in Hr. rewrite Hm3 in Hr. split; [exact Hr | exact Hmat].
Qed.

Lemma get_sampler_frame (key : string) (s s' : AssetManager) sid :
  get_sampler key s = Done sid s' ->
  textures s' = textures s /\ tex_by_key s' = tex_by_key s /\
  sampler_default s' = sampler_default s /\
  exists pre, gpu_log s' = gpu_log s ++ pre.
Proof.
  intros H.
  split; [apply (get_sampler_pres textures ltac:(reflexivity) ltac:(reflexivity)
                   ltac:(reflexivity) key s sid s' H)|].
  split; [apply (get_sampler_pres tex_by_key ltac:(reflexivity) ltac:(reflexivity)
                   ltac:(reflexivity) key s sid s' H)|].
  split; [apply (get_sampler_pres sampler_default ltac:(reflexivity) ltac:(reflexivity)
                   ltac:(reflexivity) key s sid s' H)|].
  destruct (ext_get_sampler key s) as [pre Hpre]. rewrite H in Hpre. eauto.
Qed.

Lemma get_texture_miss_done (key : string) (fmt : TextureFormat) (s s' : AssetManager) h :
  tex_by_key s !! (key, fmt) = None -> get_texture key fmt s = Done h s' ->
  exists path sel td sid t pre,
    split_path key = Some (path, sel) /\ load_texture (importer s) path sel = Some td /\
    h = length (textures s) /\
    textures s' = textures s ++ [{| tex := t; tex_view := S t; gpu_sampler := sid |}] /\
    tex_by_key s' = <[(key, fmt) := h]> (tex_by_key s) /\
    gpu_log s' = gpu_log s ++ EImportTexture path sel :: pre ++
                 [ECreateTexture t key fmt (width td) (height td) 1; ECreateView (S t) t] /\
    next_object s' = S (S t) /\
    match tex_sampler td with
    | None => sid = sampler_default s /\ pre = []
    | Some i => sampler_by_name s' !! key_of path i = Some sid
    end.
Proof.
  intros Hmiss H. unfold get_texture in H.
  apply mbind_Done in H as (s0 & s0' & Hg & H). injection Hg as <- <-.
  match type of H with
  | (match ?x with _ => _ end) _ = _ => replace x with (@None nat) in H by (symmetry; exact Hmiss)
  end.
  apply mbind_Done in H as (ps & s1 & He & H).
  unfold expect in He. destruct (split_path key) as [[path sel]|] eqn:Hsp; [|discriminate].
  injection He as <- <-. cbv beta iota in H.
  apply mbind_Done in H as (td & s2 & Hi & H).
  destruct (importer_call_done _ _ _ _ _ _ Hi) as [-> Hl].
  apply mbind_Done in H as (sid & s3 & Hsm & H).
  assert (Hs3 : textures s3 = textures s /\ tex_by_key s3 = tex_by_key s /\
                exists pre, gpu_log s3 = gpu_log s ++ EImportTexture path sel :: pre /\
                match tex_sampler td with
                | None => sid = sampler_default s /\ pre = []
                | Some i => sampler_by_name s3 !! key_of path i = Some sid
                end).
  { destruct (tex_sampler td) as [i|].
    - destruct (get_sampler_frame _ _ _ _ Hsm) as (H1 & H2 & _ & pre & H4).
      split; [exact H1|]. split; [exact H2|]. exists pre. split.
      + rewrite H4. unfold set_gpu. simpl. rewrite <- app_assoc. reflexivity.
      + exact (proj1 (get_sampler_post _ _ _ _ Hsm)).
    - cbv [mbind mget mret] in Hsm. injection Hsm as <- <-.
      split; [reflexivity|]. split; [reflexivity|]. exists []. split; [|split; reflexivity].
      reflexivity. }
  destruct Hs3 as (Ht3 & Hk3 & pre & Hl3 & Hsid).
  cbv [mbind device_create mget mmodify mret] in H. injection H as <- <-.
  exists path, sel, td, sid, (next_object s3), pre.
  unfold set_tex_by_key, set_textures, set_gpu. simpl.
  split; [reflexivity|]. split; [exact Hl|]. split; [rewrite Ht3; reflexivity|].
  split; [rewrite Ht3; reflexivity|]. split; [rewrite Hk3, Ht3; reflexivity|].
  split; [rewrite Hl3, <- !app_assoc; reflexivity|]. split; [reflexivity|].
  exact Hsid.
Qed.

(** X17. On a cache miss, get_texture panics if the key is not of the form
    path#n. Otherwise a successful call: imports the texture; gets its sampler
    (the default one when the texture names none); creates one texture and one
    view; appends them at the next handle; and caches that handle under the
    key and format. *)
Theorem get_texture_miss (key : string) (fmt : TextureFormat) (s : AssetManager) :
  tex_by_key s !! (key, fmt) = None ->
  (split_path key = None ->
     get_texture key fmt s = Panic "get_texture: key not valid! expected in form path#0" s) /\
  (forall h s', get_texture key fmt s = Done h s' ->
   exists path sel td sid t pre,
     split_path key = Some (path, sel) /\ load_texture (importer s) path sel = Some td /\
     h = length (textures s) /\
     textures s' = textures s ++ [{| tex := t; tex_view := S t; gpu_sampler := sid |}] /\
     tex_by_key s' = <[(key, fmt) := h]> (tex_by_key s) /\
     gpu_log s' = gpu_log s ++ EImportTexture path sel :: pre ++
                  [ECreateTexture t key fmt (width td) (height td) 1; ECreateView (S t) t] /\
     next_object s' = S (S t) /\
     match tex_sampler td with
     | None => sid = sampler_default s /\ pre = []
     | Some i => sampler_by_name s' !! key_of path i = Some sid
     end).
Proof.
  intros Hmiss. split.
  - intros Hsp. cbv [get_texture mbind mget expect]. rw_scrutinee Hmiss. rewrite Hsp. reflexivity.
  - intros h s'. apply get_texture_miss_done. exact Hmiss.
Qed.

Lemma get_texture_grows (key : string) (fmt : TextureFormat) (s s' : AssetManager) h :
  get_texture key fmt s = Done h s' ->
  forall k v, tex_by_key s !! k = Some v -> tex_by_key s' !! k = Some v.
Proof.
  intros H k v Hk. destruct (tex_by_key s !! (key, fmt)) as [h0|] eqn:Hc.
  - rewrite (get_texture_hit key fmt s h0 Hc) in H. injection H as _ <-. exact Hk.
  - destruct (get_texture_miss_done key fmt s s' h Hc H) as (? & ? & ? & ? & ? & ? & _ & _ & _ & _ & Hk' & _).
    rewrite Hk'.
    rewrite lookup_insert_ne; [exact Hk|]. congruence.
Qed.

Lemma map_texture_unwrap_done (path : string) (o : option nat) (fmt : TextureFormat) s s' h :
  map_texture_unwrap path o fmt s = Done h s' ->
  (exists info, o = Some info /\ tex_by_key s' !! (key_of path info, fmt) = Some h) /\
  (forall k v, tex_by_key s !! k = Some v -> tex_by_key s' !! k = Some v).
Proof.
  intros H. split.
  - destruct o as [info|]; [|discriminate]. exists info. split; [reflexivity|].
    exact (get_texture_post _ _ _ _ _ H).
  - destruct o as [info|]; [|discriminate]. exact (get_texture_grows _ _ _ _ _ H).
Qed.

(** X18. A successful cache miss of get_material imports a material that has
    all four texture references. Its texture group holds the handles cached
    for "path#t": sRGB for base color and emissive, linear for metallic-
    roughness and normal. The occlusion slot repeats the normal texture. *)
Theorem get_material_textures (nm : string) (s s' : AssetManager) (i : nat) :
  mat_by_name s !! nm = None -> get_material nm s = Done i s' ->
  let path := fst (split_key nm) in
  exists m g, load_material (importer s) path (snd (split_key nm)) = Some m /\
    tex_by_mat s' !! i = Some g /\ tg_occlusion g = tg_normal g /\
    (exists info, base_color_texture m = Some info /\
       tex_by_key s' !! (key_of path info, Rgba8UnormSrgb) = Some (tg_base_color g)) /\
    (exists info, metallic_roughness_texture m = Some info /\
       tex_by_key s' !! (key_of path info, Rgba8Unorm) = Some (tg_metallic_roughness g)) /\
    (exists info, normal_texture m = Some info /\
       tex_by_key s' !! (key_of path info, Rgba8Unorm) = Some (tg_normal g)) /\
    (exists info, emissive_texture m = Some info /\
       tex_by_key s' !! (key_of path info, Rgba8UnormSrgb) = Some (tg_emissive g)).
Proof.
  intros Hmiss H. cbv zeta. unfold get_material in H.
  apply mbind_Done in H as (s0 & s0' & Hg & H). injection Hg as <- <-.
  match type of H with
  | (match ?x with _ => _ end) _ = _ => replace x with (@None nat) in H by (symmetry; exact Hmiss)
  end.
  destruct (split_key nm) as [path sel]. simpl.
  apply mbind_Done in H as (m & s1 & Hi & H).
  destruct (importer_call_done _ _ _ _ _ _ Hi) as [-> Hl].
  apply mbind_Done in H as (b & s2 & E1 & H).
  apply mbind_Done in H as (mr & s3 & E2 & H).
  apply mbind_Done in H as (n & s4 & E3 & H).
  apply mbind_Done in H as (e & s5 & E4 & H).
  destruct (map_texture_unwrap_done _ _ _ _ _ _ E1) as ((i1 & O1 & K1) & G1).
  destruct (map_texture_unwrap_done _ _ _ _ _ _ E2) as ((i2 & O2 & K2) & G2).
  destruct (map_texture_unwrap_done _ _ _ _ _ _ E3) as ((i3 & O3 & K3) & G3).
  destruct (map_texture_unwrap_done _ _ _ _ _ _ E4) as ((i4 & O4 & K4) & G4).
  cbv [mbind mget expect mmodify write_buffer gpu_call mret] in H.
  destruct (vec_pop (mat_free s5)) as [[j rest]|]; [|discriminate].
  injection H as <- <-.
  unfold set_mat_by_name, set_gpu, set_tex_by_mat, set_mat_free. cbn [tex_by_mat tex_by_key].
  eexists m, _. split; [exact Hl|]. split; [apply lookup_insert_eq|]. split; [reflexivity|].
  simpl.
  split; [exists i1; split; [exact O1|]; apply G4, G3, G2, K1|].
  split; [exists i2; split; [exact O2|]; apply G4, G3, K2|].
  split; [exists i3; split; [exact O3|]; apply G4, K3|].
  exists i4. split; [exact O4|]. exact K4.
Qed.

Lemma set_mesh_without_triangles_witness :
  exists mesh,
    meshes (outcome_state (set_mesh point_primitives "points" scene_manager)) =
      meshes scene_manager ++ [mesh] /\ index_buf mesh = None /\ mesh_index_count mesh = 0.
Proof.
  destruct (set_mesh_without_triangles point_primitives "points" scene_manager)
    as (_ & _ & mesh & Hm & Hib & _ & Hc & _).
  - repeat constructor.
  - exists mesh. split; [exact Hm|]. split; [exact Hib | exact Hc].
Defined.

Lemma rewrite_mesh_u16_indices_witness :
  map as_u16 (fold_left rewrite_flat_step wide_cube_primitives ([], [], 0)).1.2 <>
  (fold_left rewrite_flat_step wide_cube_primitives ([], [], 0)).1.2.
Proof.
  pose (st1 := outcome_state (set_mesh cube_primitives "scene.gltf#Cube" scene_manager)).
  destruct (meshes st1 !! 0%nat) as [mesh|] eqn:Hm; [|vm_compute in Hm; discriminate].
  destruct (index_buf mesh) as [ib|] eqn:Hib;
    [|vm_compute in Hm; injection Hm as <-; discriminate].
  destruct (rewrite_mesh_u16_indices 0 wide_cube_primitives st1
              (outcome_state (rewrite_mesh 0 wide_cube_primitives st1)) tt mesh ib Hm Hib)
    as [_ Hiff].
  - vm_compute in Hm. injection Hm as <-. reflexivity.
  - vm_compute. reflexivity.
  - intros Heq. apply Hiff in Heq. rewrite Forall_lookup in Heq.
    assert (H8 : (fold_left rewrite_flat_step wide_cube_primitives ([], [], 0)).1.2 !! 8%nat
                 = Some 65536) by (vm_compute; reflexivity).
    specialize (Heq _ _ H8). lia.
Defined.

Lemma material_slots_in_order_witness :
  mat_free (outcome_state (get_material "scene.gltf#0" scene_manager)) =
    rev (seq 2 (MAX_MAT - 2)).
Proof.
  apply (material_slots_in_order 1 "scene.gltf#0" scene_manager
           (outcome_state (get_material "scene.gltf#0" scene_manager)) 1).
  - vm_compute. reflexivity.
  - vm_compute. reflexivity.
  - vm_compute. reflexivity.
Defined.

Lemma draw_material_binding_witness :
  ESetBindGroup 3 7 [1280] ∈ draw_primitives 7 example_ranges /\
  1280 + size_of_MatId <= material_id_buffer_size MAX_MAT.
Proof.
  assert (Hin : ESetBindGroup 3 7 [1280] ∈ draw_primitives 7 example_ranges).
  { vm_compute. left. }
  split; [exact Hin|].
  destruct (draw_material_binding 7 example_ranges ltac:(repeat constructor) 3 7 [1280] Hin)
    as (_ & _ & p & off & _ & Hoff & _ & _ & Hle & _).
  injection Hoff as <-. exact Hle.
Defined.

Lemma select_entity_key_of_witness :
  select_entity [Some "a"; Some "b"; Some "1"]%string
    (snd (split_key (key_of (fst (split_key "m.gltf#a")) 1))) = Some 1%nat.
Proof. rewrite (select_entity_key_of _ "m.gltf#a" 1) by lia. reflexivity. Defined.

Lemma load_primitive_indices_witness :
  exists prim, load_primitive example_gltf_primitive = Some prim /\
    local_indices prim = [0; 1; 2].
Proof.
  destruct (load_primitive example_gltf_primitive) as [prim|] eqn:E;
    [|vm_compute in E; discriminate].
  exists prim. split; [reflexivity|].
  destruct (load_primitive_indices example_gltf_primitive prim E) as (ps & Hps & _ & _ & Hdef).
  injection Hps as <-. rewrite Hdef by (reflexivity || (vm_compute; reflexivity)).
  reflexivity.
Defined.

Lemma get_mesh_materials_witness :
  exists mesh r, meshes (outcome_state (get_mesh "scene.gltf#Cube" scene_manager)) !! 0%nat = Some mesh /\
    primitives mesh !! 0%nat = Some r /\
    mat_by_name (outcome_state (get_mesh "scene.gltf#Cube" scene_manager)) !! "scene.gltf#0"%string
      = Some (range_material r).
Proof.
  destruct (get_mesh_materials "scene.gltf#Cube" scene_manager
              (outcome_state (get_mesh "scene.gltf#Cube" scene_manager)) 0)
    as (prims & mesh & Hl & _ & Hm & _ & Hall).
  - vm_compute. reflexivity.
  - vm_compute. reflexivity.
  - vm_compute in Hl. injection Hl as <-.
    destruct (Hall 0%nat _ eq_refl) as (r & Hr & Hmat).
    exists mesh, r. split; [exact Hm|]. split; [exact Hr | exact Hmat].
Defined.

Lemma get_texture_miss_witness :
  exists t sid, textures (outcome_state (get_texture "scene.gltf#2" Rgba8Unorm scene_manager)) =
      [{| tex := t; tex_view := S t; gpu_sampler := sid |}] /\
    sampler_by_name (outcome_state (get_texture "scene.gltf#2" Rgba8Unorm scene_manager))
      !! "scene.gltf#0"%string = Some sid.
Proof.
  destruct (get_texture_miss "scene.gltf#2" Rgba8Unorm scene_manager) as [_ Hd].
  - vm_compute. reflexivity.
  - destruct (Hd 0%nat (outcome_state (get_texture "scene.gltf#2" Rgba8Unorm scene_manager)))
      as (path & sel & td & sid & t & pre & Hsp & Hl & _ & Ht & _ & _ & _ & Hs).
    + vm_compute. reflexivity.
    + vm_compute in Hsp. injection Hsp as <- <-. vm_compute in Hl. injection Hl as <-.
      exists t, sid. split; [exact Ht | exact Hs].
Defined.

Lemma get_material_textures_witness :
  exists g, tex_by_mat (outcome_state (get_material "scene.gltf#0" scene_manager)) !! 1%nat = Some g /\
    tg_occlusion g = tg_normal g /\
    tex_by_key (outcome_state (get_material "scene.gltf#0" scene_manager))
      !! ("scene.gltf#2"%string, Rgba8Unorm) = Some (tg_normal g).
Proof.
  destruct (get_material_textures "scene.gltf#0" scene_manager
              (outcome_state (get_material "scene.gltf#0" scene_manager)) 1)
    as (m & g & Hl & Hg & Ho & _ & _ & (info & Hn & Hk) & _).
  - vm_compute. reflexivity.
  - vm_compute. reflexivity.
  - vm_compute in Hl. injection Hl as <-. vm_compute in Hn. injection Hn as <-.
    exists g. split; [exact Hg|]. split; [exact Ho | exact Hk].
Defined.
